(** * JD Filter: the extraction and classification engine of [server/index.js]

    A shallow embedding of the server's pure logic: the title picker, the
    remote / not-remote location classifier with its hint collection, the
    tech-stack keyword matcher with its per-label pattern overrides, and the
    lexicon store with its two HTTP handlers.

    JavaScript strings are modelled as [string], one [ascii] per code unit;
    the model covers the code units 0..255 (Latin-1).  Regular expressions
    are modelled by a backtracking matcher that follows the ECMAScript
    pattern semantics (without the [u] flag) for the constructs the source
    uses. *)

From Stdlib Require Import Bool Arith Lia List Permutation Ascii String.
Import ListNotations.

Local Open Scope string_scope.
Local Open Scope list_scope.
Local Open Scope nat_scope.


Set Warnings "-register-all".

(* ================================================================== *)
(** * Code units *)

Module CodeUnit.

Definition code (c : ascii) : nat := nat_of_ascii c.

Definition between (lo hi : nat) (c : ascii) : bool :=
  (lo <=? code c) && (code c <=? hi).

Definition is_upper (c : ascii) : bool := between 65 90 c.
Definition is_lower (c : ascii) : bool := between 97 122 c.
Definition is_digit (c : ascii) : bool := between 48 57 c.

(** [\w]: the ASCII letters, the digits and the underscore. *)
Definition is_word (c : ascii) : bool :=
  is_upper c || is_lower c || is_digit c || (code c =? 95).

(** WhiteSpace and LineTerminator code units below 256: TAB, LF, VT, FF, CR,
    SP and NBSP.  This is the class of [\s] and of [String.prototype.trim]. *)
Definition is_space (c : ascii) : bool :=
  between 9 13 c || (code c =? 32) || (code c =? 160).

(** LineTerminator code units below 256: the ones [.] does not match. *)
Definition is_line_terminator (c : ascii) : bool :=
  (code c =? 10) || (code c =? 13).

(** Canonicalize (ignoreCase, no [u] flag): the upper case of the code unit
    when that is a single code unit; a code unit above 127 is never mapped
    below 128.  Below 256 the letters a..z and the Latin-1 letters 224..254
    (but 247, the division sign) have an upper case 32 below; 181 and 255
    have an upper case above 255 that no other code unit below 256 shares,
    and 223 has one of two code units: the three are their own class. *)
Definition canonicalize (c : ascii) : ascii :=
  if is_lower c || (between 224 254 c && negb (code c =? 247))
  then ascii_of_nat (code c - 32)
  else c.

(** The comparison of a pattern character with an input character. *)
Definition char_eq (ignoreCase : bool) (a b : ascii) : bool :=
  if ignoreCase then Ascii.eqb (canonicalize a) (canonicalize b)
  else Ascii.eqb a b.

(** All code units of the model, in increasing order. *)
Definition all_units : list ascii := map ascii_of_nat (seq 0 256).

End CodeUnit.
Import CodeUnit.

(* ================================================================== *)
(** * Strings *)

Infix "+++" := String.append (right associativity, at level 60).

Module Str.

(** [revapp w l]: the characters of [w], last first, in front of [l]. *)
Fixpoint revapp (w l : string) : string :=
  match w with
  | EmptyString => l
  | String c w' => revapp w' (String c l)
  end.

Definition rev (s : string) : string := revapp s EmptyString.

Fixpoint trimStart (s : string) : string :=
  match s with
  | String c s' => if is_space c then trimStart s' else s
  | EmptyString => EmptyString
  end.

Fixpoint trimEnd (s : string) : string :=
  match s with
  | EmptyString => EmptyString
  | String c s' =>
      match trimEnd s' with
      | EmptyString => if is_space c then EmptyString else String c EmptyString
      | kept => String c kept
      end
  end.

(** [String.prototype.trim]. *)
Definition trim (s : string) : string := trimEnd (trimStart s).

(** [String.prototype.includes] for a one-character needle. *)
Fixpoint includes_char (c : ascii) (s : string) : bool :=
  match s with
  | EmptyString => false
  | String d s' => Ascii.eqb c d || includes_char c s'
  end.

(** [Array.prototype.join]. *)
Definition join (sep : string) (parts : list string) : string :=
  String.concat sep parts.

(** [String.prototype.split] with a one-character separator: the pieces
    between the separators, an empty text giving one empty piece. *)
Fixpoint split_char (sep : ascii) (s : string) : list string :=
  match s with
  | EmptyString => [EmptyString]
  | String c s' =>
      if Ascii.eqb c sep then EmptyString :: split_char sep s'
      else match split_char sep s' with
           | piece :: rest => String c piece :: rest
           | [] => [String c EmptyString]
           end
  end.

(** [a] occurs in [b] as a contiguous run of characters. *)
Definition substring_of (a b : string) : Prop :=
  exists p s, b = p +++ a +++ s.

Definition is_empty (s : string) : bool :=
  match s with EmptyString => true | _ => false end.

(** [s] between double quotes. *)
Definition quoted (s : string) : string :=
  String "034" s +++ String "034" EmptyString.

End Str.
Import Str.

(* ================================================================== *)
(** * Regular expressions *)

Module RegExp.

Inductive class_atom : Type :=
| CChar (c : ascii)                (* a single character *)
| CRange (lo hi : ascii)           (* lo-hi *)
| CWord                            (* \w *)
| CSpace.                          (* \s *)

Inductive regex : Type :=
| Empty
| Char (c : ascii)                         (* a pattern character or an identity escape *)
| Dot                                      (* . *)
| Class (negated : bool) (atoms : list class_atom)   (* [...] and [^...]; \w and \s alone *)
| Seq (r1 r2 : regex)
| Alt (r1 r2 : regex)                      (* r1|r2 *)
| Quant (min : nat) (max : option nat) (r : regex)   (* greedy ?, *, +, {n} *)
| Group (r : regex)                        (* (...) and (?:...) *)
| Bol                                      (* ^ *)
| Eol                                      (* $ *)
| WordB                                    (* \b *)
| LookAhead (negative : bool) (r : regex)  (* (?=...) and (?!...) *)
| LookBehind (negative : bool) (r : regex) (* (?<=...) and (?<!...) *).

(** The characters of [s] in sequence. *)
Fixpoint lit (s : string) : regex :=
  match s with
  | EmptyString => Empty
  | String c s' => Seq (Char c) (lit s')
  end.

(** A sequence of terms. *)
Fixpoint seqs (rs : list regex) : regex :=
  match rs with
  | [] => Empty
  | [r] => r
  | r :: rs' => Seq r (seqs rs')
  end.

Definition Opt (r : regex) : regex := Quant 0 (Some 1) r.
Definition Star (r : regex) : regex := Quant 0 None r.
Definition Plus (r : regex) : regex := Quant 1 None r.
Definition Times (n : nat) (r : regex) : regex := Quant n (Some n) r.

Definition atom_mem (a : class_atom) (c : ascii) : bool :=
  match a with
  | CChar d => Ascii.eqb d c
  | CRange lo hi => between (code lo) (code hi) c
  | CWord => is_word c
  | CSpace => is_space c
  end.

Definition class_mem (atoms : list class_atom) (c : ascii) : bool :=
  existsb (fun a => atom_mem a c) atoms.

(** CharacterSetMatcher: some member of the set has the canonical form of the
    input character; [negated] inverts the outcome. *)
Definition class_match (ignoreCase negated : bool) (atoms : list class_atom)
    (ch : ascii) : bool :=
  let found :=
    if ignoreCase
    then existsb (fun a => class_mem atoms a
                           && Ascii.eqb (canonicalize a) (canonicalize ch))
                 all_units
    else class_mem atoms ch in
  xorb negated found.

(** A position in the input: the characters before it, nearest first, and the
    characters after it. *)
Definition state : Type := (string * string)%type.

Inductive direction : Type := Forward | Backward.

(** The character the matcher reads next in a direction, and the position
    after reading it. *)
Definition read (d : direction) (st : state) : option (ascii * state) :=
  match d, st with
  | Forward, (l, String c r) => Some (c, (String c l, r))
  | Backward, (String c l, r) => Some (c, (l, String c r))
  | _, _ => None
  end.

Definition remaining (d : direction) (st : state) : nat :=
  match d with
  | Forward => String.length (snd st)
  | Backward => String.length (fst st)
  end.

Definition same_position (a b : state) : bool :=
  String.length (fst a) =? String.length (fst b).

Definition word_before (st : state) : bool :=
  match fst st with String c _ => is_word c | EmptyString => false end.

Definition word_after (st : state) : bool :=
  match snd st with String c _ => is_word c | EmptyString => false end.

Definition one (ok : bool) (st : state) : list state :=
  if ok then [st] else [].

(** RepeatMatcher for a greedy quantifier, as the list of the positions it
    can end at, most preferred first.  [m] matches the quantified term once.
    An iteration that consumes nothing once [min] is reached is dropped.
    [fuel] bounds the iterations: [min] plus the characters left suffice. *)
Fixpoint repeat_matcher (m : state -> list state) (fuel min : nat)
    (max : option nat) (x : state) : list state :=
  match max with
  | Some 0 => [x]
  | _ =>
      match fuel with
      | 0 => match min with 0 => [x] | S _ => [] end
      | S fuel' =>
          let iterate :=
            flat_map
              (fun y =>
                 if (min =? 0) && same_position y x then []
                 else repeat_matcher m fuel' (Nat.pred min)
                        (option_map Nat.pred max) y)
              (m x) in
          match min with
          | 0 => iterate ++ [x]
          | S _ => iterate
          end
      end
  end.

(** The positions a match of [r] started at [st] can end at, in the order
    the backtracking matcher tries them. *)
Fixpoint step (ignoreCase : bool) (r : regex) (d : direction) (st : state)
    {struct r} : list state :=
  match r with
  | Empty => [st]
  | Char c =>
      match read d st with
      | Some (ch, st') => one (char_eq ignoreCase c ch) st'
      | None => []
      end
  | Dot =>
      match read d st with
      | Some (ch, st') => one (negb (is_line_terminator ch)) st'
      | None => []
      end
  | Class negated atoms =>
      match read d st with
      | Some (ch, st') => one (class_match ignoreCase negated atoms ch) st'
      | None => []
      end
  | Seq r1 r2 =>
      match d with
      | Forward => flat_map (step ignoreCase r2 d) (step ignoreCase r1 d st)
      | Backward => flat_map (step ignoreCase r1 d) (step ignoreCase r2 d st)
      end
  | Alt r1 r2 => step ignoreCase r1 d st ++ step ignoreCase r2 d st
  | Quant min max r' =>
      repeat_matcher (step ignoreCase r' d) (min + remaining d st) min max st
  | Group r' => step ignoreCase r' d st
  | Bol => one (is_empty (fst st)) st
  | Eol => one (is_empty (snd st)) st
  | WordB => one (xorb (word_before st) (word_after st)) st
  | LookAhead negative r' =>
      match step ignoreCase r' Forward st with
      | [] => one negative st
      | _ :: _ => one (negb negative) st
      end
  | LookBehind negative r' =>
      match step ignoreCase r' Backward st with
      | [] => one negative st
      | _ :: _ => one (negb negative) st
      end
  end.

(** RegExpBuiltinExec without the [g] and [y] flags: the match is tried at
    each index from 0 on; the first index with a match gives the result,
    the position where the match starts and the one where it ends. *)
Fixpoint exec_from (ignoreCase : bool) (r : regex) (before after : string)
    {struct after} : option (state * state) :=
  match step ignoreCase r Forward (before, after) with
  | e :: _ => Some ((before, after), e)
  | [] =>
      match after with
      | EmptyString => None
      | String c after' => exec_from ignoreCase r (String c before) after'
      end
  end.

Definition exec (ignoreCase : bool) (r : regex) (s : string)
  : option (state * state) :=
  exec_from ignoreCase r EmptyString s.

(** [RegExp.prototype.test]. *)
Definition test (ignoreCase : bool) (r : regex) (s : string) : bool :=
  match exec ignoreCase r s with Some _ => true | None => false end.

(** The text between two positions of one input. *)
Definition matched (b e : state) : string :=
  String.substring 0 (String.length (snd b) - String.length (snd e)) (snd b).

(** [String.prototype.match] with a pattern without the [g] flag, element 0
    of the result: the matched text, [None] for [null]. *)
Definition match0 (ignoreCase : bool) (r : regex) (s : string)
  : option string :=
  match exec ignoreCase r s with
  | Some (b, e) => Some (matched b e)
  | None => None
  end.

End RegExp.
Import RegExp.

(* ================================================================== *)
(** * JavaScript values and collections *)

(** A value as [JSON.parse] and [express.json()] produce it.  A number is
    kept by its text: the code never computes with one. *)
Inductive json : Type :=
| JNull
| JBool (b : bool)
| JNum (text : string)
| JStr (s : string)
| JArr (items : list json)
| JObj (props : list (string * json)).

(** A string that may be [undefined]. *)
Definition maybe_string : Type := option string.

(** [Boolean(v)] on a string or [undefined]. *)
Definition truthy (v : maybe_string) : bool :=
  match v with
  | Some s => negb (is_empty s)
  | None => false
  end.

(** A [Set] of strings, by the order of insertion; [Array.from] of it is the
    list itself. *)
Definition set_has (x : string) (s : list string) : bool :=
  existsb (String.eqb x) s.

Definition set_add (s : list string) (x : string) : list string :=
  if set_has x s then s else s ++ [x].

(** [new Set(values)]. *)
Definition set_of (values : list string) : list string :=
  fold_left set_add values [].

(** [obj?.key]: the property of an object, [undefined] on anything else. *)
Fixpoint lookup (key : string) (props : list (string * json)) : option json :=
  match props with
  | [] => None
  | (k, v) :: rest => if String.eqb k key then Some v else lookup key rest
  end.

Definition property (v : option json) (key : string) : option json :=
  match v with
  | Some (JObj props) => lookup key props
  | _ => None
  end.

(* ================================================================== *)
(** * The parsed document *)

Module Dom.

(** The tree [cheerio.load] builds; tag and attribute names are in lower case
    as the parser leaves them. *)
Inductive node : Type :=
| Text (data : string)
| Comment (data : string)
| Element (name : string) (attribs : list (string * string))
          (children : list node).

(** [.text()] of one node: the text of its descendants in document order. *)
Fixpoint text (n : node) : string :=
  match n with
  | Text data => data
  | Comment _ => EmptyString
  | Element _ _ children =>
      (fix texts (ns : list node) : string :=
         match ns with
         | [] => EmptyString
         | c :: ns' => text c +++ texts ns'
         end) children
  end.

(** The elements of a tree in document order, the root first. *)
Fixpoint elements (n : node) : list node :=
  match n with
  | Element _ _ children =>
      n :: (fix all (ns : list node) : list node :=
              match ns with
              | [] => []
              | c :: ns' => elements c ++ all ns'
              end) children
  | _ => []
  end.

Definition tag_of (n : node) : string :=
  match n with Element name _ _ => name | _ => EmptyString end.

Fixpoint assoc (key : string) (attribs : list (string * string))
  : maybe_string :=
  match attribs with
  | [] => None
  | (k, v) :: rest => if String.eqb k key then Some v else assoc key rest
  end.

Definition attr_of (n : node) (key : string) : maybe_string :=
  match n with Element _ attribs _ => assoc key attribs | _ => None end.

(** The selectors of the source. *)
Inductive selector : Type :=
| Tag (name : string)                          (* 'h1' *)
| TagAttr (name key value : string)            (* 'meta[name="keywords"]' *)
| AnyTag (names : list string).                (* 'p, span, li, div' *)

Definition matches (sel : selector) (n : node) : bool :=
  match sel with
  | Tag name => String.eqb (tag_of n) name
  | TagAttr name key value =>
      String.eqb (tag_of n) name
      && match attr_of n key with
         | Some v => String.eqb v value
         | None => false
         end
  | AnyTag names => existsb (String.eqb (tag_of n)) names
  end.

(** [$(selector)]: the matching elements in document order. *)
Definition select (doc : node) (sel : selector) : list node :=
  filter (matches sel) (elements doc).

(** [.attr(key)] of a selection: the attribute of its first element. *)
Definition attr (selection : list node) (key : string) : maybe_string :=
  match selection with
  | n :: _ => attr_of n key
  | [] => None
  end.

(** [.first()]. *)
Definition first (selection : list node) : list node :=
  match selection with
  | n :: _ => [n]
  | [] => []
  end.

(** [.text()] of a selection: the texts of its elements, one after another. *)
Definition text_of (selection : list node) : string :=
  String.concat EmptyString (map text selection).

End Dom.
Import Dom.

(* ================================================================== *)
(** * The lexicon store *)

Definition DEFAULT_TECH_STACKS : list json :=
  map JStr
    [ "React"; "Next.js"; "TypeScript"; "JavaScript"; "Node.js"; "Angular";
      "Vue.js"; "Java"; "Spring Boot"; "Python"; "Django"; "Flask" ].

(** What a called function hands back: a value, or an exception. *)
Inductive outcome (A : Type) : Type :=
| Return (a : A)
| Throw (err : string).
Arguments Return {A} a.
Arguments Throw {A} err.

Definition bind {A B : Type} (o : outcome A) (k : A -> outcome B)
  : outcome B :=
  match o with
  | Return a => k a
  | Throw err => Throw err
  end.

Notation "x <- o ;; k" := (bind o (fun x => k))
  (at level 61, o at next level, right associativity).

(** The text of the lexicon file, by what [JSON.parse] makes of it. *)
Inductive file_text : Type :=
| Malformed
| Parses (v : json).

(** The file system as the store sees it: the lexicon file, if there is one,
    and whether it can be written. *)
Record filesystem : Type := {
  tech_stacks_json : option file_text;
  writable : bool
}.

Definition readFileSync (fs : filesystem) : outcome file_text :=
  match tech_stacks_json fs with
  | Some raw => Return raw
  | None => Throw "ENOENT: no such file or directory"
  end.

Definition JSON_parse (raw : file_text) : outcome json :=
  match raw with
  | Parses v => Return v
  | Malformed => Throw "SyntaxError: Unexpected token"
  end.

(** [JSON.stringify(stacks, null, 2)]: the text that parses back to the
    array. *)
Definition JSON_stringify (stacks : list json) : file_text :=
  Parses (JArr stacks).

Definition writeFileSync (fs : filesystem) (data : file_text)
  : outcome filesystem :=
  if writable fs
  then Return {| tech_stacks_json := Some data; writable := true |}
  else Throw "EACCES: permission denied".

Definition readTechStacksFromFile (fs : filesystem) : list json :=
  let attempt :=
    raw <- readFileSync fs ;;
    parsed <- JSON_parse raw ;;
    Return (match parsed with
            | JArr items => Some items
            | _ => None
            end) in
  match attempt with
  | Return (Some parsed) => parsed
  | Return None => DEFAULT_TECH_STACKS
  | Throw _ => DEFAULT_TECH_STACKS
  end.

(** The process: the in-memory lexicon, the file system and what went to
    [console.error]. *)
Record server : Type := {
  techStacks : list json;
  fs : filesystem;
  errors : list string
}.

(** Start of the process: the lexicon is read once. *)
Definition start (disk : filesystem) : server :=
  {| techStacks := readTechStacksFromFile disk; fs := disk; errors := [] |}.

Definition writeTechStacksToFile (stacks : list json) (srv : server)
  : server :=
  match writeFileSync (fs srv) (JSON_stringify stacks) with
  | Return fs' =>
      {| techStacks := techStacks srv; fs := fs'; errors := errors srv |}
  | Throw err =>
      {| techStacks := techStacks srv; fs := fs srv;
         errors := errors srv
                   ++ ["Failed to persist tech stacks DB: " +++ err] |}
  end.

(** An HTTP answer: the status and the JSON body. *)
Record response : Type := { status : nat; body : json }.

Definition res_json (code : nat) (payload : json) : response :=
  {| status := code; body := payload |}.

(** [GET /api/tech-stacks]. *)
Definition get_tech_stacks (srv : server) : response :=
  res_json 200 (JObj [("techStacks", JArr (techStacks srv))]).

(** The cleaning of the incoming array in [PUT /api/tech-stacks]. *)
Definition trimmed_entries (incoming : list json) : list string :=
  filter (fun entry => truthy (Some entry))
    (map (fun entry =>
            match entry with
            | JStr s => trim s
            | _ => EmptyString
            end)
       incoming).

Definition clean (incoming : list json) : list string :=
  set_of (trimmed_entries incoming).

(** [PUT /api/tech-stacks] with the parsed request body. *)
Definition put_tech_stacks (req_body : option json) (srv : server)
  : server * response :=
  let incoming :=
    match property req_body "techStacks" with
    | Some (JArr items) => Some items
    | _ => None
    end in
  match incoming with
  | None =>
      (srv, res_json 400
              (JObj [("message",
                      JStr ("Expected body: { " +++ quoted "techStacks"
                            +++ ": string[] }"))]))
  | Some incoming =>
      let cleaned := clean incoming in
      if List.length cleaned =? 0 then
        (srv, res_json 400
                (JObj [("message",
                        JStr "At least one tech stack must be provided.")]))
      else
        let srv1 := {| techStacks := map JStr cleaned; fs := fs srv;
                       errors := errors srv |} in
        let srv2 := writeTechStacksToFile (techStacks srv1) srv1 in
        (srv2, res_json 200 (JObj [("techStacks", JArr (techStacks srv2))]))
  end.

(* ================================================================== *)
(** * The tech-stack matcher *)

(** The characters of [/[.*+?^${}()|[\]\\]/]. *)
Definition syntax_characters : list class_atom :=
  [ CChar "."; CChar "*"; CChar "+"; CChar "?"; CChar "^"; CChar "$";
    CChar "{"; CChar "}"; CChar "("; CChar ")"; CChar "|"; CChar "[";
    CChar "]"; CChar "\" ].

(** [value.replace(/[.*+?^${}()|[\]\\]/g, '\\$&')]: a backslash in front of
    every syntax character. *)
Fixpoint escapeRegex (value : string) : string :=
  match value with
  | EmptyString => EmptyString
  | String c rest =>
      if class_match false false syntax_characters c
      then String "\" (String c (escapeRegex rest))
      else String c (escapeRegex rest)
  end.

(** [new RegExp(source)] on a source of pattern characters and identity
    escapes, which is what [escapeRegex] produces: a backslash and the
    character after it stand for that character, any other character for
    itself. *)
Fixpoint pattern_of_source (source : string) : regex :=
  match source with
  | EmptyString => Empty
  | String "\" (String c rest) => Seq (Char c) (pattern_of_source rest)
  | String c rest => Seq (Char c) (pattern_of_source rest)
  end.

(** [/^React$/i], [/^Node(?:\\.js)?$/i], [/^JavaScript$/i],
    [/^TypeScript$/i] and [/^AWS$/i]: the tests that select an override.  In
    the second one the source has a backslash escaped by a backslash, then
    a dot that is not escaped. *)
Definition is_React : regex := seqs [Bol; lit "React"; Eol].
Definition is_Node : regex :=
  seqs [Bol; lit "Node"; Opt (Group (seqs [Char "\"; Dot; lit "js"])); Eol].
Definition is_JavaScript : regex := seqs [Bol; lit "JavaScript"; Eol].
Definition is_TypeScript : regex := seqs [Bol; lit "TypeScript"; Eol].
Definition is_AWS : regex := seqs [Bol; lit "AWS"; Eol].

(** ['\\bReact(?:JS|\\.js)?\\b']. *)
Definition React_pattern : regex :=
  seqs [WordB; lit "React"; Opt (Group (Alt (lit "JS") (lit ".js"))); WordB].

(** ['\\bNode(?:\\.js|JS)?\\b']. *)
Definition Node_pattern : regex :=
  seqs [WordB; lit "Node"; Opt (Group (Alt (lit ".js") (lit "JS"))); WordB].

(** The two alternatives of the JavaScript override:
    [(?<!(text|application)\\/|enable\\s)\\bJavaScript\\b] and
    [(?<![\\w./\'Q-])JS(?![\\w])], where Q stands for the double quote
    (code unit 34) of the source. *)
Definition JavaScript_word : regex :=
  seqs [ LookBehind true
           (Alt (Seq (Group (Alt (lit "text") (lit "application"))) (Char "/"))
                (Seq (lit "enable") (Class false [CSpace])));
         WordB; lit "JavaScript"; WordB ].

Definition bare_JS : regex :=
  seqs [ LookBehind true
           (Class false [CWord; CChar "."; CChar "/"; CChar "'";
                         CChar "034"; CChar "-"]);
         lit "JS";
         LookAhead true (Class false [CWord]) ].

Definition JavaScript_pattern : regex := Alt JavaScript_word bare_JS.

(** ['\\bTypeScript\\b|(?<!\\w)TS(?!\\w)']. *)
Definition TypeScript_pattern : regex :=
  Alt (seqs [WordB; lit "TypeScript"; WordB])
      (seqs [ LookBehind true (Class false [CWord]); lit "TS";
              LookAhead true (Class false [CWord]) ]).

(** ['\\bAWS\\b|\\bAmazon Web Services\\b']. *)
Definition AWS_pattern : regex :=
  Alt (seqs [WordB; lit "AWS"; WordB])
      (seqs [WordB; lit "Amazon Web Services"; WordB]).

(** [`\\b${escapeRegex(normalized)}\\b`]. *)
Definition default_pattern (normalized : string) : regex :=
  seqs [WordB; pattern_of_source (escapeRegex normalized); WordB].

(** The pattern of a trimmed label, [patternSource] in the source. *)
Definition patternSource (normalized : string) : regex :=
  if test true is_React normalized then React_pattern
  else if test true is_Node normalized then Node_pattern
  else if test true is_JavaScript normalized then JavaScript_pattern
  else if test true is_TypeScript normalized then TypeScript_pattern
  else if test true is_AWS normalized then AWS_pattern
  else default_pattern normalized.

(** Whether the scan of [rawText] finds a label of the lexicon; an entry that
    is no string, or is empty once trimmed, is passed over. *)
Definition label_found (rawText : string) (label : json) : option string :=
  match label with
  | JStr s =>
      if is_empty s then None
      else
        let normalized := trim s in
        if is_empty normalized then None
        else if test true (patternSource normalized) rawText then Some s
        else None
  | _ => None
  end.

(** The body of [techStacks.forEach] in [collectKeywords]. *)
Definition scan_label (rawText : string) (keywords : list string)
    (label : json) : list string :=
  match label_found rawText label with
  | Some s => set_add keywords s
  | None => keywords
  end.

(** The scan of the lexicon over a text, from a set of keywords. *)
Definition scan_lexicon (lexicon : list json) (rawText : string)
    (keywords : list string) : list string :=
  fold_left (scan_label rawText) lexicon keywords.

(** The contents of the [script] elements, joined by line feeds. *)
Definition script_text (doc : node) : string :=
  join (String "010" EmptyString)
    (map text (select doc (Tag "script"))).

(** The keywords of the structured sources: the [keywords] meta content,
    split at the commas, and the content of every [article:tag] meta
    element. *)
Definition structured_keywords (doc : node) : list string :=
  let keywords : list string := [] in
  let metaKeywords := attr (select doc (TagAttr "meta" "name" "keywords"))
                        "content" in
  let keywords :=
    match metaKeywords with
    | Some content =>
        if is_empty content then keywords
        else fold_left set_add
               (filter (fun k => negb (is_empty k))
                  (map trim (split_char "," content)))
               keywords
    | None => keywords
    end in
  fold_left
    (fun ks element =>
       match attr_of element "content" with
       | Some tag => if is_empty tag then ks else set_add ks (trim tag)
       | None => ks
       end)
    (select doc (TagAttr "meta" "property" "article:tag"))
    keywords.

(** [`${pageText || $('body').text()}\n${scriptText}`]. *)
Definition rawText_of (doc : node) (pageText : string) : string :=
  (if is_empty pageText then text_of (select doc (Tag "body")) else pageText)
  +++ String "010" EmptyString +++ script_text doc.

Definition collectKeywords (lexicon : list json) (doc : node)
    (pageText : string) : list string :=
  let keywords := structured_keywords doc in
  let rawText := rawText_of doc pageText in
  scan_lexicon lexicon rawText keywords.

(* ================================================================== *)
(** * Location hints *)

(** [/on[-\s]?site|onsite|in[-\s]?office|hybrid/i]. *)
Definition descriptor_pattern : regex :=
  Alt (seqs [lit "on"; Opt (Class false [CChar "-"; CSpace]); lit "site"])
   (Alt (lit "onsite")
    (Alt (seqs [lit "in"; Opt (Class false [CChar "-"; CSpace]);
                lit "office"])
         (lit "hybrid"))).

Definition upper : regex := Class false [CRange "A" "Z"].
Definition name_chars : regex :=
  Plus (Class false [CRange "a" "z"; CRange "A" "Z"; CChar "."; CSpace]).
Definition spaces : regex := Star (Class false [CSpace]).

(** [/\b[A-Z][a-zA-Z.\s]+,\s*[A-Z]{2}\b/]. *)
Definition cityState_pattern : regex :=
  seqs [WordB; upper; name_chars; Char ","; spaces; Times 2 upper; WordB].

(** [/\b[A-Z]{2},\s*[A-Z][a-zA-Z.\s]+\b/]. *)
Definition stateCity_pattern : regex :=
  seqs [WordB; Times 2 upper; Char ","; spaces; upper; name_chars; WordB].

(** What one element adds to the hints, in the order it adds them: its own
    text for a descriptor, then the City-ST match, then the ST-City match. *)
Definition element_hints (element : node) : list string :=
  let text := trim (Dom.text element) in
  if is_empty text || (String.length text <? 4) || (100 <? String.length text)
  then []
  else
    (if test true descriptor_pattern text then [text] else [])
    ++ (if includes_char "," text
        then
          let cityStateMatch := match0 false cityState_pattern text in
          let stateCityMatch := match0 false stateCity_pattern text in
          match cityStateMatch with Some m => [trim m] | None => [] end
          ++ match stateCityMatch with Some m => [trim m] | None => [] end
        else []).

Definition extractLocationHints (doc : node) : list string :=
  fold_left
    (fun hints element => fold_left set_add (element_hints element) hints)
    (select doc (AnyTag ["p"; "span"; "li"; "div"]))
    [].

(* ================================================================== *)
(** * The job handler: title, location and tech stacks *)

Definition extractText (node : maybe_string) : string :=
  match node with
  | Some s => if is_empty s then EmptyString else trim s
  | None => EmptyString
  end.

(** [values.find((value) => !!value && value.length > 0)]. *)
Fixpoint pickFirst (values : list maybe_string) : maybe_string :=
  match values with
  | [] => None
  | value :: rest =>
      if truthy value
         && match value with Some s => 0 <? String.length s | None => false end
      then value
      else pickFirst rest
  end.

(** [a || b] on strings. *)
Definition or_else (a b : string) : string :=
  if is_empty a then b else a.

Definition ogTitle_of (doc : node) : maybe_string :=
  attr (select doc (TagAttr "meta" "property" "og:title")) "content".
Definition h1Title_of (doc : node) : string :=
  text_of (first (select doc (Tag "h1"))).
Definition pageTitle_of (doc : node) : string :=
  text_of (first (select doc (Tag "title"))).

Definition title_of (doc : node) : string :=
  or_else
    (extractText
       (pickFirst [Some (h1Title_of doc); ogTitle_of doc;
                   Some (pageTitle_of doc)]))
    "Untitled role".

Definition pageText_of (doc : node) : string :=
  text_of (select doc (Tag "body")).
Definition metaDescription_of (doc : node) : maybe_string :=
  attr (select doc (TagAttr "meta" "name" "description")) "content".
Definition ogDescription_of (doc : node) : maybe_string :=
  attr (select doc (TagAttr "meta" "property" "og:description")) "content".

(** [values.filter(Boolean).join('\n')]. *)
Definition join_present (values : list maybe_string) : string :=
  join (String "010" EmptyString)
    (flat_map (fun v => match v with
                        | Some s => if is_empty s then [] else [s]
                        | None => []
                        end) values).

Definition textForRemoteScan (doc : node) : string :=
  join_present
    [ Some (pageText_of doc); metaDescription_of doc; ogDescription_of doc;
      Some (h1Title_of doc); ogTitle_of doc; Some (pageTitle_of doc);
      Some (script_text doc) ].

(** [/\bremote\b/i] and [/\b(?:no|not|non)[-\s]?remote\b/i]. *)
Definition positive_remote : regex := seqs [WordB; lit "remote"; WordB].
Definition negative_remote : regex :=
  seqs [ WordB; Group (Alt (lit "no") (Alt (lit "not") (lit "non")));
         Opt (Class false [CChar "-"; CSpace]); lit "remote"; WordB ].

Definition hasPositiveRemote (blob : string) : bool :=
  test true positive_remote blob.
Definition hasNegativeRemote (blob : string) : bool :=
  test true negative_remote blob.

(** The location of the answer, from the text scanned for "remote" and the
    hints the document would give. *)
Definition classify (blob : string) (hints : list string) : string :=
  if hasPositiveRemote blob && negb (hasNegativeRemote blob)
  then "Remote"
  else
    if 0 <? List.length hints
    then "Not Remote" +++ String "010" EmptyString +++ join " / " hints
    else "Not Remote".

Definition location_of (doc : node) : string :=
  classify (textForRemoteScan doc) (extractLocationHints doc).

Definition textForStacksScan (doc : node) : string :=
  join_present
    [Some (pageText_of doc); metaDescription_of doc; ogDescription_of doc].

(** The fields of the payload of [GET /api/job] that come from the page. *)
Record payload : Type := {
  title : string;
  location : string;
  stacks : list string
}.

Definition job (lexicon : list json) (doc : node) : payload :=
  let found := collectKeywords lexicon doc (textForStacksScan doc) in
  {| title := title_of doc;
     location := location_of doc;
     stacks := if 0 <? List.length found then found else ["Not provided"] |}.


(* ================================================================== *)
(** * The job handler: the company *)

(** [v || ''] on a string or [undefined]. *)
Definition or_empty (v : maybe_string) : string :=
  match v with Some s => s | None => EmptyString end.

(** [$('[key]')]: the elements that carry the attribute, in document order. *)
Definition select_with_attr (doc : node) (key : string) : list node :=
  filter (fun n => match attr_of n key with Some _ => true | None => false end)
    (elements doc).

(** [extractText(og:site_name || '') || extractText(first data-company-name)]. *)
Definition company_text (doc : node) : string :=
  or_else
    (extractText
       (Some (or_empty
                (attr (select doc (TagAttr "meta" "property" "og:site_name"))
                   "content"))))
    (extractText
       (Some (text_of (first (select_with_attr doc "data-company-name"))))).

(** [company || undefined], the field of the payload. *)
Definition company_of (doc : node) : maybe_string :=
  if is_empty (company_text doc) then None else Some (company_text doc).

(* ================================================================== *)
(** * The client: loading and saving the tech stacks ([App.jsx]) *)

(** [/[\n,]/]. *)
Definition modal_separator (c : ascii) : bool :=
  class_match false false [CChar "010"; CChar ","] c.

(** [String.prototype.split] with a pattern of one character of a class. *)
Fixpoint split_on (sep : ascii -> bool) (s : string) : list string :=
  match s with
  | EmptyString => [EmptyString]
  | String c s' =>
      if sep c then EmptyString :: split_on sep s'
      else match split_on sep s' with
           | piece :: rest => String c piece :: rest
           | [] => [String c EmptyString]
           end
  end.

(** [techModalInput.split(/[\n,]/).map(trim).filter(Boolean)]. *)
Definition modal_entries (techModalInput : string) : list string :=
  filter (fun entry => negb (is_empty entry))
    (map trim (split_on modal_separator techModalInput)).

(** [Array.from(new Set(entries))]. *)
Definition unique_entries (techModalInput : string) : list string :=
  set_of (modal_entries techModalInput).

(** ToString of a value, and the text [Array.prototype.join] gives an
    element: nothing for [null]. *)
Fixpoint to_string (v : json) : string :=
  match v with
  | JNull => "null"
  | JBool true => "true"
  | JBool false => "false"
  | JNum text => text
  | JStr s => s
  | JArr items =>
      join ","
        ((fix texts (vs : list json) : list string :=
            match vs with
            | [] => []
            | JNull :: vs' => EmptyString :: texts vs'
            | v' :: vs' => to_string v' :: texts vs'
            end) items)
  | JObj _ => "[object Object]"
  end.

Definition join_item (v : json) : string :=
  match v with JNull => EmptyString | _ => to_string v end.

(** [stacks.join('\n')]. *)
Definition join_stacks (stacks : list json) : string :=
  join (String "010" EmptyString) (map join_item stacks).

(** The state of the modal: the saved stacks and the text of the input. *)
Record modal : Type := {
  savedTechStacks : list json;
  techModalInput : string
}.

(** [response.ok]. *)
Definition ok (r : response) : bool :=
  (200 <=? status r) && (status r <=? 299).

(** [Array.isArray(data.techStacks) ? data.techStacks : fallback]; reading
    a property of [null] throws. *)
Definition stacks_of (data : json) (fallback : list json)
  : outcome (list json) :=
  match data with
  | JNull => Throw "TypeError: Cannot read properties of null"
  | _ =>
      Return (match property (Some data) "techStacks" with
              | Some (JArr items) => items
              | _ => fallback
              end)
  end.

(** [loadTechStacks]: the read of the lexicon when the page opens;
    [reachable] tells whether the request gets through.  Whatever is thrown
    is caught, and the modal stays as it is. *)
Definition loadTechStacks (reachable : bool) (srv : server) (ui : modal)
  : modal :=
  if reachable then
    let response := get_tech_stacks srv in
    if ok response then
      match stacks_of (body response) [] with
      | Return stacks =>
          {| savedTechStacks := stacks; techModalInput := join_stacks stacks |}
      | Throw _ => ui
      end
    else ui
  else ui.

(** [handleSaveTechStacks]: the entries of the input are sent to the server
    when there is one at least; the answer of the server, when it is ok,
    becomes the state of the modal. *)
Definition handleSaveTechStacks (reachable : bool) (srv : server) (ui : modal)
  : server * modal :=
  let unique := unique_entries (techModalInput ui) in
  let ui1 := {| savedTechStacks := map JStr unique;
                techModalInput := techModalInput ui |} in
  if 0 <? List.length unique then
    if reachable then
      let (srv', response) :=
        put_tech_stacks (Some (JObj [("techStacks", JArr (map JStr unique))]))
          srv in
      if ok response then
        match stacks_of (body response) (map JStr unique) with
        | Return stacks =>
            (srv', {| savedTechStacks := stacks;
                      techModalInput := join_stacks stacks |})
        | Throw _ => (srv', ui1)
        end
      else (srv', ui1)
    else (srv, ui1)
  else (srv, ui1).

(* ================================================================== *)
(** * The verification script ([debug_verification.js]) *)

(** The lexicon of the script. *)
Definition DEBUG_TECH_STACKS : list json :=
  map JStr
    [ "React"; "Next.js"; "TypeScript"; "JavaScript"; "Node.js"; "Angular";
      "Vue.js"; "Java"; "Spring Boot"; "Python"; "Django"; "Flask"; "AWS" ].

(** The first alternative of the JavaScript pattern of the script,
    [(?<!(text|application)\\/)\\bJavaScript\\b]; the second one is the
    bare-JS alternative of the server. *)
Definition JavaScript_word_debug : regex :=
  seqs [ LookBehind true
           (Seq (Group (Alt (lit "text") (lit "application"))) (Char "/"));
         WordB; lit "JavaScript"; WordB ].

Definition JavaScript_pattern_debug : regex :=
  Alt JavaScript_word_debug bare_JS.

Definition patternSource_debug (normalized : string) : regex :=
  if test true is_React normalized then React_pattern
  else if test true is_Node normalized then Node_pattern
  else if test true is_JavaScript normalized then JavaScript_pattern_debug
  else if test true is_TypeScript normalized then TypeScript_pattern
  else if test true is_AWS normalized then AWS_pattern
  else default_pattern normalized.

Definition label_found_debug (rawText : string) (label : json)
  : option string :=
  match label with
  | JStr s =>
      if is_empty s then None
      else
        let normalized := trim s in
        if is_empty normalized then None
        else if test true (patternSource_debug normalized) rawText then Some s
        else None
  | _ => None
  end.

(** [collectKeywords] of the script, over a lexicon. *)
Definition collectKeywords_over (lexicon : list json) (doc : node)
    (pageText : string) : list string :=
  fold_left
    (fun keywords label =>
       match label_found_debug (rawText_of doc pageText) label with
       | Some s => set_add keywords s
       | None => keywords
       end)
    lexicon (structured_keywords doc).

Definition collectKeywords_debug (doc : node) (pageText : string)
  : list string :=
  collectKeywords_over DEBUG_TECH_STACKS doc pageText.

(* ================================================================== *)
(** * The client: the links of the input ([App.jsx]) *)

(** The lines of the input that are links and those that are not, and
    their count. *)
Record links : Type := {
  validLinks : list string;
  invalidLinks : list string;
  totalLinks : nat
}.

Section Links.

(** Whether [new URL(text)] parses and its protocol is [http:] or
    [https:]. *)
Variable url_is_http : string -> bool.

Definition isValidHttpUrl (rawLink : string) : bool :=
  if is_empty rawLink then false else url_is_http (trim rawLink).

(** [linkInput.split('\n').map(trim).filter(Boolean)]. *)
Definition normalized_links (linkInput : string) : list string :=
  filter (fun entry => negb (is_empty entry))
    (map trim (split_char "010" linkInput)).

Definition sort_link (acc : links) (link : string) : links :=
  if isValidHttpUrl link
  then {| validLinks := validLinks acc ++ [link];
          invalidLinks := invalidLinks acc;
          totalLinks := totalLinks acc + 1 |}
  else {| validLinks := validLinks acc;
          invalidLinks := invalidLinks acc ++ [link];
          totalLinks := totalLinks acc + 1 |}.

(** The [reduce] over the normalized lines. *)
Definition sorted_links (linkInput : string) : links :=
  fold_left sort_link (normalized_links linkInput)
    {| validLinks := []; invalidLinks := []; totalLinks := 0 |}.

(** [validLinks.filter((link) => !blockedLinkSet.has(link))]; [skipped]
    holds the [sourceLink] of the skipped entries. *)
Definition fetchableLinks (linkInput : string) (skipped : list string)
  : list string :=
  filter (fun link => negb (set_has link skipped))
    (validLinks (sorted_links linkInput)).

End Links.
(* ================================================================== *)
(** * Vocabulary of the statements *)

(** [m] is the text [w] of a pattern, up to case when [ignoreCase]. *)
Fixpoint str_match (ignoreCase : bool) (w m : string) : bool :=
  match w, m with
  | EmptyString, EmptyString => true
  | String a w', String b m' => char_eq ignoreCase a b && str_match ignoreCase w' m'
  | _, _ => false
  end.

(** The first, and the last, character of a text is in a class; [false] on
    the empty text. *)
Definition first_is (f : ascii -> bool) (s : string) : bool :=
  match s with String c _ => f c | EmptyString => false end.

Definition last_is (f : ascii -> bool) (s : string) : bool :=
  first_is f (rev s).

(** A whole-word occurrence of [w], up to case, in [blob]: no word character
    right before it or right after it. *)
Definition whole_word (w blob : string) : Prop :=
  exists p m s,
    blob = p +++ m +++ s /\ str_match true w m = true
    /\ last_is is_word p = false /\ first_is is_word s = false.

(** Nothing, a hyphen or one whitespace character. *)
Definition optional_separator (sep : string) : Prop :=
  sep = EmptyString
  \/ exists c, sep = String c EmptyString /\ (c = "-"%char \/ is_space c = true).

(** A whole-word occurrence, up to case, of "no", "not" or "non", an optional
    separator and "remote". *)
Definition negated_remote (blob : string) : Prop :=
  exists p n sep m s,
    blob = p +++ n +++ sep +++ m +++ s
    /\ (str_match true "no" n = true \/ str_match true "not" n = true
        \/ str_match true "non" n = true)
    /\ optional_separator sep
    /\ str_match true "remote" m = true
    /\ last_is is_word p = false /\ first_is is_word s = false.

(** The characters the bare-JS alternative refuses right before "JS": a word
    character, a dot, a slash, a quote of either kind or a hyphen. *)
Definition JS_excluded (c : ascii) : bool :=
  is_word c
  || existsb (Ascii.eqb c) ["."; "/"; "'"; "034"; "-"]%char.

(** Every occurrence of "JS", up to case, in [blob] has a dot or a slash
    right after it. *)
Definition every_JS_before_dot_or_slash (blob : string) : Prop :=
  forall p m s,
    blob = p +++ m +++ s -> str_match true "JS" m = true ->
    exists c s', s = String c s' /\ (c = "."%char \/ c = "/"%char).

(** Every occurrence of "JS", up to case, in [blob] has a dot or a slash
    right before it. *)
Definition every_JS_after_dot_or_slash (blob : string) : Prop :=
  forall p m s,
    blob = p +++ m +++ s -> str_match true "JS" m = true ->
    last_is (fun c => Ascii.eqb c "." || Ascii.eqb c "/") p = true.

(** [x] is at index [p] of [l] and at no index before. *)
Definition first_occurrence {A : Type} (l : list A) (p : nat) (x : A) : Prop :=
  nth_error l p = Some x /\ forall q, q < p -> nth_error l q <> Some x.

(** The elements of [r] come in the order of their first occurrences in [l],
    [inj] taking an element of [r] to the element of [l] it stands for. *)
Definition ordered_as {A B : Type} (inj : B -> A) (r : list B) (l : list A)
  : Prop :=
  forall i j x y,
    i < j -> nth_error r i = Some x -> nth_error r j = Some y ->
    exists p q,
      first_occurrence l p (inj x) /\ first_occurrence l q (inj y) /\ p < q.

Definition olist {A : Type} (o : option A) : list A :=
  match o with Some a => [a] | None => [] end.

(** One step of a scan that adds to a set what [f] finds in an item. *)
Definition keep_found {A : Type} (f : A -> option string)
    (acc : list string) (a : A) : list string :=
  match f a with
  | Some s => set_add acc s
  | None => acc
  end.

(** What a scan with [keep_found] maintains, [g] giving back the item that
    something was found in: the set [r] has no duplicates, holds exactly
    what is found in the items of [l], in the order of the first occurrences
    of those items, each of which has a first occurrence. *)
Definition kept_in_order {A : Type} (f : A -> option string) (g : string -> A)
    (l : list A) (r : list string) : Prop :=
  NoDup r
  /\ (forall s, In s r <-> In (g s) l /\ f (g s) = Some s)
  /\ ordered_as g r l
  /\ (forall s, In s r -> exists p, first_occurrence l p (g s)).

(** An upper bound of a quantifier that is not below its lower bound. *)
Definition bounded (min : nat) (max : option nat) : Prop :=
  match max with Some k => min <= k | None => True end.

(** The trimmed text of an element when it has 4 to 100 characters. *)
Definition hint_text (element : node) : option string :=
  let text := trim (Dom.text element) in
  if is_empty text || (String.length text <? 4) || (100 <? String.length text)
  then None else Some text.

(** What an element adds for each of the three kinds of hint. *)
Definition descriptor_hint (element : node) : option string :=
  match hint_text element with
  | Some text => if test true descriptor_pattern text then Some text else None
  | None => None
  end.

Definition cityState_hint (element : node) : option string :=
  match hint_text element with
  | Some text =>
      if includes_char "," text
      then option_map trim (match0 false cityState_pattern text)
      else None
  | None => None
  end.

Definition stateCity_hint (element : node) : option string :=
  match hint_text element with
  | Some text =>
      if includes_char "," text
      then option_map trim (match0 false stateCity_pattern text)
      else None
  | None => None
  end.

(** A hint as the data model describes it: trimmed, of 4 to 100 characters,
    and a part of the text of the page. *)
Definition hint_ok (page_text h : string) : Prop :=
  trim h = h /\ 4 <= String.length h <= 100 /\ substring_of h page_text.

(** The elements that hints are looked for in. *)
Definition hint_elements (doc : node) : list node :=
  select doc (AnyTag ["p"; "span"; "li"; "div"]).

(** The location of a posting that is not remote. *)
Definition not_remote (hints : list string) : string :=
  if 0 <? List.length hints
  then "Not Remote" +++ String "010" EmptyString +++ join " / " hints
  else "Not Remote".

(** A document without [keywords] meta content and without [article:tag]
    meta elements. *)
Definition no_structured_keywords (doc : node) : Prop :=
  attr (select doc (TagAttr "meta" "name" "keywords")) "content" = None
  /\ select doc (TagAttr "meta" "property" "article:tag") = [].

(** A label set as the replace operation leaves it: not empty, without
    duplicates, every label trimmed and not empty. *)
Definition cleaned_set (x : list string) : Prop :=
  x <> [] /\ NoDup x /\ Forall (fun s => trim s = s /\ s <> EmptyString) x.

(** A match of the forward matcher from [st] to [e] consumed [m]. *)
Definition consumed (st e : state) (m : string) : Prop :=
  snd st = m +++ snd e /\ fst e = revapp m (fst st).

(** The number of characters of the input a position belongs to. *)
Definition input_length (st : state) : nat :=
  String.length (fst st) + String.length (snd st).

(** [y] is a position of the same input as [x], not behind it in the
    direction [d]. *)
Definition advances (d : direction) (x y : state) : Prop :=
  input_length y = input_length x /\ remaining d y <= remaining d x.

(** A single character of a class, as a text. *)
Definition one_of (atoms : list class_atom) (w : string) : Prop :=
  exists c, w = String c EmptyString /\ class_match false false atoms c = true.

(** A page with the given children of [head] and of [body]. *)
Definition page (head_children body_children : list node) : node :=
  Element "html" []
    [Element "head" [] head_children; Element "body" [] body_children].

(** A page without any content. *)
Definition blank_page : node := page [] [].


(* ================================================================== *)
(** * Vocabulary of the further statements *)


(** [p] ends with [w], up to case. *)
Definition ends_like (w p : string) : Prop :=
  exists q m, p = q +++ m /\ str_match true w m = true.

(** What the JavaScript override refuses right before the word: "text/",
    "application/", or "enable" and one whitespace character. *)
Definition excluded_before_JavaScript (p : string) : Prop :=
  ends_like "text/" p \/ ends_like "application/" p
  \/ exists q c, p = q +++ String c EmptyString
                 /\ ends_like "enable" q /\ is_space c = true.

(** A whole-word occurrence of "JavaScript", up to case, with nothing
    refused right before it. *)
Definition JavaScript_word_in (blob : string) : Prop :=
  exists p m s,
    blob = p +++ m +++ s /\ str_match true "JavaScript" m = true
    /\ last_is is_word p = false /\ first_is is_word s = false
    /\ ~ excluded_before_JavaScript p.

(** The same with the exclusions of the verification script: "text/" and
    "application/" only. *)
Definition JavaScript_word_in_debug (blob : string) : Prop :=
  exists p m s,
    blob = p +++ m +++ s /\ str_match true "JavaScript" m = true
    /\ last_is is_word p = false /\ first_is is_word s = false
    /\ ~ (ends_like "text/" p \/ ends_like "application/" p).

(** The labels the test [/^Node(?:\\.js)?$/i] accepts: "Node", up to case,
    alone or followed by a backslash, one character that ends no line, and
    "js". *)
Definition node_label (l : string) : Prop :=
  str_match true "Node" l = true
  \/ exists n c t,
       l = n +++ String "\" (String c t)
       /\ str_match true "Node" n = true
       /\ is_line_terminator c = false
       /\ str_match true "js" t = true.

(** A label that is, up to case, the name of one of the overrides the
    tests select by name alone. *)
Definition override_name (l : string) : bool :=
  str_match true "React" l || str_match true "Node" l
  || str_match true "JavaScript" l || str_match true "TypeScript" l
  || str_match true "AWS" l.

(** The texts the handler scans for "remote", in the order it joins them. *)
Definition remote_sources (doc : node) : list maybe_string :=
  [ Some (pageText_of doc); metaDescription_of doc; ogDescription_of doc;
    Some (h1Title_of doc); ogTitle_of doc; Some (pageTitle_of doc);
    Some (script_text doc) ].

(** Some character of a text is in a class. *)
Fixpoint has_char (f : ascii -> bool) (s : string) : bool :=
  match s with
  | EmptyString => false
  | String c s' => f c || has_char f s'
  end.

(** A lexicon the modal shows and reads back as it is: a cleaned set of
    labels without comma and without line feed. *)
Definition modal_safe (x : list string) : Prop :=
  NoDup x
  /\ Forall (fun s => trim s = s /\ s <> EmptyString
                      /\ has_char modal_separator s = false) x.

(** [a] is the start of [b]. *)
Definition prefix_of {A : Type} (a b : list A) : Prop :=
  exists rest, b = a ++ rest.

(** What an [article:tag] element adds. *)
Definition article_tag (element : node) : option string :=
  match attr_of element "content" with
  | Some tag => if is_empty tag then None else Some (trim tag)
  | None => None
  end.

(** A run of replace requests, handled one after another. *)
Definition serve (requests : list (option json)) (srv : server) : server :=
  fold_left (fun s req => fst (put_tech_stacks req s)) requests srv.

(** The file holds the lexicon that is in memory, and can be written. *)
Definition persisted (srv : server) : Prop :=
  writable (fs srv) = true
  /\ techStacks (start (fs srv)) = techStacks srv.

(** The line feed that joins the texts, and the test for it. *)
Definition line_feed : string := String "010" EmptyString.
Definition is_line_feed (c : ascii) : bool := Ascii.eqb "010" c.

(** The values [filter(Boolean)] keeps. *)
Definition present (values : list maybe_string) : list string :=
  flat_map (fun v => match v with
                     | Some s => if is_empty s then [] else [s]
                     | None => []
                     end) values.

(** What stands before, and after, a text in a join by line feeds: nothing,
    or something that ends, or begins, with a line feed. *)
Definition ends_line (pre : string) : Prop :=
  pre = EmptyString \/ exists q, pre = q +++ line_feed.
Definition starts_line (post : string) : Prop :=
  post = EmptyString \/ exists q, post = line_feed +++ q.

(** An occurrence of [w] between two positions that are not next to a word
    character. *)
Definition delimited (w blob : string) : Prop :=
  exists p s, blob = p +++ w +++ s
              /\ last_is is_word p = false /\ first_is is_word s = false.


(** [company || undefined], beside the other fields of the payload. *)
Definition og_site_name (doc : node) : string :=
  or_empty (attr (select doc (TagAttr "meta" "property" "og:site_name"))
              "content").
Definition company_element_text (doc : node) : string :=
  text_of (first (select_with_attr doc "data-company-name")).

(** An input of the modal without any entry to read: every character is a
    comma, a line feed or whitespace. *)
Definition blank_input (s : string) : Prop :=
  has_char (fun c => negb (modal_separator c || is_space c)) s = false.

(* ================================================================== *)
(** * Strings: lemmas *)

Section StringLemmas.

Lemma sapp_nil_r (s : string) : s +++ EmptyString = s.
Proof. induction s as [|c s IH]; simpl; [reflexivity | now rewrite IH]. Qed.

Lemma sapp_assoc (a b c : string) : (a +++ b) +++ c = a +++ b +++ c.
Proof. induction a as [|x a IH]; simpl; [reflexivity | now rewrite IH]. Qed.

Lemma slength_app (a b : string) :
  String.length (a +++ b) = String.length a + String.length b.
Proof. induction a as [|x a IH]; simpl; [reflexivity | now rewrite IH]. Qed.

Lemma app_inv_tail_length (a b c d : string) :
  a +++ b = c +++ d -> String.length a = String.length c -> a = c /\ b = d.
Proof.
  revert c. induction a as [|x a IH]; intros [|y c]; simpl; intros H L;
    try discriminate; [now split|].
  injection H as -> H. injection L as L.
  destruct (IH c H L) as [-> ->]. now split.
Qed.

Lemma revapp_sapp (a b l : string) :
  revapp (a +++ b) l = revapp b (revapp a l).
Proof. revert l. induction a as [|x a IH]; simpl; intros; [reflexivity | apply IH]. Qed.

Lemma revapp_spec (w l : string) : revapp w l = rev w +++ l.
Proof.
  unfold rev. revert l. induction w as [|c w IH]; intros l; simpl; [reflexivity|].
  rewrite (IH (String c l)), (IH (String c EmptyString)), sapp_assoc. reflexivity.
Qed.

Lemma srev_app (a b : string) : rev (a +++ b) = rev b +++ rev a.
Proof. unfold rev at 1. rewrite revapp_sapp, revapp_spec. fold (rev a). reflexivity. Qed.

Lemma srev_involutive (s : string) : rev (rev s) = s.
Proof.
  induction s as [|c s IH]; [reflexivity|].
  change (rev (String c s)) with (revapp s (String c EmptyString)).
  rewrite revapp_spec, srev_app, IH. reflexivity.
Qed.

Lemma length_revapp (w l : string) :
  String.length (revapp w l) = String.length w + String.length l.
Proof.
  revert l. induction w as [|c w IH]; intros l; simpl; [reflexivity|].
  rewrite IH. simpl. lia.
Qed.

Lemma substring_of_refl (s : string) : substring_of s s.
Proof. exists EmptyString, EmptyString. simpl. now rewrite sapp_nil_r. Qed.

Lemma substring_of_trans (a b c : string) :
  substring_of a b -> substring_of b c -> substring_of a c.
Proof.
  intros (p & s & ->) (p' & s' & ->).
  exists (p' +++ p), (s +++ s'). now rewrite !sapp_assoc.
Qed.

Lemma substring_of_length (a b : string) :
  substring_of a b -> String.length a <= String.length b.
Proof. intros (p & s & ->). rewrite !slength_app. lia. Qed.

Lemma substring_prefix (w t : string) :
  String.substring 0 (String.length (w +++ t) - String.length t) (w +++ t) = w.
Proof.
  rewrite slength_app. replace (String.length w + String.length t - String.length t)
    with (String.length w) by lia.
  induction w as [|c w IH]; simpl.
  - destruct t; reflexivity.
  - now rewrite IH.
Qed.

Lemma last_is_app (f : ascii -> bool) (a : string) (c : ascii) :
  last_is f (a +++ String c EmptyString) = f c.
Proof. unfold last_is. rewrite srev_app. reflexivity. Qed.

Lemma last_is_rev (f : ascii -> bool) (l : string) :
  last_is f (rev l) = first_is f l.
Proof. unfold last_is. now rewrite srev_involutive. Qed.

End StringLemmas.

(* ================================================================== *)
(** * Characters and trimming: lemmas *)

Ltac ascii_cases c := destruct c as [[] [] [] [] [] [] [] []].

Section TrimLemmas.

Lemma upper_not_space (c : ascii) :
  class_match false false [CRange "A" "Z"] c = true -> is_space c = false.
Proof. ascii_cases c; vm_compute; congruence. Qed.

Lemma trimStart_suffix (s : string) :
  exists a, s = a +++ trimStart s.
Proof.
  induction s as [|c s [a IH]]; simpl.
  - now exists EmptyString.
  - destruct (is_space c).
    + exists (String c a). simpl. now rewrite <- IH.
    + now exists EmptyString.
Qed.

Lemma trimEnd_prefix (s : string) :
  exists b, s = trimEnd s +++ b.
Proof.
  induction s as [|c s [b IH]]; simpl.
  - now exists EmptyString.
  - destruct (trimEnd s) as [|k ks] eqn:E.
    + destruct (is_space c).
      * now exists (String c s).
      * exists s. reflexivity.
    + exists b. simpl. simpl in IH. now rewrite <- IH.
Qed.

Lemma trim_substring (s : string) : substring_of (trim s) s.
Proof.
  unfold trim. destruct (trimStart_suffix s) as [a Ha].
  destruct (trimEnd_prefix (trimStart s)) as [b Hb].
  exists a, b. rewrite <- Hb. exact Ha.
Qed.

Lemma trim_length (s : string) : String.length (trim s) <= String.length s.
Proof. apply substring_of_length, trim_substring. Qed.

Lemma trimStart_fixed (s : string) :
  first_is is_space s = false -> trimStart s = s.
Proof. destruct s as [|c s]; simpl; [reflexivity | now intros ->]. Qed.

Lemma trimStart_first (s : string) : first_is is_space (trimStart s) = false.
Proof.
  induction s as [|c s IH]; simpl; [reflexivity|].
  destruct (is_space c) eqn:E; [exact IH | simpl; exact E].
Qed.

Lemma trimEnd_first (s : string) :
  first_is is_space s = false -> first_is is_space (trimEnd s) = false.
Proof.
  destruct s as [|c s]; simpl; [reflexivity|]. intros E.
  destruct (trimEnd s); [rewrite E|]; simpl; exact E.
Qed.

Lemma trimEnd_idempotent (s : string) : trimEnd (trimEnd s) = trimEnd s.
Proof.
  induction s as [|c s IH]; simpl; [reflexivity|].
  destruct (trimEnd s) as [|k ks] eqn:E.
  - destruct (is_space c) eqn:Ec; simpl; [reflexivity | now rewrite Ec].
  - simpl. simpl in IH. rewrite IH. reflexivity.
Qed.

Lemma trim_idempotent (s : string) : trim (trim s) = trim s.
Proof.
  unfold trim.
  rewrite (trimStart_fixed (trimEnd (trimStart s))).
  - apply trimEnd_idempotent.
  - apply trimEnd_first, trimStart_first.
Qed.

(** A text that holds a character that is no whitespace keeps everything up
    to it when its end is trimmed. *)
Lemma trimEnd_keeps (a : string) (c : ascii) (w : string) :
  is_space c = false ->
  exists t, trimEnd (a +++ String c w) = a +++ String c t.
Proof.
  intros Hc. induction a as [|x a [t IH]]; simpl.
  - destruct (trimEnd w) as [|k ks].
    + rewrite Hc. now exists EmptyString.
    + now exists (String k ks).
  - rewrite IH. destruct a; simpl; now exists t.
Qed.

Lemma trimEnd_fixed (a : string) (c : ascii) :
  is_space c = false ->
  trimEnd (a +++ String c EmptyString) = a +++ String c EmptyString.
Proof.
  intros Hc. induction a as [|x a IH]; simpl.
  - now rewrite Hc.
  - rewrite IH. destruct a; reflexivity.
Qed.

End TrimLemmas.

(* ================================================================== *)
(** * The matcher: lemmas *)

Section MatcherLemmas.

Lemma in_one (ok : bool) (st e : state) :
  In e (one ok st) <-> ok = true /\ e = st.
Proof.
  destruct ok; simpl; split.
  - intros [<-|[]]. now split.
  - intros [_ ->]. now left.
  - intros [].
  - intros [H _]. discriminate.
Qed.

Lemma consumed_refl (st : state) : consumed st st EmptyString.
Proof. now split. Qed.

Lemma consumed_trans (a b c : state) (m n : string) :
  consumed a b m -> consumed b c n -> consumed a c (m +++ n).
Proof.
  intros [H1 H2] [H3 H4]. split.
  - rewrite H1, H3. now rewrite sapp_assoc.
  - rewrite H4, H2. now rewrite revapp_sapp.
Qed.

Lemma read_forward (l r : string) (st' : state) (c : ascii) :
  read Forward (l, r) = Some (c, st') ->
  exists r', r = String c r' /\ st' = (String c l, r').
Proof.
  destruct r as [|d r]; simpl; [discriminate|].
  intros H. injection H as <- <-. now exists r.
Qed.

Lemma read_consumed (st st' : state) (c : ascii) :
  read Forward st = Some (c, st') -> consumed st st' (String c EmptyString).
Proof.
  destruct st as [l r]. intros H.
  destruct (read_forward _ _ _ _ H) as (r' & -> & ->). now split.
Qed.

Lemma concat_cons (w : string) (ws : list string) :
  String.concat EmptyString (w :: ws) = w +++ String.concat EmptyString ws.
Proof. simpl. destruct ws; simpl; [now rewrite sapp_nil_r | reflexivity]. Qed.

(** What the iterations of a quantifier consume, when each run of the
    quantified term consumes a text with the property [P]: a sequence of
    such texts, at least [min] of them when [max] is not below [min]. *)
Lemma repeat_consumed (P : string -> Prop) (m : state -> list state) :
  (forall x y, In y (m x) -> exists w, consumed x y w /\ P w) ->
  forall fuel min max x e,
    In e (repeat_matcher m fuel min max x) ->
    exists ws, consumed x e (String.concat EmptyString ws)
               /\ Forall P ws /\ (bounded min max -> min <= List.length ws).
Proof.
  intros Hm.
  assert (Hnone : forall x min max, (bounded min max -> min = 0) ->
            exists ws, consumed x x (String.concat EmptyString ws)
                       /\ Forall P ws
                       /\ (bounded min max -> min <= List.length ws)).
  { intros x min max H0. exists []. repeat split; auto using consumed_refl.
    intros B. rewrite (H0 B). simpl. lia. }
  induction fuel as [|fuel IH]; intros min max x e H.
  - simpl in H. destruct max as [[|k]|].
    + destruct H as [<-|[]]. apply Hnone. simpl. lia.
    + destruct min; [|destruct H]. destruct H as [<-|[]]. now apply Hnone.
    + destruct min; [|destruct H]. destruct H as [<-|[]]. now apply Hnone.
  - assert (Hit : max <> Some 0 ->
            In e (flat_map
              (fun y => if (min =? 0) && same_position y x then []
                        else repeat_matcher m fuel (Nat.pred min)
                               (option_map Nat.pred max) y) (m x)) ->
            exists ws, consumed x e (String.concat EmptyString ws)
               /\ Forall P ws /\ (bounded min max -> min <= List.length ws)).
    { intros Hmax Hin. apply in_flat_map in Hin. destruct Hin as (y & Hy & Hin).
      destruct ((min =? 0) && same_position y x); [destruct Hin|].
      destruct (Hm _ _ Hy) as (w & Hw & Pw).
      destruct (IH _ _ _ _ Hin) as (ws & Hws & Pws & Hlen).
      exists (w :: ws). split; [|split].
      - rewrite concat_cons. eapply consumed_trans; eauto.
      - now constructor.
      - intros B. simpl.
        assert (B' : bounded (Nat.pred min) (option_map Nat.pred max)).
        { destruct max as [k|]; simpl in *; [lia | exact I]. }
        specialize (Hlen B'). lia. }
    simpl in H. destruct max as [[|k]|].
    + destruct H as [<-|[]]. apply Hnone. simpl. lia.
    + destruct min.
      * apply in_app_or in H. destruct H as [H|[<-|[]]];
          [apply Hit; [discriminate | exact H] | now apply Hnone].
      * apply Hit; [discriminate | exact H].
    + destruct min.
      * apply in_app_or in H. destruct H as [H|[<-|[]]];
          [apply Hit; [discriminate | exact H] | now apply Hnone].
      * apply Hit; [discriminate | exact H].
Qed.

(** A forward match ends at a position of the same input, at or after the
    position it started from. *)
Lemma step_consumed (ignoreCase : bool) (r : regex) :
  forall st e, In e (step ignoreCase r Forward st) -> exists m, consumed st e m.
Proof.
  induction r; intros st e H; cbn [step] in H.
  - destruct H as [<-|[]]. eexists; apply consumed_refl.
  - destruct (read Forward st) as [[ch st']|] eqn:R; [|destruct H].
    apply in_one in H. destruct H as [_ ->]. eexists; eapply read_consumed; eauto.
  - destruct (read Forward st) as [[ch st']|] eqn:R; [|destruct H].
    apply in_one in H. destruct H as [_ ->]. eexists; eapply read_consumed; eauto.
  - destruct (read Forward st) as [[ch st']|] eqn:R; [|destruct H].
    apply in_one in H. destruct H as [_ ->]. eexists; eapply read_consumed; eauto.
  - apply in_flat_map in H. destruct H as (y & Hy & H).
    destruct (IHr1 _ _ Hy) as [m1 H1]. destruct (IHr2 _ _ H) as [m2 H2].
    eexists; eapply consumed_trans; eauto.
  - apply in_app_or in H. destruct H as [H|H]; eauto.
  - apply (repeat_consumed (fun _ => True)) in H.
    + destruct H as (ws & H & _). eauto.
    + intros x y Hy. destruct (IHr _ _ Hy) as [w Hw]. eauto.
  - eauto.
  - apply in_one in H. destruct H as [_ ->]. eexists; apply consumed_refl.
  - apply in_one in H. destruct H as [_ ->]. eexists; apply consumed_refl.
  - apply in_one in H. destruct H as [_ ->]. eexists; apply consumed_refl.
  - destruct (step ignoreCase r Forward st); apply in_one in H;
      destruct H as [_ ->]; eexists; apply consumed_refl.
  - destruct (step ignoreCase r Backward st); apply in_one in H;
      destruct H as [_ ->]; eexists; apply consumed_refl.
Qed.

(** ** Sequences, literals and classes, forward *)

Lemma step_Seq (i : bool) (r1 r2 : regex) (st e : state) :
  In e (step i (Seq r1 r2) Forward st)
  <-> exists y, In y (step i r1 Forward st) /\ In e (step i r2 Forward y).
Proof. cbn [step]. apply in_flat_map. Qed.

Lemma step_Char (i : bool) (c : ascii) (l r : string) (e : state) :
  In e (step i (Char c) Forward (l, r))
  <-> exists ch r', r = String ch r' /\ char_eq i c ch = true
                    /\ e = (String ch l, r').
Proof.
  cbn [step]. destruct r as [|ch r']; simpl.
  - split; [intros [] | intros (? & ? & ? & _); discriminate].
  - rewrite in_one. split.
    + intros [H ->]. eauto.
    + intros (ch' & r'' & E & H & ->). injection E as <- <-. now split.
Qed.

Lemma step_Class (i n : bool) (atoms : list class_atom) (l r : string)
    (e : state) :
  In e (step i (Class n atoms) Forward (l, r))
  <-> exists ch r', r = String ch r' /\ class_match i n atoms ch = true
                    /\ e = (String ch l, r').
Proof.
  cbn [step]. destruct r as [|ch r']; simpl.
  - split; [intros [] | intros (? & ? & ? & _); discriminate].
  - rewrite in_one. split.
    + intros [H ->]. eauto.
    + intros (ch' & r'' & E & H & ->). injection E as <- <-. now split.
Qed.

Lemma step_lit (i : bool) (w : string) :
  forall l r e,
    In e (step i (lit w) Forward (l, r))
    <-> exists m r', r = m +++ r' /\ str_match i w m = true
                     /\ e = (revapp m l, r').
Proof.
  induction w as [|c w IH]; intros l r e.
  - simpl. split.
    + intros [<-|[]]. exists EmptyString, r. auto.
    + intros (m & r' & -> & H & ->). destruct m; [now left | discriminate].
  - change (lit (String c w)) with (Seq (Char c) (lit w)). rewrite step_Seq.
    split.
    + intros (y & Hy & He). apply step_Char in Hy.
      destruct Hy as (ch & r1 & -> & Hc & ->).
      apply IH in He. destruct He as (m & r' & -> & Hm & ->).
      exists (String ch m), r'. simpl. rewrite Hc, Hm. auto.
    + intros (m & r' & -> & Hm & ->). destruct m as [|ch m]; [discriminate|].
      simpl in Hm. apply andb_prop in Hm. destruct Hm as [Hc Hm].
      exists (String ch l, m +++ r'). split.
      * apply step_Char. exists ch, (m +++ r'). auto.
      * apply IH. eauto.
Qed.

Lemma step_WordB (i : bool) (st e : state) :
  In e (step i WordB Forward st)
  <-> xorb (word_before st) (word_after st) = true /\ e = st.
Proof. cbn [step]. apply in_one. Qed.

(** ** The scan of the input *)

Lemma exec_from_sound (i : bool) (r : regex) :
  forall after before b e,
    exec_from i r before after = Some (b, e) ->
    exists p, after = p +++ snd b /\ fst b = revapp p before
              /\ In e (step i r Forward b).
Proof.
  induction after as [|c after IH]; intros before b e H; simpl in H.
  - destruct (step i r Forward (before, EmptyString)) as [|e' rest] eqn:E;
      [discriminate|].
    injection H as <- <-. exists EmptyString. rewrite E. simpl. auto.
  - destruct (step i r Forward (before, String c after)) as [|e' rest] eqn:E.
    + destruct (IH _ _ _ H) as (p & Hp & Hb & He).
      exists (String c p). simpl. rewrite <- Hp. auto.
    + injection H as <- <-. exists EmptyString. rewrite E. simpl. auto.
Qed.

Lemma exec_from_complete (i : bool) (r : regex) :
  forall p before s e,
    In e (step i r Forward (revapp p before, s)) ->
    exec_from i r before (p +++ s) <> None.
Proof.
  induction p as [|c p IH]; intros before s e H.
  - simpl in *. destruct s; simpl;
      destruct (step i r Forward _); try discriminate; destruct H.
  - simpl. destruct (step i r Forward (before, String c (p +++ s)));
      [|discriminate].
    eapply IH. exact H.
Qed.

(** [test] succeeds exactly when the pattern matches forward from some
    position of the text. *)
Lemma test_true_iff (i : bool) (r : regex) (blob : string) :
  test i r blob = true
  <-> exists p s e, blob = p +++ s /\ In e (step i r Forward (rev p, s)).
Proof.
  unfold test, exec. split.
  - destruct (exec_from i r EmptyString blob) as [[b e]|] eqn:E; [|discriminate].
    intros _. destruct (exec_from_sound _ _ _ _ _ _ E) as (p & Hp & Hb & He).
    exists p, (snd b), e. split; [exact Hp|].
    destruct b as [bl br]. simpl in *. subst bl. exact He.
  - intros (p & s & e & -> & H).
    destruct (exec_from i r EmptyString (p +++ s)) eqn:E; [reflexivity|].
    exfalso. eapply exec_from_complete; eauto.
Qed.

(** The text [match0] returns is the one the match consumed: it lies in the
    text between what comes before the match and what comes after. *)
Lemma match0_sound (i : bool) (r : regex) (s m : string) :
  match0 i r s = Some m ->
  exists p t e, s = p +++ m +++ t
                /\ In e (step i r Forward (rev p, m +++ t))
                /\ consumed (rev p, m +++ t) e m.
Proof.
  unfold match0, exec.
  destruct (exec_from i r EmptyString s) as [[b e]|] eqn:E; [|discriminate].
  intros H. injection H as <-.
  destruct (exec_from_sound _ _ _ _ _ _ E) as (p & Hp & Hb & He).
  destruct (step_consumed _ _ _ _ He) as (w & Hw1 & Hw2).
  destruct b as [bl br]. simpl in *. subst bl.
  subst br. exists p, (snd e), e. unfold matched. simpl.
  rewrite substring_prefix.
  split; [exact Hp|]. split; [exact He|].
  split; simpl; [reflexivity | exact Hw2].
Qed.

End MatcherLemmas.

(* ================================================================== *)
(** * The quantifier: its bound on the iterations is enough *)

Section Fuel.

Lemma advances_refl (d : direction) (x : state) : advances d x x.
Proof. split; reflexivity. Qed.

Lemma advances_trans (d : direction) (x y z : state) :
  advances d x y -> advances d y z -> advances d x z.
Proof. intros [H1 H2] [H3 H4]. split; [congruence | lia]. Qed.

Lemma read_advances (d : direction) (st st' : state) (c : ascii) :
  read d st = Some (c, st') -> advances d st st'.
Proof.
  destruct d, st as [[|a l] [|b r]]; simpl; intros H;
    try discriminate; injection H as <- <-;
    unfold advances, input_length; simpl; lia.
Qed.

(** A position that is not behind and not the same is strictly ahead. *)
Lemma advances_strictly (d : direction) (x y : state) :
  advances d x y -> same_position y x = false ->
  remaining d y < remaining d x.
Proof.
  unfold advances, input_length, same_position.
  intros [H1 H2] H. apply Nat.eqb_neq in H. destruct d; simpl in *; lia.
Qed.

Lemma advances_nowhere (d : direction) (x y : state) :
  advances d x y -> remaining d x = 0 -> same_position y x = true.
Proof.
  unfold advances, input_length, same_position.
  intros [H1 H2] H. apply Nat.eqb_eq. destruct d; simpl in *; lia.
Qed.

Lemma repeat_advances (d : direction) (m : state -> list state) :
  (forall x y, In y (m x) -> advances d x y) ->
  forall fuel min max x e,
    In e (repeat_matcher m fuel min max x) -> advances d x e.
Proof.
  intros Hm. induction fuel as [|fuel IH]; intros min max x e H.
  - simpl in H. destruct max as [[|k]|], min; simpl in H;
      try (destruct H as [<-|[]]; apply advances_refl); destruct H.
  - assert (Hit : In e (flat_map
              (fun y => if (min =? 0) && same_position y x then []
                        else repeat_matcher m fuel (Nat.pred min)
                               (option_map Nat.pred max) y) (m x)) ->
            advances d x e).
    { intros Hin. apply in_flat_map in Hin. destruct Hin as (y & Hy & Hin).
      destruct ((min =? 0) && same_position y x); [destruct Hin|].
      eapply advances_trans; [apply Hm, Hy | eapply IH, Hin]. }
    simpl in H. destruct max as [[|k]|].
    + destruct H as [<-|[]]. apply advances_refl.
    + destruct min; [apply in_app_or in H; destruct H as [H|[<-|[]]]|];
        auto using advances_refl.
    + destruct min; [apply in_app_or in H; destruct H as [H|[<-|[]]]|];
        auto using advances_refl.
Qed.

(** A match ends at a position of the same input, not behind the position
    it started from in the direction of the match. *)
Lemma step_advances (i : bool) (r : regex) :
  forall d st e, In e (step i r d st) -> advances d st e.
Proof.
  induction r; intros d st e H; cbn [step] in H.
  - destruct H as [<-|[]]. apply advances_refl.
  - destruct (read d st) as [[ch st']|] eqn:R; [|destruct H].
    apply in_one in H. destruct H as [_ ->]. eapply read_advances, R.
  - destruct (read d st) as [[ch st']|] eqn:R; [|destruct H].
    apply in_one in H. destruct H as [_ ->]. eapply read_advances, R.
  - destruct (read d st) as [[ch st']|] eqn:R; [|destruct H].
    apply in_one in H. destruct H as [_ ->]. eapply read_advances, R.
  - destruct d; apply in_flat_map in H; destruct H as (y & Hy & H);
      eapply advances_trans; eauto.
  - apply in_app_or in H. destruct H as [H|H]; eauto.
  - eapply repeat_advances; [|exact H]. intros x y. apply IHr.
  - eauto.
  - apply in_one in H. destruct H as [_ ->]. apply advances_refl.
  - apply in_one in H. destruct H as [_ ->]. apply advances_refl.
  - apply in_one in H. destruct H as [_ ->]. apply advances_refl.
  - destruct (step i r Forward st); apply in_one in H;
      destruct H as [_ ->]; apply advances_refl.
  - destruct (step i r Backward st); apply in_one in H;
      destruct H as [_ ->]; apply advances_refl.
Qed.

Lemma flat_map_ext_in {A B : Type} (f g : A -> list B) (l : list A) :
  (forall a, In a l -> f a = g a) -> flat_map f l = flat_map g l.
Proof.
  intros H. rewrite !flat_map_concat_map. f_equal. now apply map_ext_in.
Qed.

Lemma flat_map_nothing {A B : Type} (f : A -> list B) (l : list A) :
  (forall a, In a l -> f a = []) -> flat_map f l = [].
Proof.
  intros H. induction l as [|a l IH]; [reflexivity|].
  simpl. rewrite (H a (or_introl eq_refl)), IH; [reflexivity|].
  intros b Hb. apply H. now right.
Qed.

Lemma repeat_matcher_S (m : state -> list state) (fuel min : nat)
    (max : option nat) (x : state) :
  repeat_matcher m (S fuel) min max x
  = match max with
    | Some 0 => [x]
    | _ =>
        let iterate :=
          flat_map
            (fun y => if (min =? 0) && same_position y x then []
                      else repeat_matcher m fuel (Nat.pred min)
                             (option_map Nat.pred max) y)
            (m x) in
        match min with
        | 0 => iterate ++ [x]
        | S _ => iterate
        end
    end.
Proof. reflexivity. Qed.

(** One more unit of fuel changes nothing once the fuel covers the lower
    bound and the characters left. *)
Lemma repeat_matcher_more_fuel (d : direction) (m : state -> list state) :
  (forall x y, In y (m x) -> advances d x y) ->
  forall fuel min max x,
    min + remaining d x <= fuel ->
    repeat_matcher m (S fuel) min max x = repeat_matcher m fuel min max x.
Proof.
  intros Hm. induction fuel as [|fuel IH]; intros min max x Hfuel.
  - assert (min = 0) by lia. subst min.
    assert (Hx : remaining d x = 0) by lia.
    cbn [repeat_matcher Nat.eqb andb].
    destruct max as [[|k]|]; [reflexivity| |];
      (rewrite flat_map_nothing; [reflexivity|]);
      intros y Hy; now rewrite (advances_nowhere d x y (Hm x y Hy) Hx).
  - rewrite (repeat_matcher_S m (S fuel)), (repeat_matcher_S m fuel).
    assert (E : flat_map
                  (fun y => if (min =? 0) && same_position y x then []
                            else repeat_matcher m (S fuel) (Nat.pred min)
                                   (option_map Nat.pred max) y)
                  (m x)
                = flat_map
                  (fun y => if (min =? 0) && same_position y x then []
                            else repeat_matcher m fuel (Nat.pred min)
                                   (option_map Nat.pred max) y)
                  (m x)).
    { apply flat_map_ext_in. intros y Hy.
      destruct ((min =? 0) && same_position y x) eqn:C; [reflexivity|].
      apply IH. pose proof (Hm x y Hy) as Hadv.
      destruct min as [|min]; simpl in C |- *.
      - pose proof (advances_strictly d x y Hadv C). lia.
      - destruct Hadv as [_ Hadv]. lia. }
    cbv zeta. rewrite E. reflexivity.
Qed.

(** The matcher of a quantifier gives what any larger bound on the
    iterations gives: the fuel of the model never runs out. *)
Lemma step_Quant_any_fuel (i : bool) (min : nat) (max : option nat)
    (r : regex) (d : direction) (st : state) (extra : nat) :
  repeat_matcher (step i r d) (extra + (min + remaining d st)) min max st
  = step i (Quant min max r) d st.
Proof.
  cbn [step]. induction extra as [|extra IH]; [reflexivity|].
  rewrite <- IH. cbn [Nat.add].
  apply (repeat_matcher_more_fuel d); [apply step_advances | lia].
Qed.

End Fuel.

(* ================================================================== *)
(** * Insertion-ordered sets: lemmas *)

Section SetLemmas.

Lemma set_has_In (x : string) (s : list string) :
  set_has x s = true <-> In x s.
Proof.
  unfold set_has. rewrite existsb_exists. split.
  - intros (y & Hy & E). apply String.eqb_eq in E. now subst.
  - intros H. exists x. split; [exact H | apply String.eqb_refl].
Qed.

Lemma set_has_not_In (x : string) (s : list string) :
  set_has x s = false <-> ~ In x s.
Proof.
  rewrite <- set_has_In. destruct (set_has x s); split; congruence.
Qed.

Lemma first_occurrence_app {A : Type} (l t : list A) (p : nat) (x : A) :
  first_occurrence l p x -> first_occurrence (l ++ t) p x.
Proof.
  intros [H1 H2].
  assert (p < List.length l) by (apply nth_error_Some; congruence).
  split.
  - rewrite nth_error_app1; assumption.
  - intros q Hq. rewrite nth_error_app1 by lia. now apply H2.
Qed.

Lemma first_occurrence_new {A : Type} (l : list A) (x : A) :
  ~ In x l -> first_occurrence (l ++ [x]) (List.length l) x.
Proof.
  intros Hx. split.
  - rewrite nth_error_app2, Nat.sub_diag by lia. reflexivity.
  - intros q Hq E. rewrite nth_error_app1 in E by lia.
    apply Hx. eapply nth_error_In; eauto.
Qed.

Lemma first_occurrence_lt {A : Type} (l : list A) (p : nat) (x : A) :
  first_occurrence l p x -> p < List.length l.
Proof. intros [H _]. apply nth_error_Some. congruence. Qed.

Lemma ordered_as_app {A B : Type} (inj : B -> A) (r : list B) (l t : list A) :
  ordered_as inj r l -> ordered_as inj r (l ++ t).
Proof.
  intros H i j x y Hij Hi Hj.
  destruct (H i j x y Hij Hi Hj) as (p & q & Hp & Hq & Hpq).
  exists p, q. auto using first_occurrence_app.
Qed.

(** A scan that keeps what [f] finds, where what is found tells the item it
    was found in: the outcome has no duplicates, holds exactly what is found
    in the items, and lists it in the order of the first occurrences of
    those items. *)
Section KeepFirst.

Variable A : Type.
Variable f : A -> option string.
Variable g : string -> A.
Hypothesis f_g : forall a s, f a = Some s -> a = g s.

Lemma keep_found_invariant (l : list A) :
  kept_in_order f g l (fold_left (keep_found f) l []).
Proof.
  unfold kept_in_order. induction l as [|a l IH] using rev_ind.
  - simpl. split; [constructor|]. split; [|split].
    + intros s. split; [intros [] | intros [[] _]].
    + intros i j x y _ Hi. destruct i; discriminate.
    + intros s [].
  - rewrite fold_left_app. cbn [fold_left].
    set (r := fold_left (keep_found f) l []) in *.
    destruct IH as (ND & Hin & Hord & Hfirst).
    assert (Hold : forall s, In s r -> In (g s) (l ++ [a]) /\ f (g s) = Some s).
    { intros s Hs. apply Hin in Hs. destruct Hs. auto using in_or_app. }
    assert (Hfirst' : forall s, In s r ->
                        exists p, first_occurrence (l ++ [a]) p (g s)).
    { intros s Hs. destruct (Hfirst s Hs) as [p Hp].
      exists p. now apply first_occurrence_app. }
    assert (Hstep : keep_found f r a
                    = match f a with
                      | Some s => if set_has s r then r else r ++ [s]
                      | None => r
                      end) by reflexivity.
    rewrite Hstep. clear Hstep. destruct (f a) as [s0|] eqn:Fa.
    + pose proof (f_g _ _ Fa) as ->.
      destruct (set_has s0 r) eqn:Has.
      * apply set_has_In in Has.
        split; [exact ND|]. split; [|split; [now apply ordered_as_app | exact Hfirst']].
        intros s. split; [apply Hold|].
        intros [Hs Fs]. apply in_app_or in Hs.
        destruct Hs as [Hs|[E|[]]]; [apply Hin; auto|].
        rewrite <- E in Fs. rewrite Fa in Fs. injection Fs as <-. exact Has.
      * apply set_has_not_In in Has.
        assert (Hnew : ~ In (g s0) l).
        { intros Hl. apply Has, Hin. auto. }
        split; [|split; [|split]].
        -- apply Permutation_NoDup with (l := s0 :: r).
           ++ apply Permutation_cons_append.
           ++ now constructor.
        -- intros s. split.
           ++ intros Hs. apply in_app_or in Hs.
              destruct Hs as [Hs|[<-|[]]]; [now apply Hold|].
              split; [apply in_or_app; right; now left | exact Fa].
           ++ intros [Hs Fs]. apply in_or_app. apply in_app_or in Hs.
              destruct Hs as [Hs|[E|[]]]; [left; apply Hin; auto|].
              right. rewrite <- E in Fs. rewrite Fa in Fs.
              injection Fs as <-. now left.
        -- intros i j x y Hij Hi Hj.
           assert (Hj' : j < List.length (r ++ [s0]))
             by (apply nth_error_Some; congruence).
           rewrite length_app in Hj'. simpl in Hj'.
           rewrite nth_error_app1 in Hi by lia.
           destruct (Nat.eq_dec j (List.length r)) as [->|Hne].
           ++ rewrite nth_error_app2, Nat.sub_diag in Hj by lia.
              injection Hj as <-.
              destruct (Hfirst x (nth_error_In _ _ Hi)) as [p Hp].
              exists p, (List.length l). split; [|split].
              ** now apply first_occurrence_app.
              ** now apply first_occurrence_new.
              ** eapply first_occurrence_lt; eauto.
           ++ rewrite nth_error_app1 in Hj by lia.
              destruct (Hord i j x y Hij Hi Hj) as (p & q & Hp & Hq & Hpq).
              exists p, q. auto using first_occurrence_app.
        -- intros s Hs. apply in_app_or in Hs. destruct Hs as [Hs|[<-|[]]].
           ++ now apply Hfirst'.
           ++ exists (List.length l). now apply first_occurrence_new.
    + split; [exact ND|]. split; [|split; [now apply ordered_as_app | exact Hfirst']].
      intros s. split; [apply Hold|].
      intros [Hs Fs]. apply in_app_or in Hs.
      destruct Hs as [Hs|[E|[]]]; [apply Hin; auto|].
      rewrite <- E in Fs. congruence.
Qed.

Lemma keep_found_NoDup (l : list A) : NoDup (fold_left (keep_found f) l []).
Proof. apply keep_found_invariant. Qed.

Lemma keep_found_In (l : list A) (s : string) :
  In s (fold_left (keep_found f) l []) <-> In (g s) l /\ f (g s) = Some s.
Proof. apply keep_found_invariant. Qed.

Lemma keep_found_ordered (l : list A) :
  ordered_as g (fold_left (keep_found f) l []) l.
Proof. apply keep_found_invariant. Qed.

End KeepFirst.

Lemma Some_tells (a s : string) : Some a = Some s -> a = s.
Proof. intros H. now injection H. Qed.

Lemma set_of_NoDup (l : list string) : NoDup (set_of l).
Proof. exact (@keep_found_NoDup string (@Some string) (fun s => s) Some_tells l). Qed.

Lemma set_of_In (l : list string) (s : string) : In s (set_of l) <-> In s l.
Proof.
  pose proof (@keep_found_In string (@Some string) (fun s => s) Some_tells l s)
    as H.
  unfold set_of. change (fold_left set_add l [])
    with (fold_left (keep_found (@Some string)) l []).
  rewrite H. tauto.
Qed.

Lemma set_of_ordered (l : list string) :
  ordered_as (fun s => s) (set_of l) l.
Proof. exact (@keep_found_ordered string (@Some string) (fun s => s) Some_tells l). Qed.

(** Adding to a set what is not in it yet is appending. *)
Lemma fold_set_add_fresh (l acc : list string) :
  NoDup (acc ++ l) -> fold_left set_add l acc = acc ++ l.
Proof.
  revert acc. induction l as [|x l IH]; intros acc ND; simpl.
  - now rewrite List.app_nil_r.
  - assert (Hx : ~ In x acc).
    { intros Hx. apply NoDup_remove_2 in ND. apply ND.
      apply in_or_app. now left. }
    unfold set_add at 2. apply set_has_not_In in Hx. rewrite Hx.
    rewrite IH; rewrite <- List.app_assoc; [reflexivity | exact ND].
Qed.

Lemma set_of_fixed (l : list string) : NoDup l -> set_of l = l.
Proof. intros ND. unfold set_of. now rewrite fold_set_add_fresh. Qed.

(** Adding the hints element by element is adding them all in sequence. *)
Lemma fold_set_add_flat_map {A : Type} (f : A -> list string) (l : list A)
    (acc : list string) :
  fold_left (fun s a => fold_left set_add (f a) s) l acc
  = fold_left set_add (flat_map f l) acc.
Proof.
  revert acc. induction l as [|a l IH]; intros acc; simpl; [reflexivity|].
  now rewrite fold_left_app, IH.
Qed.

End SetLemmas.

(* ================================================================== *)
(** * The lexicon store: replace, read and load *)

Section Store.

Lemma trimmed_entries_fixed (x : list string) :
  Forall (fun s => trim s = s /\ s <> EmptyString) x ->
  trimmed_entries (map JStr x) = x.
Proof.
  induction 1 as [|s x [Ht Hs] _ IH]; [reflexivity|].
  change (trimmed_entries (map JStr (s :: x)))
    with (if truthy (Some (trim s))
          then trim s :: trimmed_entries (map JStr x)
          else trimmed_entries (map JStr x)).
  rewrite Ht, IH. destruct s; [congruence | reflexivity].
Qed.

Lemma clean_fixed (x : list string) :
  cleaned_set x -> clean (map JStr x) = x.
Proof.
  intros (_ & ND & Hx). unfold clean.
  rewrite trimmed_entries_fixed by exact Hx. now apply set_of_fixed.
Qed.

Lemma length_zero_false {A : Type} (l : list A) :
  l <> [] -> (List.length l =? 0) = false.
Proof. destruct l; [congruence | reflexivity]. Qed.

(** What [PUT /api/tech-stacks] does with an array that is not empty once
    cleaned. *)
Lemma put_accepts (req_body : option json) (incoming : list json)
    (srv : server) :
  property req_body "techStacks" = Some (JArr incoming) ->
  clean incoming <> [] ->
  put_tech_stacks req_body srv
  = (writeTechStacksToFile (map JStr (clean incoming))
       {| techStacks := map JStr (clean incoming); fs := fs srv;
          errors := errors srv |},
     res_json 200 (JObj [("techStacks", JArr (map JStr (clean incoming)))])).
Proof.
  intros Hreq Hne. unfold put_tech_stacks. rewrite Hreq.
  rewrite (length_zero_false _ Hne). cbn [techStacks].
  unfold writeTechStacksToFile, writeFileSync. cbn [fs techStacks].
  destruct (writable (fs srv)); reflexivity.
Qed.

End Store.

(** C8: replacing the lexicon and then reading it gives the cleaned payload
    back.  For every payload whose cleaned form [x] is not empty, the replace
    operation answers with [x], the read operation after it answers with [x],
    and when the file could be written a load at the next start gives [x];
    [x] has no duplicates, holds exactly the trimmed non-empty strings of the
    payload, in the order of their first occurrences; and a payload that is
    already a cleaned label set comes back exactly as it was sent. *)
Theorem C8_replace_then_read (srv : server) (incoming : list json) :
  clean incoming <> [] ->
  let req := Some (JObj [("techStacks", JArr incoming)]) in
  let x := clean incoming in
  let answer := res_json 200 (JObj [("techStacks", JArr (map JStr x))]) in
  snd (put_tech_stacks req srv) = answer
  /\ get_tech_stacks (fst (put_tech_stacks req srv)) = answer
  /\ (writable (fs srv) = true ->
      techStacks (start (fs (fst (put_tech_stacks req srv)))) = map JStr x)
  /\ NoDup x
  /\ (forall s, In s x <-> In s (trimmed_entries incoming))
  /\ ordered_as (fun s => s) x (trimmed_entries incoming)
  /\ (forall y, cleaned_set y -> incoming = map JStr y -> x = y).
Proof.
  intros Hne req x answer.
  assert (Hreq : property req "techStacks" = Some (JArr incoming)) by reflexivity.
  rewrite (@put_accepts req incoming srv Hreq Hne). cbn [fst snd].
  split; [reflexivity|]. split; [|split].
  - unfold writeTechStacksToFile, writeFileSync. cbn [fs techStacks errors].
    destruct (writable (fs srv)); reflexivity.
  - intros W. unfold writeTechStacksToFile, writeFileSync.
    cbn [fs techStacks errors]. rewrite W. reflexivity.
  - split; [apply set_of_NoDup|]. split; [apply set_of_In|].
    split; [apply set_of_ordered|].
    intros y Hy ->. now apply clean_fixed.
Qed.

Lemma C8_replace_then_read_witness :
  clean [JStr "React"; JStr " Vue.js "; JNull; JStr "React"] <> []
  /\ get_tech_stacks
       (fst (put_tech_stacks
               (Some (JObj [("techStacks",
                             JArr [JStr "React"; JStr " Vue.js "; JNull;
                                   JStr "React"])]))
               (start {| tech_stacks_json := None; writable := true |})))
     = res_json 200 (JObj [("techStacks", JArr [JStr "React"; JStr "Vue.js"])]).
Proof.
  assert (H : clean [JStr "React"; JStr " Vue.js "; JNull; JStr "React"] <> [])
    by (vm_compute; discriminate).
  split; [exact H|].
  exact (proj1 (proj2 (@C8_replace_then_read
                         (start {| tech_stacks_json := None; writable := true |})
                         [JStr "React"; JStr " Vue.js "; JNull; JStr "React"]
                         H))).
Defined.

(** C9, as the code has it: the load gives the built-in defaults when the
    file is missing, when its text does not parse, and when it parses to
    anything but an array; a persisted array is the lexicon as it is, the
    empty one included. *)
Theorem C9_load (disk : filesystem) :
  readTechStacksFromFile disk
  = match tech_stacks_json disk with
    | Some (Parses (JArr items)) => items
    | Some (Parses _) => DEFAULT_TECH_STACKS
    | Some Malformed => DEFAULT_TECH_STACKS
    | None => DEFAULT_TECH_STACKS
    end
  /\ techStacks (start disk) = readTechStacksFromFile disk.
Proof.
  split; [|reflexivity].
  unfold readTechStacksFromFile, readFileSync.
  destruct (tech_stacks_json disk) as [[|v]|]; try reflexivity.
  destruct v; reflexivity.
Qed.

(** C9, the claim as stated fails: the load of a persisted empty list is the
    empty lexicon, not the defaults. *)
Lemma C9_empty_list_counterexample :
  readTechStacksFromFile
    {| tech_stacks_json := Some (Parses (JArr [])); writable := true |}
  <> DEFAULT_TECH_STACKS.
Proof. vm_compute. discriminate. Qed.

(** C10: when the file cannot be written, the replace operation still
    answers 200 with the cleaned set, the lexicon in memory is the cleaned
    set, the file is as it was, and the only trace is one more line on the
    error console. *)
Theorem C10_persist_failure (req_body : option json) (incoming : list json)
    (srv : server) :
  property req_body "techStacks" = Some (JArr incoming) ->
  clean incoming <> [] ->
  writable (fs srv) = false ->
  put_tech_stacks req_body srv
  = ({| techStacks := map JStr (clean incoming);
        fs := fs srv;
        errors := errors srv
                  ++ ["Failed to persist tech stacks DB: EACCES: permission denied"] |},
     res_json 200 (JObj [("techStacks", JArr (map JStr (clean incoming)))])).
Proof.
  intros Hreq Hne W. rewrite (@put_accepts req_body incoming srv Hreq Hne).
  unfold writeTechStacksToFile, writeFileSync. cbn [fs techStacks errors].
  rewrite W. reflexivity.
Qed.

Lemma C10_persist_failure_witness :
  put_tech_stacks
    (Some (JObj [("techStacks", JArr [JStr " Go "; JStr "Rust"])]))
    {| techStacks := DEFAULT_TECH_STACKS;
       fs := {| tech_stacks_json := None; writable := false |};
       errors := [] |}
  = ({| techStacks := [JStr "Go"; JStr "Rust"];
        fs := {| tech_stacks_json := None; writable := false |};
        errors := ["Failed to persist tech stacks DB: EACCES: permission denied"] |},
     res_json 200 (JObj [("techStacks", JArr [JStr "Go"; JStr "Rust"])])).
Proof.
  refine (@C10_persist_failure
            (Some (JObj [("techStacks", JArr [JStr " Go "; JStr "Rust"])]))
            [JStr " Go "; JStr "Rust"]
            {| techStacks := DEFAULT_TECH_STACKS;
               fs := {| tech_stacks_json := None; writable := false |};
               errors := [] |} _ _ _).
  - reflexivity.
  - vm_compute. discriminate.
  - reflexivity.
Defined.

(* ================================================================== *)
(** * The title *)

(** C6, at the input where the code departs from the claim: a first [h1] of
    whitespace only is picked before it is trimmed, so the title is the
    placeholder although the [og:title] meta content is there. *)
Theorem C6_blank_h1_takes_placeholder :
  title_of
    (page [Element "meta" [("property", "og:title");
                           ("content", "Senior Engineer")] [];
           Element "title" [] [Text "Careers"]]
          [Element "h1" [] [Text "   "]])
  = "Untitled role".
Proof. vm_compute. reflexivity. Qed.

Lemma extractText_blank (v : maybe_string) :
  match v with Some s => trim s = EmptyString | None => True end ->
  extractText v = EmptyString.
Proof. destruct v as [[|c s]|]; simpl; auto. Qed.

Lemma pickFirst_blank (values : list maybe_string) :
  Forall (fun v => match v with
                   | Some s => trim s = EmptyString
                   | None => True
                   end) values ->
  extractText (pickFirst values) = EmptyString.
Proof.
  induction 1 as [|v values Hv _ IH]; [reflexivity|].
  cbn [pickFirst].
  destruct (truthy v && match v with
                        | Some s => 0 <? String.length s
                        | None => false
                        end); [now apply extractText_blank | exact IH].
Qed.

(** The title is the placeholder when every candidate is blank. *)
Lemma title_of_blank (doc : node) :
  trim (h1Title_of doc) = EmptyString ->
  match ogTitle_of doc with
  | Some s => trim s = EmptyString
  | None => True
  end ->
  trim (pageTitle_of doc) = EmptyString ->
  title_of doc = "Untitled role".
Proof.
  intros H1 Hog Ht. unfold title_of. rewrite pickFirst_blank; [reflexivity|].
  repeat constructor; assumption.
Qed.

(** The title is the trimmed [og:title] content once the [h1] is empty. *)
Example title_of_empty_h1 :
  title_of
    (page [Element "meta" [("property", "og:title");
                           ("content", " Senior Engineer ")] []]
          [Element "h1" [] []])
  = "Senior Engineer".
Proof. vm_compute. reflexivity. Qed.

(* ================================================================== *)
(** * The Node override *)

(** C4, at the inputs where the code departs from the claim: the test that
    selects the override accepts "Node" but not "Node.js", so the label
    "Node.js" is matched by the default pattern, and the bare words "Node"
    and "NodeJS" do not yield it. *)
Theorem C4_Node_js_label_misses_override :
  test true is_Node "Node" = true
  /\ test true is_Node "Node.js" = false
  /\ patternSource "Node" = Node_pattern
  /\ patternSource "Node.js" = default_pattern "Node.js"
  /\ collectKeywords [JStr "Node.js"] blank_page "We run Node in production" = []
  /\ collectKeywords [JStr "Node.js"] blank_page "We run NodeJS in production" = []
  /\ collectKeywords [JStr "Node"] blank_page "We run NodeJS in production"
     = ["Node"]
  /\ collectKeywords [JStr "Node.js"] blank_page "We run Node.js in production"
     = ["Node.js"].
Proof. vm_compute. repeat split. Qed.

(* ================================================================== *)
(** * The patterns of the source: what they match *)

Lemma str_match_nil (i : bool) (m : string) :
  str_match i EmptyString m = true -> m = EmptyString.
Proof. destruct m; [reflexivity | discriminate]. Qed.

Lemma str_match_cons (i : bool) (a : ascii) (w m : string) :
  str_match i (String a w) m = true ->
  exists b m', m = String b m' /\ char_eq i a b = true
               /\ str_match i w m' = true.
Proof.
  destruct m as [|b m']; [discriminate|]. simpl. intros H.
  apply andb_prop in H. destruct H. eauto.
Qed.

(** The characters of a text that matches a pattern text, one by one. *)
Ltac invert_str_match H :=
  match type of H with
  | str_match _ EmptyString ?m = true =>
      apply str_match_nil in H; subst m
  | str_match _ (String _ _) ?m = true =>
      apply str_match_cons in H;
      let b := fresh "c" in
      let m' := fresh "m" in
      let Hc := fresh "Hc" in
      destruct H as (b & m' & -> & Hc & H); invert_str_match H
  end.

Section PatternLemmas.

Lemma canonicalize_word (c : ascii) : is_word (canonicalize c) = is_word c.
Proof. ascii_cases c; reflexivity. Qed.

Lemma char_eq_word (a b : ascii) :
  char_eq true a b = true -> is_word b = is_word a.
Proof.
  unfold char_eq. intros H. apply Ascii.eqb_eq in H.
  rewrite <- (canonicalize_word a), <- (canonicalize_word b). now rewrite H.
Qed.

Lemma class_word (c : ascii) : class_match true false [CWord] c = is_word c.
Proof. ascii_cases c; vm_compute; reflexivity. Qed.

Lemma class_JS_excluded (c : ascii) :
  class_match true false
    [CWord; CChar "."; CChar "/"; CChar "'"; CChar "034"; CChar "-"] c
  = JS_excluded c.
Proof. ascii_cases c; vm_compute; reflexivity. Qed.

Lemma class_separator (c : ascii) :
  class_match true false [CChar "-"; CSpace] c = true
  <-> c = "-"%char \/ is_space c = true.
Proof.
  ascii_cases c; vm_compute; split; auto; intros [H|H]; discriminate.
Qed.

Lemma step_Alt (i : bool) (r1 r2 : regex) (st e : state) :
  In e (step i (Alt r1 r2) Forward st)
  <-> In e (step i r1 Forward st) \/ In e (step i r2 Forward st).
Proof. cbn [step]. apply in_app_iff. Qed.

Lemma step_Group (i : bool) (r : regex) (st e : state) :
  In e (step i (Group r) Forward st) <-> In e (step i r Forward st).
Proof. reflexivity. Qed.

Lemma repeat_done (m : state -> list state) (fuel min : nat) (x : state) :
  repeat_matcher m fuel min (Some 0) x = [x].
Proof. destruct fuel; reflexivity. Qed.

Lemma repeat_optional (m : state -> list state) (fuel : nat) (x : state) :
  repeat_matcher m (S fuel) 0 (Some 1) x
  = flat_map (fun y => if same_position y x then [] else [y]) (m x) ++ [x].
Proof.
  cbn [repeat_matcher Nat.eqb andb Nat.pred option_map]. f_equal.
  apply flat_map_ext. intros y. now rewrite repeat_done.
Qed.

(** An optional single character of a class. *)
Lemma step_Opt_Class (i n : bool) (atoms : list class_atom) (l r : string)
    (e : state) :
  In e (step i (Opt (Class n atoms)) Forward (l, r))
  <-> e = (l, r)
      \/ exists ch r', r = String ch r' /\ class_match i n atoms ch = true
                       /\ e = (String ch l, r').
Proof.
  unfold Opt. cbn [step remaining snd Nat.add]. destruct r as [|ch r'].
  - cbn [String.length repeat_matcher]. split.
    + intros [<-|[]]. now left.
    + intros [->|(? & ? & ? & _)]; [now left | discriminate].
  - cbn [String.length]. rewrite repeat_optional, in_app_iff, in_flat_map.
    split.
    + intros [(y & Hy & He)|[<-|[]]]; [|now left].
      apply step_Class in Hy. destruct Hy as (ch' & r'' & E & C & ->).
      destruct (same_position (String ch' l, r'') (l, String ch r'));
        [destruct He|]. destruct He as [<-|[]]. right. eauto.
    + intros [->|(ch' & r'' & E & C & ->)]; [right; now left|].
      left. exists (String ch' l, r''). split.
      * apply step_Class. eauto.
      * unfold same_position. cbn [fst String.length].
        replace (S (String.length l) =? String.length l) with false
          by (symmetry; apply Nat.eqb_neq; lia).
        now left.
Qed.

(** A negative lookbehind, and a negative lookahead, of one character of a
    class. *)
Lemma step_not_behind_Class (i n : bool) (atoms : list class_atom)
    (st e : state) :
  In e (step i (LookBehind true (Class n atoms)) Forward st)
  <-> first_is (class_match i n atoms) (fst st) = false /\ e = st.
Proof.
  destruct st as [[|c l] r]; cbn [step read fst first_is].
  - rewrite in_one. tauto.
  - destruct (class_match i n atoms c); simpl; split;
      try tauto; try (intros [H _]; discriminate);
      try (intros [<-|[]]; auto); intros [_ ->]; now left.
Qed.

Lemma step_not_ahead_Class (i n : bool) (atoms : list class_atom)
    (st e : state) :
  In e (step i (LookAhead true (Class n atoms)) Forward st)
  <-> first_is (class_match i n atoms) (snd st) = false /\ e = st.
Proof.
  destruct st as [l [|c r]]; cbn [step read snd first_is].
  - rewrite in_one. tauto.
  - destruct (class_match i n atoms c); simpl; split;
      try tauto; try (intros [H _]; discriminate);
      try (intros [<-|[]]; auto); intros [_ ->]; now left.
Qed.

Lemma first_is_ext (f g : ascii -> bool) (s : string) :
  (forall c, f c = g c) -> first_is f s = first_is g s.
Proof. intros H. destruct s; simpl; auto. Qed.

Lemma xorb_true_r_false (a : bool) : xorb a true = true <-> a = false.
Proof. destruct a; simpl; split; congruence. Qed.

Lemma xorb_true_l_false (a : bool) : xorb true a = true <-> a = false.
Proof. destruct a; simpl; split; congruence. Qed.

Lemma word_before_eq (l r : string) :
  word_before (l, r) = first_is is_word l.
Proof. reflexivity. Qed.

Lemma word_after_eq (l r : string) :
  word_after (l, r) = first_is is_word r.
Proof. reflexivity. Qed.

Lemma str_match_first (f : ascii -> bool) (w m t : string) :
  str_match true w m = true -> w <> EmptyString ->
  first_is f (m +++ t) = first_is f m.
Proof. destruct w, m; simpl; try discriminate; congruence. Qed.

Lemma str_match_first_word (w m : string) :
  str_match true w m = true -> first_is is_word m = first_is is_word w.
Proof.
  destruct w, m; simpl; try discriminate; [reflexivity|].
  intros H. apply andb_prop in H. destruct H as [H _]. now apply char_eq_word.
Qed.

Lemma str_match_last_word (w m : string) :
  str_match true w m = true ->
  forall la lb,
    first_is is_word la = first_is is_word lb ->
    first_is is_word (revapp m la) = first_is is_word (revapp w lb).
Proof.
  revert m. induction w as [|a w IH]; intros [|b m] H la lb E;
    try discriminate; simpl; [exact E|].
  simpl in H. apply andb_prop in H. destruct H as [Hc H].
  apply IH; [exact H|]. simpl. now apply char_eq_word.
Qed.

(** A pattern text between two word boundaries, when the text starts and
    ends with a word character: no word character comes right before the
    match or right after it. *)
Lemma step_bounded_word (w : string) (l s : string) (e : state) :
  first_is is_word w = true -> last_is is_word w = true ->
  In e (step true (Seq WordB (Seq (lit w) WordB)) Forward (l, s))
  <-> exists m r', s = m +++ r' /\ str_match true w m = true
                   /\ first_is is_word l = false /\ first_is is_word r' = false
                   /\ e = (revapp m l, r').
Proof.
  intros Hfirst Hlast.
  assert (Hne : w <> EmptyString) by (destruct w; [discriminate | congruence]).
  assert (Hend : forall m la, str_match true w m = true ->
                   first_is is_word (revapp m la) = true).
  { intros m la Hm. destruct w as [|a w]; [congruence|].
    destruct m as [|b m]; [discriminate|].
    simpl in Hm. apply andb_prop in Hm. destruct Hm as [Hc Hm].
    simpl. rewrite (str_match_last_word _ _ Hm (String b la)
                      (String a EmptyString)).
    - exact Hlast.
    - simpl. now apply char_eq_word. }
  assert (Hstart : forall m r', str_match true w m = true ->
                     first_is is_word (m +++ r') = true).
  { intros m r' Hm. rewrite (str_match_first is_word w m r' Hm Hne).
    now rewrite (str_match_first_word w m Hm). }
  rewrite step_Seq. split.
  - intros (y & Hy & He). apply step_WordB in Hy. destruct Hy as [Hb ->].
    apply step_Seq in He. destruct He as (z & Hz & He).
    apply step_lit in Hz. destruct Hz as (m & r' & -> & Hm & ->).
    apply step_WordB in He. destruct He as [Hb' ->].
    exists m, r'. split; [reflexivity|]. split; [exact Hm|].
    rewrite word_before_eq, word_after_eq in Hb, Hb'.
    rewrite (Hstart m r' Hm) in Hb. rewrite (Hend m l Hm) in Hb'.
    apply xorb_true_r_false in Hb. apply xorb_true_l_false in Hb'. auto.
  - intros (m & r' & -> & Hm & Hl & Hr & ->).
    exists (l, m +++ r'). split.
    + apply step_WordB. split; [|reflexivity].
      rewrite word_before_eq, word_after_eq, (Hstart m r' Hm), Hl. reflexivity.
    + apply step_Seq. exists (revapp m l, r'). split.
      * apply step_lit. eauto.
      * apply step_WordB. split; [|reflexivity].
        rewrite word_before_eq, word_after_eq, (Hend m l Hm), Hr. reflexivity.
Qed.

(** [/\bremote\b/i] finds exactly the whole-word occurrences of "remote". *)
Lemma hasPositiveRemote_iff (blob : string) :
  hasPositiveRemote blob = true <-> whole_word "remote" blob.
Proof.
  unfold hasPositiveRemote, positive_remote, whole_word.
  rewrite test_true_iff. cbn [seqs]. split.
  - intros (p & s & e & -> & H).
    apply step_bounded_word in H; [|reflexivity|reflexivity].
    destruct H as (m & r' & -> & Hm & Hl & Hr & _).
    exists p, m, r'. auto.
  - intros (p & m & s & -> & Hm & Hl & Hr).
    exists p, (m +++ s), (revapp m (rev p), s). split; [reflexivity|].
    apply step_bounded_word; [reflexivity|reflexivity|].
    exists m, s. auto.
Qed.

(** The negators of [/\b(?:no|not|non)[-\s]?remote\b/i]. *)
Lemma step_negator (l s : string) (e : state) :
  In e (step true (Group (Alt (lit "no") (Alt (lit "not") (lit "non"))))
          Forward (l, s))
  <-> exists n s1, s = n +++ s1
                   /\ (str_match true "no" n = true
                       \/ str_match true "not" n = true
                       \/ str_match true "non" n = true)
                   /\ e = (revapp n l, s1).
Proof.
  rewrite step_Group, !step_Alt, !step_lit. split.
  - intros [H|[H|H]]; destruct H as (n & s1 & -> & Hn & ->);
      exists n, s1; auto.
  - intros (n & s1 & -> & [Hn|[Hn|Hn]] & ->);
      [left | right; left | right; right]; exists n, s1; auto.
Qed.

Lemma negator_word (n : string) :
  str_match true "no" n = true \/ str_match true "not" n = true
  \/ str_match true "non" n = true ->
  n <> EmptyString /\ first_is is_word n = true.
Proof.
  intros [H|[H|H]]; (split; [destruct n; [discriminate | congruence]|]);
    now rewrite (str_match_first_word _ _ H).
Qed.

(** [/\b(?:no|not|non)[-\s]?remote\b/i] finds exactly the negated
    occurrences of "remote". *)
Lemma hasNegativeRemote_iff (blob : string) :
  hasNegativeRemote blob = true <-> negated_remote blob.
Proof.
  unfold hasNegativeRemote, negative_remote, negated_remote.
  rewrite test_true_iff. cbn [seqs].
  assert (Hend : forall m la, str_match true "remote" m = true ->
                   first_is is_word (revapp m la) = true).
  { intros m la Hm. invert_str_match Hm. simpl.
    now rewrite (char_eq_word _ _ Hc4). }
  split.
  - intros (p & s & e & -> & H).
    apply step_Seq in H. destruct H as (y & Hy & H).
    apply step_WordB in Hy. destruct Hy as [Hb ->].
    apply step_Seq in H. destruct H as (y & Hy & H).
    apply step_negator in Hy. destruct Hy as (n & s1 & -> & Hn & ->).
    apply step_Seq in H. destruct H as (y & Hy & H).
    apply step_Seq in H. destruct H as (z & Hz & H).
    apply step_WordB in H. destruct H as [Hb' ->].
    destruct (negator_word n Hn) as [Hne Hw].
    rewrite word_before_eq, word_after_eq in Hb.
    assert (Hp : last_is is_word p = false).
    { destruct n as [|c n]; [congruence|]. simpl in Hb, Hw.
      rewrite Hw in Hb. now apply xorb_true_r_false in Hb. }
    apply step_Opt_Class in Hy.
    destruct Hy as [->|(ch & r' & -> & Hch & ->)].
    + apply step_lit in Hz. destruct Hz as (m & r' & -> & Hm & ->).
      rewrite word_before_eq, word_after_eq, (Hend m _ Hm) in Hb'.
      apply xorb_true_l_false in Hb'.
      exists p, n, EmptyString, m, r'. repeat split; auto. now left.
    + apply step_lit in Hz. destruct Hz as (m & r'' & -> & Hm & ->).
      rewrite word_before_eq, word_after_eq, (Hend m _ Hm) in Hb'.
      apply xorb_true_l_false in Hb'.
      exists p, n, (String ch EmptyString), m, r''. repeat split; auto.
      right. exists ch. split; [reflexivity|]. now apply class_separator.
  - intros (p & n & sep & m & s & -> & Hn & Hsep & Hm & Hp & Hs).
    destruct (negator_word n Hn) as [Hne Hw].
    exists p, (n +++ sep +++ m +++ s).
    exists (revapp m (revapp sep (revapp n (rev p))), s).
    split; [reflexivity|].
    apply step_Seq. exists (rev p, n +++ sep +++ m +++ s). split.
    { apply step_WordB. split; [|reflexivity].
      rewrite word_before_eq, word_after_eq.
      destruct n as [|c n]; [congruence|]. simpl in Hw |- *.
      unfold last_is in Hp. now rewrite Hw, Hp. }
    apply step_Seq. exists (revapp n (rev p), sep +++ m +++ s). split.
    { apply step_negator. exists n, (sep +++ m +++ s). auto. }
    apply step_Seq. exists (revapp sep (revapp n (rev p)), m +++ s). split.
    { apply step_Opt_Class. destruct Hsep as [->|(ch & -> & Hch)].
      - now left.
      - right. exists ch, (m +++ s). split; [reflexivity|].
        split; [now apply class_separator | reflexivity]. }
    apply step_Seq. exists (revapp m (revapp sep (revapp n (rev p))), s).
    split.
    { apply step_lit. exists m, s. auto. }
    apply step_WordB. split; [|reflexivity].
    now rewrite word_before_eq, word_after_eq, (Hend m _ Hm), Hs.
Qed.

(** The bare-JS alternative finds exactly the occurrences of "JS", up to
    case, with no excluded character right before and no word character
    right after. *)
Lemma bare_JS_iff (blob : string) :
  test true bare_JS blob = true
  <-> exists p m s,
        blob = p +++ m +++ s /\ str_match true "JS" m = true
        /\ last_is JS_excluded p = false /\ first_is is_word s = false.
Proof.
  unfold bare_JS. rewrite test_true_iff. cbn [seqs]. split.
  - intros (p & s & e & -> & H).
    apply step_Seq in H. destruct H as (y & Hy & H).
    apply step_not_behind_Class in Hy. destruct Hy as [Hb ->].
    apply step_Seq in H. destruct H as (y & Hy & H).
    apply step_lit in Hy. destruct Hy as (m & r' & -> & Hm & ->).
    apply step_not_ahead_Class in H. destruct H as [Ha ->].
    exists p, m, r'. repeat split; auto.
    + unfold last_is. cbn [fst] in Hb.
      now rewrite <- (first_is_ext _ _ (rev p) class_JS_excluded).
    + cbn [snd] in Ha.
      now rewrite <- (first_is_ext _ _ r' class_word).
  - intros (p & m & s & -> & Hm & Hp & Hs).
    exists p, (m +++ s), (revapp m (rev p), s). split; [reflexivity|].
    apply step_Seq. exists (rev p, m +++ s). split.
    { apply step_not_behind_Class. split; [|reflexivity]. cbn [fst].
      now rewrite (first_is_ext _ _ (rev p) class_JS_excluded). }
    apply step_Seq. exists (revapp m (rev p), s). split.
    { apply step_lit. exists m, s. auto. }
    apply step_not_ahead_Class. split; [|reflexivity]. cbn [snd].
    now rewrite (first_is_ext _ _ s class_word).
Qed.

End PatternLemmas.

(* ================================================================== *)
(** * The location classifier *)

Lemma not_remote_is_not_Remote (hints : list string) :
  not_remote hints <> "Remote".
Proof. unfold not_remote. destruct (0 <? List.length hints); discriminate. Qed.

(** C3: the classifier answers "Remote" exactly when the text has a
    whole-word occurrence of "remote", up to case, and no occurrence of the
    negation pattern (a whole-word "no", "not" or "non", then nothing, a
    hyphen or one whitespace character, then "remote" ending on a word
    boundary); any other text is classified as not remote, and so is every
    text that contains "This is a non-remote role".  The handler applies the
    classifier to the text it gathers from the document. *)
Theorem C3_remote_classification (blob : string) (hints : list string) :
  (classify blob hints = "Remote"
   <-> whole_word "remote" blob /\ ~ negated_remote blob)
  /\ (classify blob hints = "Remote" \/ classify blob hints = not_remote hints)
  /\ (forall p s : string,
        classify (p +++ "This is a non-remote role" +++ s) hints
        = not_remote hints)
  /\ (forall doc : node,
        location_of doc
        = classify (textForRemoteScan doc) (extractLocationHints doc)).
Proof.
  assert (Hcases : forall b,
            classify b hints
            = if hasPositiveRemote b && negb (hasNegativeRemote b)
              then "Remote" else not_remote hints) by reflexivity.
  split; [|split; [|split]].
  - rewrite Hcases, <- hasPositiveRemote_iff, <- hasNegativeRemote_iff.
    pose proof (not_remote_is_not_Remote hints) as Hnot.
    destruct (hasPositiveRemote blob), (hasNegativeRemote blob); simpl; split.
    + intros H. now exfalso.
    + intros [_ H]. exfalso. now apply H.
    + intros _. split; [reflexivity | discriminate].
    + reflexivity.
    + intros H. now exfalso.
    + intros [H _]. discriminate.
    + intros H. now exfalso.
    + intros [H _]. discriminate.
  - rewrite Hcases.
    destruct (hasPositiveRemote blob && negb (hasNegativeRemote blob)); auto.
  - intros p s. rewrite Hcases.
    assert (Hneg : hasNegativeRemote (p +++ "This is a non-remote role" +++ s)
                   = true).
    { apply hasNegativeRemote_iff.
      exists (p +++ "This is a "), "non", "-", "remote", (" role" +++ s).
      split; [now rewrite sapp_assoc|].
      split; [right; right; reflexivity|].
      split; [right; exists "-"%char; auto|].
      split; [reflexivity|]. split; [|reflexivity].
      unfold last_is. now rewrite srev_app. }
    rewrite Hneg, andb_false_r. reflexivity.
  - reflexivity.
Qed.

(* ================================================================== *)
(** * The bare-JS alternative *)

(** The ways to cut a given text after a prefix [p], one by one. *)
Ltac enumerate_prefix E p :=
  destruct p as [|? p]; simpl in E;
  [ | try (injection E as <- E; enumerate_prefix E p) ].

(** C5, as the code has it: the bare-JS alternative matches exactly where
    "JS", up to case, stands with no word character, dot, slash, quote or
    hyphen right before it and no word character right after it; so a text
    where every "JS" has a dot or a slash right before it has no match of
    this alternative. *)
Theorem C5_bare_JS (blob : string) :
  (test true bare_JS blob = true
   <-> exists p m s,
         blob = p +++ m +++ s /\ str_match true "JS" m = true
         /\ last_is JS_excluded p = false /\ first_is is_word s = false)
  /\ (every_JS_after_dot_or_slash blob -> test true bare_JS blob = false).
Proof.
  split; [apply bare_JS_iff|].
  intros Hall. destruct (test true bare_JS blob) eqn:T; [|reflexivity].
  apply bare_JS_iff in T. destruct T as (p & m & s & E & Hm & Hp & _).
  specialize (Hall p m s E Hm). exfalso.
  unfold last_is in *. destruct (rev p) as [|c l]; [discriminate|].
  simpl in Hall, Hp. unfold JS_excluded in Hp.
  apply orb_false_elim in Hp. destruct Hp as [_ Hp]. simpl in Hp.
  apply orb_prop in Hall. destruct Hall as [H|H]; rewrite H in Hp;
    simpl in Hp; try discriminate.
  now rewrite orb_true_r in Hp.
Qed.

Lemma every_JS_in_app_js : every_JS_after_dot_or_slash "app.js".
Proof.
  intros p m s E Hm. invert_str_match Hm.
  enumerate_prefix E p.
  all: try discriminate E.
  all: try (injection E as <- E); try discriminate E.
  all: try (injection E as <- E); try discriminate E.
  all: try (vm_compute in Hc; discriminate Hc).
  all: try (vm_compute in Hc0; discriminate Hc0).
  reflexivity.
Qed.

Lemma C5_bare_JS_witness :
  every_JS_after_dot_or_slash "app.js" /\ test true bare_JS "app.js" = false.
Proof.
  split; [exact every_JS_in_app_js|].
  exact (proj2 (C5_bare_JS "app.js") every_JS_in_app_js).
Defined.

(** C5, the claim as stated fails: in "JS." the only occurrence of "JS" has
    a dot right after it, and the bare-JS alternative matches it. *)
Lemma C5_followed_by_dot_counterexample :
  ~ (every_JS_before_dot_or_slash "JS." -> test true bare_JS "JS." = false).
Proof.
  intros H. assert (Hall : every_JS_before_dot_or_slash "JS.").
  { intros p m s E Hm. invert_str_match Hm.
    enumerate_prefix E p.
    all: try discriminate E.
    all: try (injection E as <- E); try discriminate E.
    all: try (injection E as <- E); try discriminate E.
    all: try (vm_compute in Hc; discriminate Hc).
    all: try (vm_compute in Hc0; discriminate Hc0).
    subst s. exists "."%char, EmptyString. auto. }
  specialize (H Hall). vm_compute in H. discriminate.
Qed.

(** The whole matcher on that text: the label is found. *)
Example JS_before_dot_is_found :
  collectKeywords [JStr "JavaScript"] blank_page "We use JS." = ["JavaScript"].
Proof. vm_compute. reflexivity. Qed.

(* ================================================================== *)
(** * The tech-stack matcher *)

Section Matcher.

Lemma label_found_tells (rawText : string) (label : json) (s : string) :
  label_found rawText label = Some s -> label = JStr s.
Proof.
  destruct label; simpl; try discriminate.
  destruct (is_empty s0); [discriminate|].
  destruct (is_empty (trim s0)); [discriminate|].
  destruct (test true (patternSource (trim s0)) rawText); [|discriminate].
  intros H. now injection H as ->.
Qed.

Lemma trim_empty_of_empty (s : string) :
  is_empty s = true -> is_empty (trim s) = true.
Proof. destruct s; [reflexivity | discriminate]. Qed.

(** A label is found when it is not empty once trimmed and the pattern of
    the trimmed label matches; what is kept is the label as it is. *)
Lemma label_found_iff (rawText s : string) :
  label_found rawText (JStr s) = Some s
  <-> is_empty (trim s) = false
      /\ test true (patternSource (trim s)) rawText = true.
Proof.
  simpl. destruct (is_empty s) eqn:E.
  - rewrite (trim_empty_of_empty s E). split; [discriminate | intros [H _]; discriminate].
  - destruct (is_empty (trim s)).
    + split; [discriminate | intros [H _]; discriminate].
    + destruct (test true (patternSource (trim s)) rawText); split;
        auto; try discriminate. intros [_ H]. discriminate.
Qed.



Lemma structured_keywords_none (doc : node) :
  no_structured_keywords doc -> structured_keywords doc = [].
Proof. intros [H1 H2]. unfold structured_keywords. now rewrite H1, H2. Qed.

Lemma collectKeywords_plain (lexicon : list json) (doc : node)
    (pageText : string) :
  no_structured_keywords doc ->
  collectKeywords lexicon doc pageText
  = fold_left (keep_found (label_found (rawText_of doc pageText))) lexicon [].
Proof.
  intros H. unfold collectKeywords. now rewrite (structured_keywords_none doc H).
Qed.

Lemma collectKeywords_In (lexicon : list json) (doc : node)
    (pageText s : string) :
  no_structured_keywords doc ->
  In s (collectKeywords lexicon doc pageText)
  <-> In (JStr s) lexicon
      /\ label_found (rawText_of doc pageText) (JStr s) = Some s.
Proof.
  intros H. rewrite (collectKeywords_plain lexicon doc pageText H).
  apply keep_found_In. apply label_found_tells.
Qed.

Lemma blank_page_plain : no_structured_keywords blank_page.
Proof. split; reflexivity. Qed.

Lemma rawText_of_blank_page (c : ascii) (t : string) :
  rawText_of blank_page (String c t) = String c t +++ String "010" EmptyString.
Proof. reflexivity. Qed.

End Matcher.

(** C2: without structured keywords in the document, what the matcher
    returns for a lexicon and a text holds only labels of the lexicon, has
    no duplicates, and lists the labels in the order of their first
    occurrences in the lexicon; a label is in the result exactly when it is
    in the lexicon, is not empty once trimmed, and the pattern of the trimmed
    label matches the text: the label of the lexicon is kept as it is, not a
    part of the text. *)
Theorem C2_matcher_returns_labels_in_order (lexicon : list json) (doc : node)
    (pageText : string) :
  no_structured_keywords doc ->
  let found := collectKeywords lexicon doc pageText in
  (forall s, In s found -> In (JStr s) lexicon)
  /\ NoDup found
  /\ ordered_as JStr found lexicon
  /\ (forall s,
        In s found
        <-> In (JStr s) lexicon
            /\ is_empty (trim s) = false
            /\ test true (patternSource (trim s)) (rawText_of doc pageText)
               = true).
Proof.
  intros H found. subst found.
  split; [|split; [|split]].
  - intros s Hs. now apply (collectKeywords_In lexicon doc pageText s H) in Hs.
  - rewrite (collectKeywords_plain lexicon doc pageText H).
    apply (keep_found_NoDup _ _ JStr), label_found_tells.
  - rewrite (collectKeywords_plain lexicon doc pageText H).
    apply keep_found_ordered, label_found_tells.
  - intros s. rewrite (collectKeywords_In lexicon doc pageText s H).
    now rewrite label_found_iff.
Qed.

Lemma C2_matcher_returns_labels_in_order_witness :
  no_structured_keywords blank_page
  /\ NoDup (collectKeywords
              [JStr "Java"; JStr "React"; JStr "Java"; JNull; JStr "Go"]
              blank_page "React with a Java backend").
Proof.
  split; [exact blank_page_plain|].
  exact (proj1 (proj2 (C2_matcher_returns_labels_in_order
                         [JStr "Java"; JStr "React"; JStr "Java"; JNull;
                          JStr "Go"]
                         blank_page "React with a Java backend"
                         blank_page_plain))).
Defined.

Example matcher_keeps_lexicon_order :
  collectKeywords [JStr "Java"; JStr "React"; JStr "Java"; JNull; JStr "Go"]
    blank_page "React with a Java backend"
  = ["Java"; "React"].
Proof. vm_compute. reflexivity. Qed.

(** The end-to-end scenario of the specification. *)
Example matcher_scenario :
  collectKeywords [JStr "React"; JStr "JavaScript"] blank_page
    "We use React.js and plain JavaScript here, not text/javascript comments."
  = ["React"; "JavaScript"].
Proof. vm_compute. reflexivity. Qed.

(** The React cases of the specification. *)
Example React_variants :
  collectKeywords [JStr "React"] blank_page "We like ReactJS" = ["React"]
  /\ collectKeywords [JStr "React"] blank_page "We like React.js" = ["React"]
  /\ collectKeywords [JStr "React"] blank_page "We like React" = ["React"]
  /\ collectKeywords [JStr "React"] blank_page "Reactor pattern" = [].
Proof. vm_compute. repeat split. Qed.

(** A label with syntax characters: escaped, it is matched literally, and
    the word boundary after a "+" asks for a word character next. *)
Example escaped_label :
  escapeRegex "C++" = "C\+\+"
  /\ collectKeywords [JStr "C++"; JStr "Next.js"] blank_page
       "C/C++/JavaScript with Next.js or NextXjs"
     = ["Next.js"]
  /\ collectKeywords [JStr "C++"] blank_page "C++11" = ["C++"].
Proof. vm_compute. repeat split. Qed.

(** The cases of the reproduction script of the repository, and the browser
    warning the override leaves out. *)
Example JavaScript_in_a_list_and_in_a_warning :
  collectKeywords [JStr "JavaScript"] blank_page
    "Requirements: C/C++/JavaScript" = ["JavaScript"]
  /\ collectKeywords [JStr "JavaScript"] blank_page
       "Please enable JavaScript to continue" = [].
Proof. vm_compute. repeat split. Qed.

(* ================================================================== *)
(** * The JavaScript override *)

(** The word alternative matches "JavaScript" after "know " and before a
    full stop, whatever comes before and after. *)
Lemma JavaScript_word_after_know (l t : string) :
  step true JavaScript_word Forward
    (String " " (String "w" l), "JavaScript." +++ t)
  = [(revapp "JavaScript" (String " " (String "w" l)), "." +++ t)].
Proof. vm_compute. reflexivity. Qed.

Lemma JavaScript_label : patternSource (trim "JavaScript") = JavaScript_pattern.
Proof. vm_compute. reflexivity. Qed.

(** C1: with the label "JavaScript" in the lexicon, the matcher run on the
    text "text/javascript", or on "application/javascript", does not return
    "JavaScript"; run on any text that contains "Must know JavaScript." it
    returns it; and run on "NestJS" it does not return it, the bare-JS
    alternative having no match there. *)
Theorem C1_JavaScript_cases (lexicon : list json) :
  In (JStr "JavaScript") lexicon ->
  ~ In "JavaScript" (collectKeywords lexicon blank_page "text/javascript")
  /\ ~ In "JavaScript"
         (collectKeywords lexicon blank_page "application/javascript")
  /\ (forall p s : string,
        In "JavaScript"
          (collectKeywords lexicon blank_page
             (p +++ "Must know JavaScript." +++ s)))
  /\ ~ In "JavaScript" (collectKeywords lexicon blank_page "NestJS")
  /\ test true bare_JS (rawText_of blank_page "NestJS") = false.
Proof.
  intros Hin.
  assert (Hno : forall text : string,
            label_found (rawText_of blank_page text) (JStr "JavaScript") = None ->
            ~ In "JavaScript" (collectKeywords lexicon blank_page text)).
  { intros text Hnone Hfound.
    apply (collectKeywords_In lexicon blank_page text "JavaScript"
             blank_page_plain) in Hfound.
    destruct Hfound as [_ Hfound]. congruence. }
  split; [apply Hno; vm_compute; reflexivity|].
  split; [apply Hno; vm_compute; reflexivity|].
  split; [|split; [apply Hno; vm_compute; reflexivity
                  | vm_compute; reflexivity]].
  intros p s.
  apply (collectKeywords_In lexicon blank_page _ "JavaScript" blank_page_plain).
  split; [exact Hin|]. apply label_found_iff.
  split; [vm_compute; reflexivity|]. rewrite JavaScript_label.
  assert (Hraw : rawText_of blank_page (p +++ "Must know JavaScript." +++ s)
                 = (p +++ "Must know ")
                   +++ "JavaScript." +++ s +++ String "010" EmptyString).
  { destruct p as [|c p].
    - simpl. rewrite rawText_of_blank_page. reflexivity.
    - simpl. rewrite rawText_of_blank_page. simpl. f_equal.
      now rewrite !sapp_assoc. }
  rewrite Hraw. apply test_true_iff.
  exists (p +++ "Must know "),
         ("JavaScript." +++ s +++ String "010" EmptyString).
  eexists. split; [reflexivity|].
  unfold JavaScript_pattern. apply step_Alt. left.
  rewrite srev_app.
  change (rev "Must know " +++ rev p)
    with (String " " (String "w" ("onk tsuM" +++ rev p))).
  rewrite JavaScript_word_after_know. now left.
Qed.

Lemma C1_JavaScript_cases_witness :
  In (JStr "JavaScript") DEFAULT_TECH_STACKS
  /\ ~ In "JavaScript"
         (collectKeywords DEFAULT_TECH_STACKS blank_page "text/javascript").
Proof.
  assert (H : In (JStr "JavaScript") DEFAULT_TECH_STACKS)
    by (simpl; tauto).
  split; [exact H|].
  exact (proj1 (C1_JavaScript_cases DEFAULT_TECH_STACKS H)).
Defined.

(* ================================================================== *)
(** * The document: lemmas *)

Section DomLemmas.

Lemma node_induction (P : node -> Prop) :
  (forall data, P (Text data)) ->
  (forall data, P (Comment data)) ->
  (forall name attribs children,
      Forall P children -> P (Element name attribs children)) ->
  forall n, P n.
Proof.
  intros HText HComment HElement.
  fix IH 1. intros [data|data|name attribs children].
  - apply HText.
  - apply HComment.
  - apply HElement. induction children as [|c children IHc].
    + constructor.
    + constructor; [apply IH | exact IHc].
Qed.

Lemma text_Element (name : string) (attribs : list (string * string))
    (children : list node) :
  Dom.text (Element name attribs children)
  = fold_right (fun c acc => Dom.text c +++ acc) EmptyString children.
Proof.
  simpl. induction children as [|c children IH]; [reflexivity|].
  simpl. now rewrite IH.
Qed.

Lemma elements_Element (name : string) (attribs : list (string * string))
    (children : list node) :
  elements (Element name attribs children)
  = Element name attribs children :: flat_map elements children.
Proof.
  reflexivity.
Qed.

Lemma child_text_substring (c : node) (children : list node) :
  In c children ->
  substring_of (Dom.text c)
    (fold_right (fun c acc => Dom.text c +++ acc) EmptyString children).
Proof.
  induction children as [|d children IH]; [intros []|].
  intros [<-|H]; simpl.
  - exists EmptyString. eexists. reflexivity.
  - destruct (IH H) as (p & s & E). rewrite E.
    exists (Dom.text d +++ p), s. now rewrite sapp_assoc.
Qed.

(** The text of an element of a document is a part of the text of the
    document. *)
Lemma element_text_substring (n e : node) :
  In e (elements n) -> substring_of (Dom.text e) (Dom.text n).
Proof.
  revert e. induction n as [data|data|name attribs children IH]
    using node_induction; intros e H.
  - destruct H.
  - destruct H.
  - rewrite elements_Element in H. destruct H as [<-|H].
    + apply substring_of_refl.
    + apply in_flat_map in H. destruct H as (c & Hc & He).
      rewrite Forall_forall in IH.
      eapply substring_of_trans; [apply (IH c Hc e He)|].
      rewrite text_Element. now apply child_text_substring.
Qed.

Lemma selected_text_substring (doc e : node) (sel : selector) :
  In e (select doc sel) -> substring_of (Dom.text e) (Dom.text doc).
Proof.
  unfold select. intros H. apply filter_In in H.
  apply element_text_substring, H.
Qed.

End DomLemmas.

(* ================================================================== *)
(** * Location hints: lemmas *)

Section HintLemmas.

Lemma consumed_unique (st e : state) (m m' : string) :
  consumed st e m -> consumed st e m' -> m = m'.
Proof.
  intros [H1 _] [H2 _]. rewrite H1 in H2.
  apply app_inv_tail_length in H2; [tauto|].
  apply (f_equal String.length) in H2. rewrite !slength_app in H2. lia.
Qed.

Lemma consumed_start (l r : string) (e : state) (m : string) :
  consumed (l, r) e m -> e = (revapp m l, snd e) /\ r = m +++ snd e.
Proof. destruct e as [el er]. intros [H1 H2]. simpl in *. now subst. Qed.

Lemma step_Class_consumed (atoms : list class_atom) (x y : state) :
  In y (step false (Class false atoms) Forward x) ->
  exists w, consumed x y w /\ one_of atoms w.
Proof.
  destruct x as [l r]. intros H. apply step_Class in H.
  destruct H as (ch & r' & -> & C & ->).
  exists (String ch EmptyString). split; [now split | now exists ch].
Qed.

(** A quantified class consumes a run of characters of the class, at least
    as many as the lower bound. *)
Lemma step_Quant_Class (min : nat) (max : option nat)
    (atoms : list class_atom) (st e : state) :
  bounded min max ->
  In e (step false (Quant min max (Class false atoms)) Forward st) ->
  exists ws, consumed st e (String.concat EmptyString ws)
             /\ Forall (one_of atoms) ws /\ min <= List.length ws.
Proof.
  intros B H. cbn [step] in H.
  apply (repeat_consumed (one_of atoms)) in H.
  - destruct H as (ws & H1 & H2 & H3). eauto.
  - apply step_Class_consumed.
Qed.

Lemma concat_app (a b : list string) :
  String.concat EmptyString (a ++ b)
  = String.concat EmptyString a +++ String.concat EmptyString b.
Proof.
  induction a as [|w a IH]; [reflexivity|].
  change ((w :: a) ++ b) with (w :: a ++ b).
  now rewrite !concat_cons, IH, sapp_assoc.
Qed.

Lemma concat_length (atoms : list class_atom) (ws : list string) :
  Forall (one_of atoms) ws ->
  String.length (String.concat EmptyString ws) = List.length ws.
Proof.
  induction 1 as [|w ws (c & -> & _) _ IH]; [reflexivity|].
  rewrite concat_cons. simpl. now rewrite IH.
Qed.

(** A run of at least one character of a class starts with one, and ends
    with one. *)
Lemma run_first (atoms : list class_atom) (ws : list string) :
  Forall (one_of atoms) ws -> 1 <= List.length ws ->
  exists c t, String.concat EmptyString ws = String c t
              /\ class_match false false atoms c = true.
Proof.
  intros H L. destruct H as [|w ws (c & -> & C) _]; [simpl in L; lia|].
  rewrite concat_cons. simpl. eauto.
Qed.

Lemma run_last (atoms : list class_atom) (ws : list string) :
  Forall (one_of atoms) ws -> 1 <= List.length ws ->
  exists a c, String.concat EmptyString ws = a +++ String c EmptyString
              /\ class_match false false atoms c = true.
Proof.
  intros H L. destruct ws as [|w ws] using rev_ind; [simpl in L; lia|].
  apply Forall_app in H. destruct H as [_ H].
  inversion H as [|? ? (c & -> & C) _]; subst.
  rewrite concat_app, concat_cons. simpl. eauto.
Qed.

Lemma step_comma_consumed (x y : state) :
  In y (step false (Char ",") Forward x) ->
  consumed x y (String "," EmptyString).
Proof.
  destruct x as [l r]. intros H. apply step_Char in H.
  destruct H as (ch & r' & -> & C & ->).
  apply Ascii.eqb_eq in C. subst ch. now split.
Qed.

Lemma trim_fixed_ends (u c : ascii) (mid : string) :
  is_space u = false -> is_space c = false ->
  trim (String u mid +++ String c EmptyString)
  = String u mid +++ String c EmptyString.
Proof.
  intros Hu Hc. unfold trim. rewrite trimStart_fixed by (simpl; exact Hu).
  now apply trimEnd_fixed.
Qed.

Lemma bounds_of_hint_text (element : node) (text : string) :
  hint_text element = Some text ->
  text = trim (Dom.text element) /\ 4 <= String.length text <= 100.
Proof.
  unfold hint_text.
  destruct (is_empty (trim (Dom.text element))
            || (String.length (trim (Dom.text element)) <? 4)
            || (100 <? String.length (trim (Dom.text element)))) eqn:G;
    [discriminate|].
  intros H. injection H as <-. split; [reflexivity|].
  apply orb_false_elim in G. destruct G as [G G3].
  apply orb_false_elim in G. destruct G as [_ G2].
  apply Nat.ltb_ge in G2, G3. lia.
Qed.

(** What the City-ST pattern matches: an upper-case letter, at least one
    name character, a comma, whitespace, and at least two upper-case
    letters.  The match has no whitespace at either end and at least five
    characters. *)
Lemma cityState_match (text m : string) :
  match0 false cityState_pattern text = Some m ->
  substring_of m text /\ trim m = m /\ 5 <= String.length m.
Proof.
  intros H. destruct (match0_sound _ _ _ _ H) as (p & t & e & -> & He & Hm).
  split; [now exists p, t|].
  unfold cityState_pattern in He. cbn [seqs] in He.
  apply step_Seq in He. destruct He as (y & Hy & He).
  apply step_WordB in Hy. destruct Hy as [_ ->].
  apply step_Seq in He. destruct He as (y1 & Hy1 & He).
  apply step_Class_consumed in Hy1. destruct Hy1 as (w1 & C1 & (u & -> & Hu)).
  apply step_Seq in He. destruct He as (y2 & Hy2 & He).
  apply step_Quant_Class in Hy2; [|exact I].
  destruct Hy2 as (ws2 & C2 & F2 & L2).
  apply step_Seq in He. destruct He as (y3 & Hy3 & He).
  apply step_comma_consumed in Hy3.
  apply step_Seq in He. destruct He as (y4 & Hy4 & He).
  apply step_Quant_Class in Hy4; [|exact I].
  destruct Hy4 as (ws4 & C4 & F4 & _).
  apply step_Seq in He. destruct He as (y5 & Hy5 & He).
  apply step_Quant_Class in Hy5; [|simpl; lia].
  destruct Hy5 as (ws5 & C5 & F5 & L5).
  apply step_WordB in He. destruct He as [_ ->].
  pose proof (consumed_trans _ _ _ _ _ C1
               (consumed_trans _ _ _ _ _ C2
                  (consumed_trans _ _ _ _ _ Hy3
                     (consumed_trans _ _ _ _ _ C4 C5)))) as Hall.
  pose proof (consumed_unique _ _ _ _ Hm Hall) as ->.
  split.
  - destruct (run_last _ _ F5) as (a & c & E & Hc); [lia|].
    rewrite E.
    replace (String u EmptyString
             +++ String.concat EmptyString ws2
             +++ String "," EmptyString
             +++ String.concat EmptyString ws4
             +++ a +++ String c EmptyString)
      with (String u (String.concat EmptyString ws2
                      +++ String "," EmptyString
                      +++ String.concat EmptyString ws4 +++ a)
            +++ String c EmptyString)
      by (simpl; rewrite sapp_assoc; simpl; now rewrite sapp_assoc).
    apply trim_fixed_ends; now apply upper_not_space.
  - rewrite !slength_app, (concat_length _ _ F2), (concat_length _ _ F5).
    simpl. lia.
Qed.

(** What the ST-City pattern matches: at least two upper-case letters, a
    comma, whitespace, an upper-case letter and at least one name
    character.  Trimmed, the match keeps all up to that upper-case letter:
    at least four characters. *)
Lemma stateCity_match (text m : string) :
  match0 false stateCity_pattern text = Some m ->
  substring_of m text /\ 4 <= String.length (trim m).
Proof.
  intros H. destruct (match0_sound _ _ _ _ H) as (p & t & e & -> & He & Hm).
  split; [now exists p, t|].
  unfold stateCity_pattern in He. cbn [seqs] in He.
  apply step_Seq in He. destruct He as (y & Hy & He).
  apply step_WordB in Hy. destruct Hy as [_ ->].
  apply step_Seq in He. destruct He as (y1 & Hy1 & He).
  apply step_Quant_Class in Hy1; [|simpl; lia].
  destruct Hy1 as (ws1 & C1 & F1 & L1).
  apply step_Seq in He. destruct He as (y2 & Hy2 & He).
  apply step_comma_consumed in Hy2.
  apply step_Seq in He. destruct He as (y3 & Hy3 & He).
  apply step_Quant_Class in Hy3; [|exact I].
  destruct Hy3 as (ws3 & C3 & F3 & _).
  apply step_Seq in He. destruct He as (y4 & Hy4 & He).
  apply step_Class_consumed in Hy4. destruct Hy4 as (w4 & C4 & (u & -> & Hu)).
  apply step_Seq in He. destruct He as (y5 & Hy5 & He).
  apply step_Quant_Class in Hy5; [|exact I].
  destruct Hy5 as (ws5 & C5 & F5 & L5).
  apply step_WordB in He. destruct He as [_ ->].
  pose proof (consumed_trans _ _ _ _ _ C1
               (consumed_trans _ _ _ _ _ Hy2
                  (consumed_trans _ _ _ _ _ C3
                     (consumed_trans _ _ _ _ _ C4 C5)))) as Hall.
  pose proof (consumed_unique _ _ _ _ Hm Hall) as ->.
  destruct (run_first _ _ F1) as (c & t1 & E & Hc); [lia|].
  assert (Hlen : 2 <= String.length (String.concat EmptyString ws1))
    by (rewrite (concat_length _ _ F1); exact L1).
  unfold trim. rewrite trimStart_fixed
    by (rewrite E; simpl; apply upper_not_space, Hc).
  rewrite <- !sapp_assoc.
  destruct (trimEnd_keeps
              ((String.concat EmptyString ws1 +++ String "," EmptyString)
               +++ String.concat EmptyString ws3)
              u (String.concat EmptyString ws5)
              (upper_not_space u Hu)) as (k & Hk).
  rewrite (sapp_assoc _ (String u EmptyString)).
  change (String u EmptyString +++ String.concat EmptyString ws5)
    with (String u (String.concat EmptyString ws5)).
  rewrite Hk, !slength_app. simpl. lia.
Qed.

Lemma element_hints_by_kind (element : node) :
  element_hints element
  = olist (descriptor_hint element) ++ olist (cityState_hint element)
    ++ olist (stateCity_hint element).
Proof.
  unfold element_hints, descriptor_hint, cityState_hint, stateCity_hint,
    hint_text.
  destruct (is_empty (trim (Dom.text element))
            || (String.length (trim (Dom.text element)) <? 4)
            || (100 <? String.length (trim (Dom.text element))));
    [reflexivity|].
  destruct (test true descriptor_pattern (trim (Dom.text element)));
    destruct (includes_char "," (trim (Dom.text element)));
    try reflexivity;
    destruct (match0 false cityState_pattern (trim (Dom.text element)));
    destruct (match0 false stateCity_pattern (trim (Dom.text element)));
    reflexivity.
Qed.

(** Every hint of an element is trimmed, has 4 to 100 characters and is a
    part of the text of the element. *)
Lemma element_hint_ok (element : node) (h : string) :
  In h (element_hints element) -> hint_ok (Dom.text element) h.
Proof.
  rewrite element_hints_by_kind.
  unfold descriptor_hint, cityState_hint, stateCity_hint.
  destruct (hint_text element) as [text|] eqn:T; [|intros []].
  destruct (bounds_of_hint_text _ _ T) as [Etext Hlen].
  assert (Htext : substring_of text (Dom.text element))
    by (rewrite Etext; apply trim_substring).
  intros H. apply in_app_or in H. destruct H as [H|H].
  - destruct (test true descriptor_pattern text); [|destruct H].
    destruct H as [<-|[]]. split; [|split]; auto.
    rewrite Etext. apply trim_idempotent.
  - destruct (includes_char "," text); [|destruct H].
    apply in_app_or in H. destruct H as [H|H].
    + destruct (match0 false cityState_pattern text) as [m|] eqn:M;
        [|destruct H].
      destruct H as [<-|[]]. destruct (cityState_match _ _ M) as (Hs & Ht & Hl).
      simpl. rewrite Ht. split; [exact Ht|]. split.
      * pose proof (substring_of_length _ _ Hs). lia.
      * eapply substring_of_trans; eauto.
    + destruct (match0 false stateCity_pattern text) as [m|] eqn:M;
        [|destruct H].
      destruct H as [<-|[]]. destruct (stateCity_match _ _ M) as (Hs & Hl).
      simpl. split; [apply trim_idempotent|]. split.
      * pose proof (substring_of_length _ _ Hs). pose proof (trim_length m). lia.
      * eapply substring_of_trans; [apply trim_substring|].
        eapply substring_of_trans; eauto.
Qed.

Lemma extractLocationHints_set (doc : node) :
  extractLocationHints doc
  = set_of (flat_map element_hints (hint_elements doc)).
Proof. unfold extractLocationHints. apply fold_set_add_flat_map. Qed.

End HintLemmas.

(** C7: every hint the handler collects is trimmed, has 4 to 100 characters
    and is a part of the text of the page; an element adds at most one hint
    of each kind (its own text for a descriptor, a City-ST match, an ST-City
    match); the hints have no duplicates, are exactly what the elements add,
    and come in the order in which the elements first add them, which is the
    order of the document. *)
Theorem C7_location_hints (doc : node) :
  (forall h, In h (extractLocationHints doc) -> hint_ok (Dom.text doc) h)
  /\ (forall element,
        element_hints element
        = olist (descriptor_hint element) ++ olist (cityState_hint element)
          ++ olist (stateCity_hint element))
  /\ NoDup (extractLocationHints doc)
  /\ (forall h,
        In h (extractLocationHints doc)
        <-> exists element,
              In element (hint_elements doc) /\ In h (element_hints element))
  /\ ordered_as (fun h => h) (extractLocationHints doc)
       (flat_map element_hints (hint_elements doc)).
Proof.
  rewrite extractLocationHints_set.
  assert (Hin : forall h,
            In h (set_of (flat_map element_hints (hint_elements doc)))
            <-> exists element,
                  In element (hint_elements doc)
                  /\ In h (element_hints element)).
  { intros h. rewrite set_of_In. apply in_flat_map. }
  split; [|split; [|split; [|split]]].
  - intros h Hh. apply Hin in Hh. destruct Hh as (element & He & Hh).
    destruct (element_hint_ok _ _ Hh) as (Ht & Hl & Hs).
    split; [exact Ht|]. split; [exact Hl|].
    eapply substring_of_trans; [exact Hs|].
    eapply selected_text_substring. exact He.
  - apply element_hints_by_kind.
  - apply set_of_NoDup.
  - exact Hin.
  - apply set_of_ordered.
Qed.

(** The example of the specification: no mention of "remote", a paragraph
    with "Austin, TX". *)
Example location_with_city_hint :
  location_of
    (page [] [Element "p" [] [Text "  Austin, TX "];
              Element "p" [] [Text "Hybrid, 3 days on-site"]])
  = "Not Remote" +++ String "010" EmptyString
    +++ "Austin, TX / Hybrid, 3 days on-site".
Proof. vm_compute. reflexivity. Qed.

(* ================================================================== *)
(** * The override patterns and the default pattern: what they match *)

Section OverrideLemmas.

Lemma test_Alt (i : bool) (r1 r2 : regex) (blob : string) :
  test i (Alt r1 r2) blob = true
  <-> test i r1 blob = true \/ test i r2 blob = true.
Proof.
  rewrite !test_true_iff. split.
  - intros (p & s & e & E & H). apply step_Alt in H.
    destruct H as [H|H]; [left | right]; eauto.
  - intros [(p & s & e & E & H)|(p & s & e & E & H)];
      exists p, s, e; (split; [exact E|]); apply step_Alt; auto.
Qed.

(** Two patterns with matches from the same positions pass the same
    texts. *)
Lemma test_same (i : bool) (r1 r2 : regex) (blob : string) :
  (forall st, (exists e, In e (step i r1 Forward st))
              <-> (exists e, In e (step i r2 Forward st))) ->
  (test i r1 blob = true <-> test i r2 blob = true).
Proof.
  intros H. rewrite !test_true_iff. split.
  - intros (p & s & e & E & He).
    destruct (proj1 (H (rev p, s)) (ex_intro _ e He)) as [e' He']. eauto.
  - intros (p & s & e & E & He).
    destruct (proj2 (H (rev p, s)) (ex_intro _ e He)) as [e' He']. eauto.
Qed.



(** Between two word boundaries, a pattern text that starts and ends with a
    word character finds the whole-word occurrences. *)
Lemma whole_word_test (w blob : string) :
  first_is is_word w = true -> last_is is_word w = true ->
  (test true (Seq WordB (Seq (lit w) WordB)) blob = true
   <-> whole_word w blob).
Proof.
  intros Hf Hl. rewrite test_true_iff. unfold whole_word. split.
  - intros (p & s & e & -> & H).
    apply step_bounded_word in H; [|exact Hf|exact Hl].
    destruct H as (m & r' & -> & Hm & Hp & Hr & _). exists p, m, r'. auto.
  - intros (p & m & s & -> & Hm & Hp & Hs).
    exists p, (m +++ s), (revapp m (rev p), s). split; [reflexivity|].
    apply step_bounded_word; [exact Hf | exact Hl|]. exists m, s. auto.
Qed.

Lemma str_match_app (i : bool) (w1 w2 m1 m2 : string) :
  str_match i w1 m1 = true -> str_match i w2 m2 = true ->
  str_match i (w1 +++ w2) (m1 +++ m2) = true.
Proof.
  revert m1. induction w1 as [|a w1 IH]; intros [|b m1] H1 H2;
    try discriminate; simpl; [exact H2|].
  simpl in H1. apply andb_prop in H1. destruct H1 as [Hc H1].
  rewrite Hc. simpl. now apply IH.
Qed.

Lemma str_match_split (i : bool) (w1 w2 m : string) :
  str_match i (w1 +++ w2) m = true ->
  exists m1 m2, m = m1 +++ m2 /\ str_match i w1 m1 = true
                /\ str_match i w2 m2 = true.
Proof.
  revert m. induction w1 as [|a w1 IH]; intros m H.
  - exists EmptyString, m. auto.
  - destruct m as [|b m]; [discriminate|]. simpl in H.
    apply andb_prop in H. destruct H as [Hc H].
    destruct (IH m H) as (m1 & m2 & -> & H1 & H2).
    exists (String b m1), m2. simpl. rewrite Hc. auto.
Qed.

Lemma str_match_length (i : bool) (w m : string) :
  str_match i w m = true -> String.length m = String.length w.
Proof.
  revert m. induction w as [|a w IH]; intros [|b m] H; try discriminate;
    [reflexivity|].
  simpl in H. apply andb_prop in H. destruct H as [_ H].
  simpl. now rewrite (IH m H).
Qed.

Lemma step_lit_app (i : bool) (w1 w2 : string) (st e : state) :
  In e (step i (lit (w1 +++ w2)) Forward st)
  <-> exists y, In y (step i (lit w1) Forward st)
                /\ In e (step i (lit w2) Forward y).
Proof.
  destruct st as [l r]. rewrite step_lit. split.
  - intros (m & r' & -> & Hm & ->).
    destruct (str_match_split i w1 w2 m Hm) as (m1 & m2 & -> & H1 & H2).
    exists (revapp m1 l, m2 +++ r'). split.
    + apply step_lit. exists m1, (m2 +++ r'). now rewrite sapp_assoc.
    + apply step_lit. exists m2, r'. now rewrite revapp_sapp.
  - intros (y & Hy & He). apply step_lit in Hy.
    destruct Hy as (m1 & r1 & -> & H1 & ->). apply step_lit in He.
    destruct He as (m2 & r' & -> & H2 & ->).
    exists (m1 +++ m2), r'. rewrite sapp_assoc, revapp_sapp.
    auto using str_match_app.
Qed.

(** An optional term: nothing, or one match of the term that consumes
    something. *)
Lemma step_Opt (i : bool) (r : regex) (st e : state) :
  In e (step i (Opt r) Forward st)
  <-> e = st \/ (In e (step i r Forward st) /\ same_position e st = false).
Proof.
  unfold Opt. cbn [step Nat.add].
  destruct (remaining Forward st) as [|fuel] eqn:R.
  - cbn [repeat_matcher]. split.
    + intros [<-|[]]. now left.
    + intros [->|[H Hp]]; [now left|]. exfalso.
      pose proof (advances_nowhere Forward st e
                    (step_advances i r Forward st e H) R). congruence.
  - rewrite repeat_optional, in_app_iff, in_flat_map. split.
    + intros [(y & Hy & He)|[<-|[]]]; [|now left].
      destruct (same_position y st) eqn:P; [destruct He|].
      destruct He as [<-|[]]. right. auto.
    + intros [->|[H Hp]]; [right; now left|].
      left. exists e. split; [exact H|]. rewrite Hp. now left.
Qed.

Lemma lit_moves (i : bool) (w : string) (st e : state) :
  w <> EmptyString -> In e (step i (lit w) Forward st) ->
  same_position e st = false.
Proof.
  destruct st as [l r]. intros Hw H. apply step_lit in H.
  destruct H as (m & r' & -> & Hm & ->).
  unfold same_position. cbn [fst]. rewrite length_revapp.
  rewrite (str_match_length i w m Hm). apply Nat.eqb_neq.
  destruct w; [congruence | simpl; lia].
Qed.

(** A word with one of two optional endings, between word boundaries: the
    word, or the word with either ending, between word boundaries. *)
Lemma optional_ending (w a b blob : string) :
  a <> EmptyString -> b <> EmptyString ->
  (test true
     (Seq WordB (Seq (lit w) (Seq (Opt (Group (Alt (lit a) (lit b)))) WordB)))
     blob = true
   <-> test true (Seq WordB (Seq (lit w) WordB)) blob = true
       \/ test true (Seq WordB (Seq (lit (w +++ a)) WordB)) blob = true
       \/ test true (Seq WordB (Seq (lit (w +++ b)) WordB)) blob = true).
Proof.
  intros Ha Hb. rewrite !test_true_iff. split.
  - intros (p & s & e & E & H).
    apply step_Seq in H. destruct H as (y & Hy & H).
    apply step_Seq in H. destruct H as (z & Hz & H).
    apply step_Seq in H. destruct H as (o & Ho & H).
    apply step_Opt in Ho. destruct Ho as [->|[Ho _]].
    + left. exists p, s, e. split; [exact E|].
      apply step_Seq. exists y. split; [exact Hy|].
      apply step_Seq. eauto.
    + apply step_Group, step_Alt in Ho. destruct Ho as [Ho|Ho];
        [right; left | right; right]; exists p, s, e; (split; [exact E|]);
        apply step_Seq; exists y; (split; [exact Hy|]);
        apply step_Seq; exists o; (split; [|exact H]);
        apply step_lit_app; eauto.
  - intros [(p & s & e & E & H)|[(p & s & e & E & H)|(p & s & e & E & H)]];
      exists p, s, e; (split; [exact E|]);
      apply step_Seq in H; destruct H as (y & Hy & H);
      apply step_Seq in H; destruct H as (z & Hz & H);
      apply step_Seq; exists y; (split; [exact Hy|]).
    + apply step_Seq. exists z. split; [exact Hz|].
      apply step_Seq. exists z. split; [apply step_Opt; now left | exact H].
    + apply step_lit_app in Hz. destruct Hz as (o & Ho & Hz).
      apply step_Seq. exists o. split; [exact Ho|].
      apply step_Seq. exists z. split; [|exact H].
      apply step_Opt. right. split.
      * apply step_Group, step_Alt. now left.
      * exact (lit_moves true a o z Ha Hz).
    + apply step_lit_app in Hz. destruct Hz as (o & Ho & Hz).
      apply step_Seq. exists o. split; [exact Ho|].
      apply step_Seq. exists z. split; [|exact H].
      apply step_Opt. right. split.
      * apply step_Group, step_Alt. now right.
      * exact (lit_moves true b o z Hb Hz).
Qed.

(** A pattern text with no word character on either side. *)
Lemma standalone_iff (w blob : string) :
  test true
    (Seq (LookBehind true (Class false [CWord]))
       (Seq (lit w) (LookAhead true (Class false [CWord])))) blob = true
  <-> exists p m s,
        blob = p +++ m +++ s /\ str_match true w m = true
        /\ last_is is_word p = false /\ first_is is_word s = false.
Proof.
  rewrite test_true_iff. split.
  - intros (p & s & e & -> & H).
    apply step_Seq in H. destruct H as (y & Hy & H).
    apply step_not_behind_Class in Hy. destruct Hy as [Hb ->].
    apply step_Seq in H. destruct H as (y & Hy & H).
    apply step_lit in Hy. destruct Hy as (m & r' & -> & Hm & ->).
    apply step_not_ahead_Class in H. destruct H as [Ha ->].
    exists p, m, r'. repeat split; auto.
    + unfold last_is. cbn [fst] in Hb.
      now rewrite <- (first_is_ext _ _ (rev p) class_word).
    + cbn [snd] in Ha. now rewrite <- (first_is_ext _ _ r' class_word).
  - intros (p & m & s & -> & Hm & Hp & Hs).
    exists p, (m +++ s), (revapp m (rev p), s). split; [reflexivity|].
    apply step_Seq. exists (rev p, m +++ s). split.
    { apply step_not_behind_Class. split; [|reflexivity]. cbn [fst].
      now rewrite (first_is_ext _ _ (rev p) class_word). }
    apply step_Seq. exists (revapp m (rev p), s). split.
    { apply step_lit. exists m, s. auto. }
    apply step_not_ahead_Class. split; [|reflexivity]. cbn [snd].
    now rewrite (first_is_ext _ _ s class_word).
Qed.

End OverrideLemmas.

(** X1: the React override finds exactly the whole-word occurrences, up to
    case, of "React", "ReactJS" and "React.js". *)
Theorem React_pattern_matches (blob : string) :
  test true React_pattern blob = true
  <-> whole_word "React" blob \/ whole_word "ReactJS" blob
      \/ whole_word "React.js" blob.
Proof.
  unfold React_pattern. cbn [seqs].
  rewrite (optional_ending "React" "JS" ".js") by discriminate.
  cbn [String.append].
  now rewrite !whole_word_test by reflexivity.
Qed.

(** X2: the Node override finds exactly the whole-word occurrences, up to
    case, of "Node", "Node.js" and "NodeJS". *)
Theorem Node_pattern_matches (blob : string) :
  test true Node_pattern blob = true
  <-> whole_word "Node" blob \/ whole_word "Node.js" blob
      \/ whole_word "NodeJS" blob.
Proof.
  unfold Node_pattern. cbn [seqs].
  rewrite (optional_ending "Node" ".js" "JS") by discriminate.
  cbn [String.append].
  now rewrite !whole_word_test by reflexivity.
Qed.

(** X3: the TypeScript override finds exactly the whole-word occurrences, up
    to case, of "TypeScript" and of "TS". *)
Theorem TypeScript_pattern_matches (blob : string) :
  test true TypeScript_pattern blob = true
  <-> whole_word "TypeScript" blob \/ whole_word "TS" blob.
Proof.
  unfold TypeScript_pattern. cbn [seqs].
  rewrite test_Alt, whole_word_test by reflexivity.
  rewrite standalone_iff. reflexivity.
Qed.

(** X4: the AWS override finds exactly the whole-word occurrences, up to
    case, of "AWS" and of "Amazon Web Services". *)
Theorem AWS_pattern_matches (blob : string) :
  test true AWS_pattern blob = true
  <-> whole_word "AWS" blob \/ whole_word "Amazon Web Services" blob.
Proof.
  unfold AWS_pattern. cbn [seqs].
  now rewrite test_Alt, !whole_word_test by reflexivity.
Qed.



(* ================================================================== *)
(** * The tests that select an override *)

Section SelectionLemmas.

Lemma rev_empty (p : string) : rev p = EmptyString -> p = EmptyString.
Proof. intros H. now rewrite <- (srev_involutive p), H. Qed.

Lemma is_empty_true (s : string) : is_empty s = true <-> s = EmptyString.
Proof. destruct s; simpl; split; congruence. Qed.

Lemma step_Bol (i : bool) (st e : state) :
  In e (step i Bol Forward st) <-> fst st = EmptyString /\ e = st.
Proof. cbn [step]. now rewrite in_one, is_empty_true. Qed.

Lemma step_Eol (i : bool) (st e : state) :
  In e (step i Eol Forward st) <-> snd st = EmptyString /\ e = st.
Proof. cbn [step]. now rewrite in_one, is_empty_true. Qed.

Lemma step_Dot (i : bool) (l r : string) (e : state) :
  In e (step i Dot Forward (l, r))
  <-> exists ch r', r = String ch r' /\ is_line_terminator ch = false
                    /\ e = (String ch l, r').
Proof.
  cbn [step]. destruct r as [|ch r']; simpl.
  - split; [intros [] | intros (? & ? & ? & _); discriminate].
  - rewrite in_one, negb_true_iff. split.
    + intros [H ->]. eauto.
    + intros (ch' & r'' & E & H & ->). injection E as <- <-. now split.
Qed.

(** A pattern that matches from the start of the text only. *)
Lemma test_from_start (i : bool) (r : regex) (s : string) :
  test i (Seq Bol r) s = true
  <-> exists e, In e (step i r Forward (EmptyString, s)).
Proof.
  rewrite test_true_iff. split.
  - intros (p & s' & e & -> & H). apply step_Seq in H.
    destruct H as (y & Hy & H). apply step_Bol in Hy.
    destruct Hy as [Hp ->]. cbn [fst] in Hp. apply rev_empty in Hp.
    subst p. eauto.
  - intros [e H]. exists EmptyString, s, e. split; [reflexivity|].
    apply step_Seq. exists (EmptyString, s). split; [|exact H].
    apply step_Bol. now split.
Qed.

(** [/^w$/i]: the text is [w], up to case. *)
Lemma anchored_literal (w s : string) :
  test true (Seq Bol (Seq (lit w) Eol)) s = true <-> str_match true w s = true.
Proof.
  rewrite test_from_start. split.
  - intros [e H]. apply step_Seq in H. destruct H as (y & Hy & H).
    apply step_lit in Hy. destruct Hy as (m & r' & -> & Hm & ->).
    apply step_Eol in H. destruct H as [Hr _]. cbn [snd] in Hr. subst r'.
    now rewrite sapp_nil_r.
  - intros Hm. exists (revapp s EmptyString, EmptyString).
    apply step_Seq. exists (revapp s EmptyString, EmptyString). split.
    + apply step_lit. exists s, EmptyString. now rewrite sapp_nil_r.
    + apply step_Eol. now split.
Qed.

Lemma backslash_only (b : ascii) : char_eq true "\" b = true -> b = "\"%char.
Proof. ascii_cases b; vm_compute; congruence. Qed.

End SelectionLemmas.

(** The tests that select the React, JavaScript, TypeScript and AWS
    overrides accept exactly the labels that are these names up to case; the
    test that selects the Node override accepts "Node" up to case, alone or
    followed by a backslash, one character that ends no line, and "js". *)
Lemma override_tests_iff (label : string) :
  (test true is_React label = true <-> str_match true "React" label = true)
  /\ (test true is_JavaScript label = true
      <-> str_match true "JavaScript" label = true)
  /\ (test true is_TypeScript label = true
      <-> str_match true "TypeScript" label = true)
  /\ (test true is_AWS label = true <-> str_match true "AWS" label = true)
  /\ (test true is_Node label = true <-> node_label label).
Proof.
  unfold is_React, is_JavaScript, is_TypeScript, is_AWS. cbn [seqs].
  rewrite !anchored_literal.
  split; [reflexivity|]. split; [reflexivity|]. split; [reflexivity|].
  split; [reflexivity|].
  unfold is_Node, node_label. cbn [seqs]. rewrite test_from_start. split.
  - intros [e H]. apply step_Seq in H. destruct H as (y & Hy & H).
    apply step_lit in Hy. destruct Hy as (n & r1 & -> & Hn & ->).
    apply step_Seq in H. destruct H as (o & Ho & H).
    apply step_Eol in H. destruct H as [Hr _].
    apply step_Opt in Ho. destruct Ho as [->|[Ho _]].
    + cbn [snd] in Hr. subst r1. left. now rewrite sapp_nil_r.
    + right. apply step_Group, step_Seq in Ho. destruct Ho as (a & Ha & Ho).
      apply step_Char in Ha. destruct Ha as (b & r2 & -> & Hb & ->).
      apply backslash_only in Hb. subst b.
      apply step_Seq in Ho. destruct Ho as (d & Hd & Ho).
      apply step_Dot in Hd. destruct Hd as (c & r3 & -> & Hc & ->).
      apply step_lit in Ho. destruct Ho as (t & r4 & -> & Ht & ->).
      cbn [snd] in Hr. subst r4. rewrite sapp_nil_r. exists n, c, t. auto.
  - intros [Hn|(n & c & t & -> & Hn & Hc & Ht)].
    + exists (revapp label EmptyString, EmptyString).
      apply step_Seq. exists (revapp label EmptyString, EmptyString). split.
      { apply step_lit. exists label, EmptyString. now rewrite sapp_nil_r. }
      apply step_Seq. exists (revapp label EmptyString, EmptyString). split.
      { apply step_Opt. now left. }
      apply step_Eol. now split.
    + set (l1 := revapp n EmptyString).
      exists (revapp t (String c (String "\" l1)), EmptyString).
      apply step_Seq. exists (l1, String "\" (String c t)). split.
      { apply step_lit. exists n, (String "\" (String c t)). auto. }
      apply step_Seq.
      exists (revapp t (String c (String "\" l1)), EmptyString). split.
      { apply step_Opt. right. split.
        - apply step_Group, step_Seq. exists (String "\" l1, String c t).
          split; [apply step_Char; exists "\"%char, (String c t); auto|].
          apply step_Seq. exists (String c (String "\" l1), t).
          split; [apply step_Dot; exists c, t; auto|].
          apply step_lit. exists t, EmptyString. now rewrite sapp_nil_r.
        - unfold same_position. cbn [fst]. rewrite length_revapp.
          apply Nat.eqb_neq. simpl. lia. }
      apply step_Eol. now split.
Qed.

Section LabelLemmas.

Lemma not_node_label (l : string) :
  str_match true "Node" l = false ->
  has_char (Ascii.eqb "\") l = false ->
  ~ node_label l.
Proof.
  intros Hn Hb [H|(n & c & t & -> & _ & _ & _)]; [congruence|].
  clear Hn. induction n as [|a n IH]; simpl in Hb.
  - discriminate.
  - apply orb_false_elim in Hb. now apply IH.
Qed.

Lemma test_false_iff (i : bool) (r : regex) (s : string) (P : Prop) :
  (test i r s = true <-> P) -> ~ P -> test i r s = false.
Proof. intros H HP. destruct (test i r s); [exfalso; tauto | reflexivity]. Qed.

(** The pattern of a label that is none of the names of the overrides and
    holds no backslash is the default pattern. *)
Lemma patternSource_default (l : string) :
  override_name l = false -> has_char (Ascii.eqb "\") l = false ->
  patternSource l = default_pattern l.
Proof.
  unfold override_name. intros H Hb.
  repeat (apply orb_false_elim in H; destruct H as [H ?]).
  destruct (override_tests_iff l) as (HR & HJ & HT & HA & HN).
  unfold patternSource.
  rewrite (test_false_iff _ _ _ _ HR) by congruence.
  rewrite (test_false_iff _ _ _ _ HN) by now apply not_node_label.
  rewrite (test_false_iff _ _ _ _ HJ) by congruence.
  rewrite (test_false_iff _ _ _ _ HT) by congruence.
  rewrite (test_false_iff _ _ _ _ HA) by congruence.
  reflexivity.
Qed.

End LabelLemmas.

(* ================================================================== *)
(** * The JavaScript override: the lookbehind *)

Section BackwardLemmas.

Lemma step_Seq_back (i : bool) (r1 r2 : regex) (st e : state) :
  In e (step i (Seq r1 r2) Backward st)
  <-> exists y, In y (step i r2 Backward st) /\ In e (step i r1 Backward y).
Proof. cbn [step]. apply in_flat_map. Qed.

Lemma step_Alt_back (i : bool) (r1 r2 : regex) (st e : state) :
  In e (step i (Alt r1 r2) Backward st)
  <-> In e (step i r1 Backward st) \/ In e (step i r2 Backward st).
Proof. cbn [step]. apply in_app_iff. Qed.

Lemma step_Group_back (i : bool) (r : regex) (st e : state) :
  In e (step i (Group r) Backward st) <-> In e (step i r Backward st).
Proof. reflexivity. Qed.

Lemma step_Char_back (i : bool) (c : ascii) (l r : string) (e : state) :
  In e (step i (Char c) Backward (l, r))
  <-> exists ch l', l = String ch l' /\ char_eq i c ch = true
                    /\ e = (l', String ch r).
Proof.
  cbn [step]. destruct l as [|ch l']; simpl.
  - split; [intros [] | intros (? & ? & ? & _); discriminate].
  - rewrite in_one. split.
    + intros [H ->]. eauto.
    + intros (ch' & l'' & E & H & ->). injection E as <- <-. now split.
Qed.

Lemma step_Class_back (i n : bool) (atoms : list class_atom) (l r : string)
    (e : state) :
  In e (step i (Class n atoms) Backward (l, r))
  <-> exists ch l', l = String ch l' /\ class_match i n atoms ch = true
                    /\ e = (l', String ch r).
Proof.
  cbn [step]. destruct l as [|ch l']; simpl.
  - split; [intros [] | intros (? & ? & ? & _); discriminate].
  - rewrite in_one. split.
    + intros [H ->]. eauto.
    + intros (ch' & l'' & E & H & ->). injection E as <- <-. now split.
Qed.

(** Backward, a pattern text matches the text right before the position. *)
Lemma step_lit_back (i : bool) (w : string) :
  forall l r e,
    In e (step i (lit w) Backward (l, r))
    <-> exists m l', l = revapp m l' /\ str_match i w m = true
                     /\ e = (l', m +++ r).
Proof.
  induction w as [|a w IH]; intros l r e.
  - simpl. split.
    + intros [<-|[]]. exists EmptyString, l. auto.
    + intros (m & l' & -> & H & ->). destruct m; [now left | discriminate].
  - change (lit (String a w)) with (Seq (Char a) (lit w)).
    rewrite step_Seq_back. split.
    + intros (y & Hy & He). apply IH in Hy.
      destruct Hy as (m & l1 & -> & Hm & ->). apply step_Char_back in He.
      destruct He as (ch & l2 & -> & Hc & ->).
      exists (String ch m), l2. simpl. rewrite Hc, Hm. auto.
    + intros (m & l' & -> & Hm & ->). destruct m as [|ch m]; [discriminate|].
      simpl in Hm. apply andb_prop in Hm. destruct Hm as [Hc Hm].
      exists (String ch l', m +++ r). split.
      * apply IH. exists m, (String ch l'). auto.
      * apply step_Char_back. exists ch, l'. auto.
Qed.

Lemma step_not_behind (i : bool) (r : regex) (st e : state) :
  In e (step i (LookBehind true r) Forward st)
  <-> step i r Backward st = [] /\ e = st.
Proof.
  cbn [step]. destruct (step i r Backward st); simpl.
  - split; [intros [<-|[]]; auto | intros [_ ->]; now left].
  - split; [intros [] | intros [H _]; discriminate].
Qed.

(** The text before a position ends with a pattern text exactly when the
    pattern text matches backward from the position. *)
Lemma ends_like_back (w p r : string) :
  ends_like w p
  <-> exists e, In e (step true (lit w) Backward (rev p, r)).
Proof.
  split.
  - intros (q & m & -> & Hm). exists (rev q, m +++ r).
    apply step_lit_back. exists m, (rev q).
    now rewrite srev_app, revapp_spec.
  - intros [e H]. apply step_lit_back in H.
    destruct H as (m & l' & E & Hm & _). exists (rev l'), m.
    split; [|exact Hm].
    rewrite <- (srev_involutive p), E, revapp_spec, srev_app.
    now rewrite srev_involutive.
Qed.

Lemma class_space (c : ascii) :
  class_match true false [CSpace] c = is_space c.
Proof. ascii_cases c; vm_compute; reflexivity. Qed.

Lemma slash_only (b : ascii) : char_eq true "/" b = true -> b = "/"%char.
Proof. ascii_cases b; vm_compute; congruence. Qed.

Lemma ends_like_slash (w p : string) :
  ends_like (w +++ "/") p
  <-> exists q, p = q +++ "/" /\ ends_like w q.
Proof.
  split.
  - intros (q & m & -> & Hm).
    destruct (str_match_split true w "/" m Hm) as (m1 & m2 & -> & H1 & H2).
    invert_str_match H2. apply slash_only in Hc. subst.
    exists (q +++ m1). split; [now rewrite sapp_assoc|]. now exists q, m1.
  - intros (q & -> & q' & m & -> & Hm). exists q', (m +++ "/").
    split; [now rewrite sapp_assoc|]. now apply str_match_app.
Qed.

(** The body of the lookbehind of the server matches backward exactly when
    the text before ends with what the override refuses. *)
Lemma refused_before (p r : string) :
  excluded_before_JavaScript p
  <-> exists e,
        In e (step true
                (Alt (Seq (Group (Alt (lit "text") (lit "application")))
                        (Char "/"))
                     (Seq (lit "enable") (Class false [CSpace])))
                Backward (rev p, r)).
Proof.
  unfold excluded_before_JavaScript.
  change "text/" with ("text" +++ "/").
  change "application/" with ("application" +++ "/").
  rewrite !ends_like_slash. split.
  - intros [(q & -> & Hq)|[(q & -> & Hq)|(q & c & -> & Hq & Hc)]].
    + apply (ends_like_back "text" q (String "/" r)) in Hq.
      destruct Hq as [e He]. exists e. apply step_Alt_back. left.
      apply step_Seq_back. exists (rev q, String "/" r). split.
      * apply step_Char_back. exists "/"%char, (rev q).
        now rewrite srev_app.
      * apply step_Group_back, step_Alt_back. now left.
    + apply (ends_like_back "application" q (String "/" r)) in Hq.
      destruct Hq as [e He]. exists e. apply step_Alt_back. left.
      apply step_Seq_back. exists (rev q, String "/" r). split.
      * apply step_Char_back. exists "/"%char, (rev q).
        now rewrite srev_app.
      * apply step_Group_back, step_Alt_back. now right.
    + apply (ends_like_back "enable" q (String c r)) in Hq.
      destruct Hq as [e He]. exists e. apply step_Alt_back. right.
      apply step_Seq_back. exists (rev q, String c r). split; [|exact He].
      apply step_Class_back. exists c, (rev q).
      rewrite srev_app, class_space. auto.
  - intros [e H]. apply step_Alt_back in H. destruct H as [H|H].
    + apply step_Seq_back in H. destruct H as (y & Hy & H).
      apply step_Char_back in Hy. destruct Hy as (ch & l' & E & Hc & ->).
      apply slash_only in Hc. subst ch.
      assert (Ep : p = rev l' +++ "/").
      { rewrite <- (srev_involutive p), E.
        change (String "/" l') with ("/" +++ l'). now rewrite srev_app. }
      assert (El : l' = rev (rev l')) by now rewrite srev_involutive.
      rewrite El in H. apply step_Group_back, step_Alt_back in H.
      destruct H as [H|H]; [left | right; left];
        exists (rev l'); (split; [exact Ep|]);
        eapply ends_like_back; eauto.
    + apply step_Seq_back in H. destruct H as (y & Hy & H).
      apply step_Class_back in Hy. destruct Hy as (ch & l' & E & Hc & ->).
      rewrite class_space in Hc.
      right. right. exists (rev l'), ch. split; [|split; [|exact Hc]].
      * rewrite <- (srev_involutive p), E.
        change (String ch l') with (String ch EmptyString +++ l').
        now rewrite srev_app.
      * assert (El : l' = rev (rev l')) by now rewrite srev_involutive.
        rewrite El in H. eapply ends_like_back; eauto.
Qed.

(** The same for the body of the lookbehind of the verification script. *)
Lemma refused_before_debug (p r : string) :
  ends_like "text/" p \/ ends_like "application/" p
  <-> exists e,
        In e (step true
                (Seq (Group (Alt (lit "text") (lit "application")))
                   (Char "/"))
                Backward (rev p, r)).
Proof.
  change "text/" with ("text" +++ "/").
  change "application/" with ("application" +++ "/").
  rewrite !ends_like_slash. split.
  - intros [(q & -> & Hq)|(q & -> & Hq)].
    + apply (ends_like_back "text" q (String "/" r)) in Hq.
      destruct Hq as [e He]. exists e.
      apply step_Seq_back. exists (rev q, String "/" r). split.
      * apply step_Char_back. exists "/"%char, (rev q).
        now rewrite srev_app.
      * apply step_Group_back, step_Alt_back. now left.
    + apply (ends_like_back "application" q (String "/" r)) in Hq.
      destruct Hq as [e He]. exists e.
      apply step_Seq_back. exists (rev q, String "/" r). split.
      * apply step_Char_back. exists "/"%char, (rev q).
        now rewrite srev_app.
      * apply step_Group_back, step_Alt_back. now right.
  - intros [e H].
    apply step_Seq_back in H. destruct H as (y & Hy & H).
    apply step_Char_back in Hy. destruct Hy as (ch & l' & E & Hc & ->).
    apply slash_only in Hc. subst ch.
    assert (Ep : p = rev l' +++ "/").
    { rewrite <- (srev_involutive p), E.
      change (String "/" l') with ("/" +++ l'). now rewrite srev_app. }
    assert (El : l' = rev (rev l')) by now rewrite srev_involutive.
    rewrite El in H. apply step_Group_back, step_Alt_back in H.
    destruct H as [H|H]; [left | right];
      exists (rev l'); (split; [exact Ep|]);
      eapply ends_like_back; eauto.
Qed.

(** A whole word behind a negative lookbehind. *)
Lemma guarded_word (body : regex) (w blob : string) (refused : string -> Prop) :
  first_is is_word w = true -> last_is is_word w = true ->
  (forall p r, refused p
               <-> exists e, In e (step true body Backward (rev p, r))) ->
  (test true (Seq (LookBehind true body) (Seq WordB (Seq (lit w) WordB)))
     blob = true
   <-> exists p m s,
         blob = p +++ m +++ s /\ str_match true w m = true
         /\ last_is is_word p = false /\ first_is is_word s = false
         /\ ~ refused p).
Proof.
  intros Hf Hl Hbody. rewrite test_true_iff. split.
  - intros (p & s & e & -> & H).
    apply step_Seq in H. destruct H as (y & Hy & H).
    apply step_not_behind in Hy. destruct Hy as [Hnone ->].
    apply step_bounded_word in H; [|exact Hf|exact Hl].
    destruct H as (m & r' & -> & Hm & Hp & Hr & _).
    exists p, m, r'. repeat split; auto.
    intros Href. apply (Hbody p (m +++ r')) in Href.
    destruct Href as [e' He']. rewrite Hnone in He'. destruct He'.
  - intros (p & m & s & -> & Hm & Hp & Hs & Href).
    exists p, (m +++ s), (revapp m (rev p), s). split; [reflexivity|].
    apply step_Seq. exists (rev p, m +++ s). split.
    + apply step_not_behind. split; [|reflexivity].
      destruct (step true body Backward (rev p, m +++ s)) as [|e' rest] eqn:E;
        [reflexivity|].
      exfalso. apply Href, (Hbody p (m +++ s)). exists e'. rewrite E.
      now left.
    + apply step_bounded_word; [exact Hf | exact Hl|]. exists m, s. auto.
Qed.

Lemma JavaScript_word_iff (blob : string) :
  test true JavaScript_word blob = true <-> JavaScript_word_in blob.
Proof.
  unfold JavaScript_word, JavaScript_word_in. cbn [seqs].
  apply guarded_word; [reflexivity | reflexivity|].
  intros p r. apply refused_before.
Qed.

Lemma JavaScript_word_debug_iff (blob : string) :
  test true JavaScript_word_debug blob = true <-> JavaScript_word_in_debug blob.
Proof.
  unfold JavaScript_word_debug, JavaScript_word_in_debug. cbn [seqs].
  apply (guarded_word _ "JavaScript" blob
           (fun p => ends_like "text/" p \/ ends_like "application/" p));
    [reflexivity | reflexivity|].
  intros p r. apply refused_before_debug.
Qed.

End BackwardLemmas.

(** X6: the JavaScript override matches exactly the texts with a whole-word
    occurrence of "JavaScript", up to case, that does not come right after
    "text/", "application/" or "enable" and a whitespace character, or with
    an occurrence of "JS" with no word character, dot, slash, quote or hyphen
    right before it and no word character right after it. *)
Theorem JavaScript_pattern_matches (blob : string) :
  test true JavaScript_pattern blob = true
  <-> JavaScript_word_in blob
      \/ exists p m s,
           blob = p +++ m +++ s /\ str_match true "JS" m = true
           /\ last_is JS_excluded p = false /\ first_is is_word s = false.
Proof.
  unfold JavaScript_pattern.
  now rewrite test_Alt, JavaScript_word_iff, bare_JS_iff.
Qed.

(* ================================================================== *)
(** * The keywords of a document: structured sources and lexicon scan *)

Section KeywordLemmas.

Lemma set_add_In (acc : list string) (x s : string) :
  In s (set_add acc x) <-> In s acc \/ s = x.
Proof.
  unfold set_add. destruct (set_has x acc) eqn:H.
  - apply set_has_In in H. split; [auto | intros [?| ->]; auto].
  - rewrite in_app_iff. simpl. split.
    + intros [H0|[<-|[]]]; auto.
    + intros [H0| ->]; auto.
Qed.

Lemma set_add_NoDup (acc : list string) (x : string) :
  NoDup acc -> NoDup (set_add acc x).
Proof.
  intros ND. unfold set_add. destruct (set_has x acc) eqn:H; [exact ND|].
  apply set_has_not_In in H.
  apply Permutation_NoDup with (l := x :: acc).
  - apply Permutation_cons_append.
  - now constructor.
Qed.

Lemma set_add_prefix (acc : list string) (x : string) :
  prefix_of acc (set_add acc x).
Proof.
  unfold set_add. destruct (set_has x acc).
  - exists []. now rewrite List.app_nil_r.
  - now exists [x].
Qed.

Lemma prefix_of_trans {A : Type} (a b c : list A) :
  prefix_of a b -> prefix_of b c -> prefix_of a c.
Proof.
  intros [r1 ->] [r2 ->]. exists (r1 ++ r2). now rewrite List.app_assoc.
Qed.

(** A scan from a set that is there already: the set stays in front, no
    duplicate comes in, and what is added is what is found. *)
Lemma keep_found_from {A : Type} (f : A -> option string) (l : list A) :
  forall acc,
    NoDup acc ->
    NoDup (fold_left (keep_found f) l acc)
    /\ prefix_of acc (fold_left (keep_found f) l acc)
    /\ (forall s, In s (fold_left (keep_found f) l acc)
                  <-> In s acc \/ exists a, In a l /\ f a = Some s).
Proof.
  induction l as [|a l IH]; intros acc ND; simpl.
  - split; [exact ND|]. split; [exists []; now rewrite List.app_nil_r|].
    intros s. split; [auto | intros [H|(a & [] & _)]; exact H].
  - assert (ND' : NoDup (keep_found f acc a)).
    { unfold keep_found. destruct (f a); [now apply set_add_NoDup | exact ND]. }
    destruct (IH _ ND') as (H1 & H2 & H3).
    split; [exact H1|]. split.
    + eapply prefix_of_trans; [|exact H2]. unfold keep_found.
      destruct (f a); [apply set_add_prefix|].
      exists []. now rewrite List.app_nil_r.
    + intros s. rewrite H3. unfold keep_found. destruct (f a) as [x|] eqn:Fa.
      * rewrite set_add_In. split.
        -- intros [[H| ->]|(b & Hb & Fb)]; eauto.
        -- intros [H|(b & [<-|Hb] & Fb)]; eauto.
           left. right. congruence.
      * split.
        -- intros [H|(b & Hb & Fb)]; eauto.
        -- intros [H|(b & [<-|Hb] & Fb)]; eauto. congruence.
Qed.

Lemma fold_left_same {A B : Type} (f g : A -> B -> A) (l : list B) (a : A) :
  (forall x y, f x y = g x y) -> fold_left f l a = fold_left g l a.
Proof.
  intros H. revert a. induction l as [|b l IH]; intros a; simpl;
    [reflexivity|]. now rewrite H, IH.
Qed.

Lemma structured_keywords_scan (doc : node) :
  structured_keywords doc
  = fold_left (keep_found article_tag)
      (select doc (TagAttr "meta" "property" "article:tag"))
      (set_of
         (filter (fun k => negb (is_empty k))
            (map trim
               (split_char ","
                  (or_empty
                     (attr (select doc (TagAttr "meta" "name" "keywords"))
                        "content")))))).
Proof.
  unfold structured_keywords.
  rewrite (fold_left_same _ (keep_found article_tag)).
  - f_equal.
    destruct (attr (select doc (TagAttr "meta" "name" "keywords")) "content")
      as [[|c content]|]; reflexivity.
  - intros ks element. unfold keep_found, article_tag.
    destruct (attr_of element "content") as [tag|]; [|reflexivity].
    destruct (is_empty tag); reflexivity.
Qed.

Lemma structured_keywords_In (doc : node) (k : string) :
  In k (structured_keywords doc)
  <-> (exists piece,
         In piece
           (split_char ","
              (or_empty (attr (select doc (TagAttr "meta" "name" "keywords"))
                           "content")))
         /\ k = trim piece /\ k <> EmptyString)
      \/ (exists element tag,
            In element (select doc (TagAttr "meta" "property" "article:tag"))
            /\ attr_of element "content" = Some tag
            /\ tag <> EmptyString /\ k = trim tag).
Proof.
  rewrite structured_keywords_scan.
  destruct (keep_found_from article_tag
              (select doc (TagAttr "meta" "property" "article:tag"))
              _ (set_of_NoDup
                   (filter (fun k => negb (is_empty k))
                      (map trim
                         (split_char ","
                            (or_empty
                               (attr (select doc
                                        (TagAttr "meta" "name" "keywords"))
                                  "content")))))))
    as (_ & _ & Hin).
  rewrite Hin, set_of_In, filter_In, in_map_iff. clear Hin.
  split.
  - intros [[(piece & <- & Hp) Hk]|(element & He & Ha)].
    + left. exists piece. repeat split; auto.
      intros E. rewrite E in Hk. discriminate.
    + right. unfold article_tag in Ha.
      destruct (attr_of element "content") as [tag|] eqn:T; [|discriminate].
      destruct tag as [|c tag]; [discriminate|]. injection Ha as <-.
      exists element, (String c tag). repeat split; auto. discriminate.
  - intros [(piece & Hp & -> & Hk)|(element & tag & He & Ha & Ht & ->)].
    + left. split; [eauto|].
      destruct (trim piece); [congruence | reflexivity].
    + right. exists element. split; [exact He|].
      unfold article_tag. rewrite Ha.
      destruct tag; [congruence | reflexivity].
Qed.

Lemma structured_keywords_NoDup (doc : node) :
  NoDup (structured_keywords doc).
Proof.
  rewrite structured_keywords_scan.
  apply keep_found_from, set_of_NoDup.
Qed.

(** Membership in the result of the matcher, structured keywords included. *)
Lemma collectKeywords_members (lexicon : list json) (doc : node)
    (pageText : string) :
  NoDup (collectKeywords lexicon doc pageText)
  /\ prefix_of (structured_keywords doc)
       (collectKeywords lexicon doc pageText)
  /\ (forall s,
        In s (collectKeywords lexicon doc pageText)
        <-> In s (structured_keywords doc)
            \/ (In (JStr s) lexicon
                /\ is_empty (trim s) = false
                /\ test true (patternSource (trim s))
                     (rawText_of doc pageText) = true)).
Proof.
  destruct (keep_found_from (label_found (rawText_of doc pageText)) lexicon
              _ (structured_keywords_NoDup doc)) as (H1 & H2 & H3).
  split; [exact H1|]. split; [exact H2|].
  intros s. unfold collectKeywords, scan_lexicon.
  change (scan_label (rawText_of doc pageText))
    with (keep_found (label_found (rawText_of doc pageText))).
  rewrite H3. split.
  - intros [H|(a & Ha & Fa)]; [now left|]. right.
    pose proof (label_found_tells _ _ _ Fa) as ->.
    apply label_found_iff in Fa. tauto.
  - intros [H|(Hl & He & Ht)]; [now left|]. right.
    exists (JStr s). split; [exact Hl|]. apply label_found_iff. auto.
Qed.

(** The scan of the verification script finds what the scan of the server
    finds. *)
Lemma label_found_debug_more (rawText : string) (label : json) (s : string) :
  label_found rawText label = Some s ->
  label_found_debug rawText label = Some s.
Proof.
  destruct label as [| | |l| |]; simpl; try discriminate.
  destruct (is_empty l); [discriminate|].
  destruct (is_empty (trim l)); [discriminate|].
  unfold patternSource, patternSource_debug.
  destruct (test true is_React (trim l)); [auto|].
  destruct (test true is_Node (trim l)); [auto|].
  destruct (test true is_JavaScript (trim l)); [|auto].
  destruct (test true JavaScript_pattern rawText) eqn:T; [|discriminate].
  intros H.
  assert (T' : test true JavaScript_pattern_debug rawText = true).
  { unfold JavaScript_pattern, JavaScript_pattern_debug in *.
    apply test_Alt. apply test_Alt in T. destruct T as [T|T]; [left | now right].
    apply JavaScript_word_debug_iff. apply JavaScript_word_iff in T.
    destruct T as (p & m & r & E & Hm & Hp & Hr & Hno).
    exists p, m, r. repeat split; auto.
    intros [Hx|Hx]; apply Hno; [left | right; left]; exact Hx. }
  now rewrite T'.
Qed.

End KeywordLemmas.

(* ================================================================== *)
(** * The pattern of a label, and the labels of a document *)

Section TableLemmas.

Lemma str_match_other_length (i : bool) (w l : string) :
  String.length l <> String.length w -> str_match i w l = false.
Proof.
  intros H. destruct (str_match i w l) eqn:E; [|reflexivity].
  apply str_match_length in E. congruence.
Qed.

Lemma node_label_length (l : string) :
  node_label l -> String.length l = 4 \/ String.length l = 8.
Proof.
  intros [H|(n & c & t & -> & Hn & _ & Ht)].
  - left. exact (str_match_length _ _ _ H).
  - right. apply str_match_length in Hn, Ht. rewrite slength_app. simpl.
    rewrite Hn, Ht. reflexivity.
Qed.

Lemma JavaScript_is_not_TypeScript (l : string) :
  str_match true "JavaScript" l = true ->
  str_match true "TypeScript" l = true -> False.
Proof.
  intros HJ HT. apply str_match_cons in HJ, HT.
  destruct HJ as (b & m & -> & HJ & _). destruct HT as (b' & m' & E & HT & _).
  injection E as <- <-. revert HJ HT.
  ascii_cases b; vm_compute; congruence.
Qed.

End TableLemmas.

(** X7: which pattern a label gets.  A label that is "React", "JavaScript",
    "TypeScript" or "AWS" up to case gets the override of that name; the
    Node override goes to "Node" up to case, alone or followed by a
    backslash, one character and "js"; a label that is none of the five
    names up to case and holds no backslash gets the default pattern. *)
Theorem patternSource_table (l : string) :
  (str_match true "React" l = true -> patternSource l = React_pattern)
  /\ (node_label l -> patternSource l = Node_pattern)
  /\ (str_match true "JavaScript" l = true
      -> patternSource l = JavaScript_pattern)
  /\ (str_match true "TypeScript" l = true
      -> patternSource l = TypeScript_pattern)
  /\ (str_match true "AWS" l = true -> patternSource l = AWS_pattern)
  /\ (override_name l = false -> has_char (Ascii.eqb "\") l = false
      -> patternSource l = default_pattern l).
Proof.
  destruct (override_tests_iff l) as (HR & HJ & HT & HA & HN).
  unfold patternSource. repeat split.
  - intros H. apply HR in H. now rewrite H.
  - intros H. pose proof (node_label_length l H) as Hlen.
    rewrite (test_false_iff _ _ _ _ HR).
    + apply HN in H. now rewrite H.
    + rewrite str_match_other_length; [discriminate|]. simpl. lia.
  - intros H. pose proof (str_match_length _ _ _ H) as Hlen. simpl in Hlen.
    rewrite (test_false_iff _ _ _ _ HR), (test_false_iff _ _ _ _ HN).
    + apply HJ in H. now rewrite H.
    + intros Hn. apply node_label_length in Hn. lia.
    + rewrite str_match_other_length; [discriminate|]. simpl. lia.
  - intros H. pose proof (str_match_length _ _ _ H) as Hlen. simpl in Hlen.
    rewrite (test_false_iff _ _ _ _ HR), (test_false_iff _ _ _ _ HN),
      (test_false_iff _ _ _ _ HJ).
    + apply HT in H. now rewrite H.
    + intros HJ'. exact (JavaScript_is_not_TypeScript l HJ' H).
    + intros Hn. apply node_label_length in Hn. lia.
    + rewrite str_match_other_length; [discriminate|]. simpl. lia.
  - intros H. pose proof (str_match_length _ _ _ H) as Hlen. simpl in Hlen.
    rewrite (test_false_iff _ _ _ _ HR), (test_false_iff _ _ _ _ HN),
      (test_false_iff _ _ _ _ HJ), (test_false_iff _ _ _ _ HT).
    + apply HA in H. now rewrite H.
    + rewrite str_match_other_length; [discriminate|]. simpl. lia.
    + rewrite str_match_other_length; [discriminate|]. simpl. lia.
    + intros Hn. apply node_label_length in Hn. lia.
    + rewrite str_match_other_length; [discriminate|]. simpl. lia.
  - apply patternSource_default.
Qed.

Lemma patternSource_table_witness :
  patternSource "typescript" = TypeScript_pattern
  /\ patternSource "Vue.js" = default_pattern "Vue.js".
Proof.
  split.
  - exact (proj1 (proj2 (proj2 (proj2 (patternSource_table "typescript"))))
             eq_refl).
  - exact (proj2 (proj2 (proj2 (proj2 (proj2 (patternSource_table "Vue.js")))))
             eq_refl eq_refl).
Defined.

(** X8: the keywords of the structured sources have no duplicate and no
    whitespace at their ends, and they are exactly the trimmed pieces,
    other than the empty one, of the [keywords] meta content split at its
    commas, and the trimmed contents, when they are not empty before the
    trim, of the [article:tag] meta elements. *)
Theorem structured_keywords_spec (doc : node) :
  NoDup (structured_keywords doc)
  /\ (forall k, In k (structured_keywords doc) -> trim k = k)
  /\ (forall k,
        In k (structured_keywords doc)
        <-> (exists piece,
               In piece
                 (split_char ","
                    (or_empty
                       (attr (select doc (TagAttr "meta" "name" "keywords"))
                          "content")))
               /\ k = trim piece /\ k <> EmptyString)
            \/ (exists element tag,
                  In element
                    (select doc (TagAttr "meta" "property" "article:tag"))
                  /\ attr_of element "content" = Some tag
                  /\ tag <> EmptyString /\ k = trim tag)).
Proof.
  split; [apply structured_keywords_NoDup|]. split.
  - intros k H. apply structured_keywords_In in H.
    destruct H as [(piece & _ & -> & _)|(element & tag & _ & _ & _ & ->)];
      apply trim_idempotent.
  - apply structured_keywords_In.
Qed.

(** X9: the keywords the matcher returns have no duplicate, they begin
    with the keywords of the structured sources, and a text is among them
    exactly when it is one of these or a label of the lexicon that is not
    blank and whose pattern matches the scanned text. *)
Theorem collectKeywords_spec (lexicon : list json) (doc : node)
    (pageText : string) :
  NoDup (collectKeywords lexicon doc pageText)
  /\ prefix_of (structured_keywords doc)
       (collectKeywords lexicon doc pageText)
  /\ (forall s,
        In s (collectKeywords lexicon doc pageText)
        <-> In s (structured_keywords doc)
            \/ (In (JStr s) lexicon
                /\ is_empty (trim s) = false
                /\ test true (patternSource (trim s))
                     (rawText_of doc pageText) = true)).
Proof. apply collectKeywords_members. Qed.



(** X11: the matcher of the verification script returns every keyword the
    matcher of the server returns, over the same lexicon, document and page
    text; it may return more: over the lexicon of the script, it finds
    "JavaScript" in a text that asks to enable JavaScript, and the server
    does not. *)
Theorem verification_script_finds_more :
  (forall lexicon doc pageText s,
      In s (collectKeywords lexicon doc pageText)
      -> In s (collectKeywords_over lexicon doc pageText))
  /\ (In "JavaScript"
        (collectKeywords_debug blank_page "Please enable JavaScript")
      /\ ~ In "JavaScript"
             (collectKeywords DEBUG_TECH_STACKS blank_page
                "Please enable JavaScript")).
Proof.
  split.
  - intros lexicon doc pageText s H.
    apply collectKeywords_members in H.
    destruct (keep_found_from (label_found_debug (rawText_of doc pageText))
                lexicon _ (structured_keywords_NoDup doc)) as (_ & _ & Hin).
    unfold collectKeywords_over.
    change (fun (keywords : list string) (label : json) =>
              match label_found_debug (rawText_of doc pageText) label with
              | Some s0 => set_add keywords s0
              | None => keywords
              end)
      with (keep_found (label_found_debug (rawText_of doc pageText))).
    apply Hin. destruct H as [H|(Hl & He & Ht)]; [now left|]. right.
    exists (JStr s). split; [exact Hl|].
    apply label_found_debug_more, label_found_iff. auto.
  - split; vm_compute; [tauto|]. intros [].
Qed.

Lemma verification_script_finds_more_witness :
  In "React"
    (collectKeywords_over DEBUG_TECH_STACKS blank_page "ReactJS and Go").
Proof.
  apply (proj1 verification_script_finds_more DEBUG_TECH_STACKS blank_page
           "ReactJS and Go" "React").
  vm_compute. tauto.
Defined.

(* ================================================================== *)
(** * The lexicon store: every request, and runs of requests *)

Section StoreLemmas.

Lemma trimmed_entries_In (incoming : list json) (s : string) :
  In s (trimmed_entries incoming) -> trim s = s /\ s <> EmptyString.
Proof.
  unfold trimmed_entries. rewrite filter_In, in_map_iff.
  intros [(entry & <- & _) Ht]. split.
  - destruct entry; try reflexivity. apply trim_idempotent.
  - intros E. rewrite E in Ht. discriminate.
Qed.

Lemma clean_cleaned (incoming : list json) :
  clean incoming <> [] -> cleaned_set (clean incoming).
Proof.
  intros Hne. split; [exact Hne|]. split; [apply set_of_NoDup|].
  apply Forall_forall. intros s Hs. unfold clean in Hs.
  apply (proj1 (set_of_In _ _)) in Hs. exact (trimmed_entries_In _ _ Hs).
Qed.

Lemma length_zero_true {A : Type} (l : list A) :
  l = [] -> (List.length l =? 0) = true.
Proof. now intros ->. Qed.

(** What [PUT /api/tech-stacks] does with anything else. *)
Lemma put_rejects (req_body : option json) (srv : server) :
  (forall incoming, property req_body "techStacks" = Some (JArr incoming) ->
                    clean incoming = []) ->
  fst (put_tech_stacks req_body srv) = srv
  /\ status (snd (put_tech_stacks req_body srv)) = 400.
Proof.
  intros H. unfold put_tech_stacks.
  destruct (property req_body "techStacks") as [v|]; [|now split].
  destruct v as [| | | |incoming|]; try now split.
  rewrite (length_zero_true _ (H incoming eq_refl)). now split.
Qed.

Lemma put_cases (req_body : option json) :
  (exists incoming, property req_body "techStacks" = Some (JArr incoming)
                    /\ clean incoming <> [])
  \/ (forall incoming, property req_body "techStacks" = Some (JArr incoming) ->
                       clean incoming = []).
Proof.
  destruct (property req_body "techStacks") as [v|]; [|right; discriminate].
  destruct v as [| | | |incoming|]; try (right; discriminate).
  destruct (clean incoming) as [|s x] eqn:E.
  - right. intros i [= <-]. exact E.
  - left. exists incoming. split; [reflexivity|]. rewrite E. discriminate.
Qed.

Lemma put_accepts_state (req_body : option json) (incoming : list json)
    (srv : server) :
  property req_body "techStacks" = Some (JArr incoming) ->
  clean incoming <> [] ->
  techStacks (fst (put_tech_stacks req_body srv)) = map JStr (clean incoming)
  /\ (writable (fs srv) = true ->
      fs (fst (put_tech_stacks req_body srv))
      = {| tech_stacks_json := Some (Parses (JArr (map JStr (clean incoming))));
           writable := true |})
  /\ (writable (fs srv) = false ->
      fs (fst (put_tech_stacks req_body srv)) = fs srv).
Proof.
  intros Hreq Hne. rewrite (put_accepts req_body incoming srv Hreq Hne).
  cbn [fst]. unfold writeTechStacksToFile, writeFileSync.
  cbn [fs techStacks errors].
  destruct (writable (fs srv)); cbn [techStacks fs]; repeat split;
    try reflexivity; discriminate.
Qed.

Lemma put_persisted (req_body : option json) (srv : server) :
  persisted srv -> persisted (fst (put_tech_stacks req_body srv)).
Proof.
  intros [W Hc]. destruct (put_cases req_body) as [(incoming & Hreq & Hne)|H].
  - destruct (put_accepts_state req_body incoming srv Hreq Hne)
      as (Ht & Hw & _).
    unfold persisted. rewrite Ht, (Hw W). now split.
  - destruct (put_rejects req_body srv H) as [-> _]. now split.
Qed.

Lemma serve_app (a b : list (option json)) (srv : server) :
  serve (a ++ b) srv = serve b (serve a srv).
Proof. apply fold_left_app. Qed.

End StoreLemmas.

(** X12: every replace request is either accepted or rejected.  It is
    accepted, with status 200 and the cleaned payload as the lexicon in
    memory, exactly when its body has an array under [techStacks] that is
    not empty once cleaned; any other request is rejected with status 400
    and leaves the lexicon, the file and the error console as they were. *)
Theorem put_accepts_or_rejects (req_body : option json) (srv : server) :
  (exists incoming,
      property req_body "techStacks" = Some (JArr incoming)
      /\ clean incoming <> []
      /\ status (snd (put_tech_stacks req_body srv)) = 200
      /\ techStacks (fst (put_tech_stacks req_body srv))
         = map JStr (clean incoming))
  \/ ((forall incoming,
          property req_body "techStacks" = Some (JArr incoming) ->
          clean incoming = [])
      /\ status (snd (put_tech_stacks req_body srv)) = 400
      /\ fst (put_tech_stacks req_body srv) = srv).
Proof.
  destruct (put_cases req_body) as [(incoming & Hreq & Hne)|H].
  - left. exists incoming. split; [exact Hreq|]. split; [exact Hne|].
    split; [|now apply put_accepts_state].
    now rewrite (put_accepts req_body incoming srv Hreq Hne).
  - right. split; [exact H|]. destruct (put_rejects req_body srv H). now split.
Qed.

(** X13: after any run of replace requests the lexicon in memory is the
    one the run started with, or a cleaned label set: not empty, without
    duplicates, every label a trimmed string that is not empty. *)
Theorem serve_lexicon (requests : list (option json)) (srv : server) :
  techStacks (serve requests srv) = techStacks srv
  \/ exists x, cleaned_set x /\ techStacks (serve requests srv) = map JStr x.
Proof.
  induction requests as [|req requests IH] using rev_ind; [now left|].
  rewrite serve_app. cbn [serve fold_left].
  destruct (put_cases req) as [(incoming & Hreq & Hne)|H].
  - right. exists (clean incoming). split; [now apply clean_cleaned|].
    now apply put_accepts_state.
  - destruct (put_rejects req (serve requests srv) H) as [-> _]. exact IH.
Qed.

(** X14: when the file can be written and holds the lexicon that is in
    memory, it still does after any run of replace requests: a restart
    after the run loads the lexicon the run left in memory. *)
Theorem serve_then_restart (requests : list (option json)) (srv : server) :
  writable (fs srv) = true ->
  techStacks (start (fs srv)) = techStacks srv ->
  techStacks (start (fs (serve requests srv)))
  = techStacks (serve requests srv).
Proof.
  intros W Hc.
  assert (H : persisted (serve requests srv)); [|apply H].
  induction requests as [|req requests IH] using rev_ind; [now split|].
  rewrite serve_app. apply put_persisted, IH.
Qed.

Lemma serve_then_restart_witness :
  techStacks
    (start
       (fs (serve [ Some (JObj [("techStacks", JArr [JStr " Go "; JStr "Go"])]);
                    None;
                    Some (JObj [("techStacks", JArr [JNull])]) ]
              (start {| tech_stacks_json := None; writable := true |}))))
  = [JStr "Go"].
Proof.
  rewrite (serve_then_restart
             [ Some (JObj [("techStacks", JArr [JStr " Go "; JStr "Go"])]);
               None;
               Some (JObj [("techStacks", JArr [JNull])]) ]
             (start {| tech_stacks_json := None; writable := true |})
             eq_refl eq_refl).
  reflexivity.
Defined.

(** X15: the replace operation is idempotent.  Sending the body of an
    accepted answer back gives the same answer again, and leaves the
    lexicon in memory and the file as the first request left them. *)
Theorem put_idempotent (req_body : option json) (srv : server) :
  status (snd (put_tech_stacks req_body srv)) = 200 ->
  let srv1 := fst (put_tech_stacks req_body srv) in
  let answer := snd (put_tech_stacks req_body srv) in
  snd (put_tech_stacks (Some (body answer)) srv1) = answer
  /\ techStacks (fst (put_tech_stacks (Some (body answer)) srv1))
     = techStacks srv1
  /\ fs (fst (put_tech_stacks (Some (body answer)) srv1)) = fs srv1.
Proof.
  intros Hs srv1 answer.
  destruct (put_cases req_body) as [(incoming & Hreq & Hne)|H].
  - assert (Ha : answer
                 = res_json 200
                     (JObj [("techStacks", JArr (map JStr (clean incoming)))])).
    { unfold answer. now rewrite (put_accepts req_body incoming srv Hreq Hne). }
    assert (Hreq' : property (Some (body answer)) "techStacks"
                    = Some (JArr (map JStr (clean incoming))))
      by now rewrite Ha.
    assert (Hfix : clean (map JStr (clean incoming)) = clean incoming)
      by now apply clean_fixed, clean_cleaned.
    assert (Hne' : clean (map JStr (clean incoming)) <> [])
      by now rewrite Hfix.
    destruct (put_accepts_state req_body incoming srv Hreq Hne)
      as (Ht & Hw & Hnw).
    destruct (put_accepts_state (Some (body answer)) _ srv1 Hreq' Hne')
      as (Ht' & Hw' & Hnw').
    rewrite (put_accepts (Some (body answer)) _ srv1 Hreq' Hne') at 1.
    cbn [snd]. rewrite Hfix in *. split; [now rewrite Ha|].
    split; [rewrite Ht'; unfold srv1; now rewrite Ht|].
    destruct (writable (fs srv)) eqn:W.
    + assert (W1 : writable (fs srv1) = true)
        by (unfold srv1; now rewrite (Hw eq_refl)).
      rewrite (Hw' W1). unfold srv1. now rewrite (Hw eq_refl).
    + assert (W1 : writable (fs srv1) = false)
        by (unfold srv1; now rewrite (Hnw eq_refl)).
      exact (Hnw' W1).
  - destruct (put_rejects req_body srv H) as [_ H4]. congruence.
Qed.

Lemma put_idempotent_witness :
  snd (put_tech_stacks
         (Some (JObj [("techStacks", JArr [JStr "Go"; JStr "Rust"])]))
         (fst (put_tech_stacks
                 (Some (JObj [("techStacks",
                               JArr [JStr " Go"; JNull; JStr "Rust "])]))
                 (start {| tech_stacks_json := None; writable := false |}))))
  = res_json 200 (JObj [("techStacks", JArr [JStr "Go"; JStr "Rust"])]).
Proof.
  exact (proj1 (put_idempotent
                  (Some (JObj [("techStacks",
                                JArr [JStr " Go"; JNull; JStr "Rust "])]))
                  (start {| tech_stacks_json := None; writable := false |})
                  eq_refl)).
Defined.

(* ================================================================== *)
(** * Texts joined by line feeds, and what occurs in them *)

Section JoinLemmas.

Lemma first_is_sapp (f : ascii -> bool) (a b : string) :
  a <> EmptyString -> first_is f (a +++ b) = first_is f a.
Proof. destruct a; [congruence | reflexivity]. Qed.

Lemma last_is_sapp (f : ascii -> bool) (a b : string) :
  b <> EmptyString -> last_is f (a +++ b) = last_is f b.
Proof.
  intros H. unfold last_is. rewrite srev_app. apply first_is_sapp.
  intros E. apply rev_empty in E. congruence.
Qed.

Lemma before_embedded (pre p : string) :
  last_is is_word p = false -> ends_line pre ->
  last_is is_word (pre +++ p) = false.
Proof.
  intros Hp Hpre. destruct p as [|c p].
  - rewrite sapp_nil_r. destruct Hpre as [->|[q ->]]; [reflexivity|].
    unfold line_feed. now rewrite last_is_app.
  - rewrite last_is_sapp; [exact Hp | discriminate].
Qed.

Lemma after_embedded (s post : string) :
  first_is is_word s = false -> starts_line post ->
  first_is is_word (s +++ post) = false.
Proof.
  intros Hs Hpost. destruct s as [|c s]; [|exact Hs].
  destruct Hpost as [->|[q ->]]; reflexivity.
Qed.

Lemma before_restricted (pre p : string) :
  last_is is_word (pre +++ p) = false -> last_is is_word p = false.
Proof.
  destruct p as [|c p]; [reflexivity|].
  rewrite last_is_sapp; [auto | discriminate].
Qed.

Lemma after_restricted (s post : string) :
  first_is is_word (s +++ post) = false -> first_is is_word s = false.
Proof. destruct s; [reflexivity | auto]. Qed.

Lemma join_cons (x y : string) (r : list string) :
  join line_feed (x :: y :: r) = x +++ line_feed +++ join line_feed (y :: r).
Proof. reflexivity. Qed.

(** An element of a join stands between line feeds. *)
Lemma join_In_split (xs : list string) (x : string) :
  In x xs ->
  exists pre post, join line_feed xs = pre +++ x +++ post
                   /\ ends_line pre /\ starts_line post.
Proof.
  induction xs as [|x0 xs IH]; [intros []|].
  destruct xs as [|y r].
  - intros [<-|[]]. exists EmptyString, EmptyString.
    split; [now rewrite sapp_nil_r|]. split; now left.
  - intros [<-|H].
    + exists EmptyString, (line_feed +++ join line_feed (y :: r)).
      split; [reflexivity|]. split; [now left | right; eauto].
    + destruct (IH H) as (pre & post & E & Hpre & Hpost).
      exists (x0 +++ line_feed +++ pre), post. rewrite join_cons, E.
      split; [now rewrite !sapp_assoc|]. split; [|exact Hpost].
      right. destruct Hpre as [->|[q ->]].
      * exists x0. now rewrite sapp_nil_r.
      * exists (x0 +++ line_feed +++ q). now rewrite !sapp_assoc.
Qed.

Lemma sapp_split (a b c d : string) :
  a +++ b = c +++ d ->
  (exists k, c = a +++ k /\ b = k +++ d)
  \/ (exists k, a = c +++ k /\ d = k +++ b).
Proof.
  revert c. induction a as [|x a IH]; intros c H.
  - left. exists c. now split.
  - destruct c as [|y c].
    + right. exists (String x a). now split.
    + simpl in H. injection H as <- H. destruct (IH c H) as [[k [-> ->]]|[k [-> ->]]].
      * left. exists k. now split.
      * right. exists k. now split.
Qed.

Lemma has_char_app (f : ascii -> bool) (a b : string) :
  has_char f (a +++ b) = has_char f a || has_char f b.
Proof.
  induction a as [|c a IH]; [reflexivity|]. simpl. now rewrite IH, orb_assoc.
Qed.

(** A text without line feed that occurs in a join occurs in one of the
    joined texts. *)
Lemma join_occurrence (xs : list string) :
  forall p m s,
    join line_feed xs = p +++ m +++ s ->
    m <> EmptyString -> has_char is_line_feed m = false ->
    exists x p' s' pre post,
      In x xs /\ x = p' +++ m +++ s' /\ p = pre +++ p' /\ s = s' +++ post.
Proof.
  induction xs as [|x0 xs IH]; intros p m s E Hm Hnl.
  - destruct p, m; simpl in E; try discriminate. congruence.
  - destruct xs as [|y r].
    + exists x0, p, s, EmptyString, EmptyString.
      split; [now left|]. split; [exact E|]. now rewrite sapp_nil_r.
    + rewrite join_cons in E. apply sapp_split in E.
      destruct E as [[k [-> E]]|[k [-> E]]].
      * destruct k as [|c k].
        -- destruct m as [|c m]; [congruence|]. simpl in E.
           injection E as <- _. simpl in Hnl. discriminate.
        -- simpl in E. injection E as <- E.
           destruct (IH _ _ _ E Hm Hnl)
             as (x & p' & s' & pre & post & Hx & Ex & -> & ->).
           exists x, p', s', (x0 +++ line_feed +++ pre), post.
           split; [now right|]. split; [exact Ex|].
           split; [now rewrite !sapp_assoc | reflexivity].
      * apply sapp_split in E. destruct E as [[k2 [-> E]]|[k2 [Em E]]].
        -- exists (p +++ m +++ k2), p, k2, EmptyString,
             (line_feed +++ join line_feed (y :: r)).
           split; [now left|]. split; [reflexivity|].
           split; [reflexivity | exact E].
        -- destruct k2 as [|c k2].
           ++ rewrite sapp_nil_r in Em. subst k. simpl in E.
              exists (p +++ m), p, EmptyString, EmptyString, s.
              split; [now left|]. rewrite !sapp_nil_r.
              repeat split; reflexivity.
           ++ simpl in E. injection E as <- _. subst m.
              rewrite has_char_app in Hnl. simpl in Hnl.
              apply orb_false_elim in Hnl. destruct Hnl. discriminate.
Qed.

Lemma delimited_joined (w : string) (xs : list string) (x : string) :
  In x xs -> delimited w x -> delimited w (join line_feed xs).
Proof.
  intros Hx (p & s & -> & Hp & Hs).
  destruct (join_In_split xs _ Hx) as (pre & post & E & Hpre & Hpost).
  exists (pre +++ p), (s +++ post). rewrite E.
  split; [now rewrite !sapp_assoc|].
  split; [now apply before_embedded | now apply after_embedded].
Qed.

Lemma delimited_in_one (w : string) (xs : list string) :
  w <> EmptyString -> has_char is_line_feed w = false ->
  delimited w (join line_feed xs) ->
  exists x, In x xs /\ delimited w x.
Proof.
  intros Hw Hnl (p & s & E & Hp & Hs).
  destruct (join_occurrence xs _ _ _ E Hw Hnl)
    as (x & p' & s' & pre & post & Hx & Ex & -> & ->).
  exists x. split; [exact Hx|]. exists p', s'. split; [exact Ex|].
  split; [exact (before_restricted _ _ Hp) | exact (after_restricted _ _ Hs)].
Qed.

Lemma whole_word_delimited (w blob : string) :
  whole_word w blob
  <-> exists m, str_match true w m = true /\ delimited m blob.
Proof.
  split.
  - intros (p & m & s & E & Hm & Hp & Hs). exists m. split; [exact Hm|].
    exists p, s. auto.
  - intros (m & Hm & p & s & E & Hp & Hs). exists p, m, s. auto.
Qed.

Lemma negated_remote_delimited (blob : string) :
  negated_remote blob
  <-> exists n sep m,
        (str_match true "no" n = true \/ str_match true "not" n = true
         \/ str_match true "non" n = true)
        /\ optional_separator sep /\ str_match true "remote" m = true
        /\ delimited (n +++ sep +++ m) blob.
Proof.
  split.
  - intros (p & n & sep & m & s & E & Hn & Hsep & Hm & Hp & Hs).
    exists n, sep, m. split; [exact Hn|]. split; [exact Hsep|].
    split; [exact Hm|]. exists p, s. rewrite !sapp_assoc. auto.
  - intros (n & sep & m & Hn & Hsep & Hm & p & s & E & Hp & Hs).
    exists p, n, sep, m, s. rewrite !sapp_assoc in E. repeat split; auto.
Qed.

Lemma line_feed_only (a : ascii) :
  char_eq true a "010" = true -> a = "010"%char.
Proof. ascii_cases a; vm_compute; congruence. Qed.

Lemma str_match_no_line_feed (w m : string) :
  str_match true w m = true -> has_char is_line_feed w = false ->
  has_char is_line_feed m = false.
Proof.
  revert m. induction w as [|a w IH]; intros [|b m] H Hw; try discriminate;
    [reflexivity|].
  simpl in H. apply andb_prop in H. destruct H as [Hc H].
  simpl in Hw. apply orb_false_elim in Hw. destruct Hw as [Ha Hw].
  simpl. rewrite (IH m H Hw), orb_false_r.
  unfold is_line_feed in *. destruct (Ascii.eqb "010" b) eqn:Eb; [|reflexivity].
  apply Ascii.eqb_eq in Eb. subst b. apply line_feed_only in Hc. subst a.
  discriminate.
Qed.

Lemma str_match_not_empty (w m : string) :
  str_match true w m = true -> w <> EmptyString -> m <> EmptyString.
Proof. destruct w, m; simpl; congruence. Qed.

(** A whole-word occurrence in one of the joined texts is one in the join,
    and, for a word without line feed, the other way round. *)
Lemma whole_word_joined (w : string) (xs : list string) :
  w <> EmptyString -> has_char is_line_feed w = false ->
  (whole_word w (join line_feed xs) <-> exists x, In x xs /\ whole_word w x).
Proof.
  intros Hw Hnl. split.
  - intros H. apply whole_word_delimited in H. destruct H as (m & Hm & H).
    apply delimited_in_one in H.
    + destruct H as (x & Hx & H). exists x. split; [exact Hx|].
      apply whole_word_delimited. eauto.
    + exact (str_match_not_empty _ _ Hm Hw).
    + exact (str_match_no_line_feed _ _ Hm Hnl).
  - intros (x & Hx & H). apply whole_word_delimited in H.
    destruct H as (m & Hm & H). apply whole_word_delimited. exists m.
    split; [exact Hm|]. exact (delimited_joined _ _ _ Hx H).
Qed.

Lemma negated_remote_joined (xs : list string) (x : string) :
  In x xs -> negated_remote x -> negated_remote (join line_feed xs).
Proof.
  intros Hx H. apply negated_remote_delimited in H.
  destruct H as (n & sep & m & Hn & Hsep & Hm & H).
  apply negated_remote_delimited. exists n, sep, m.
  split; [exact Hn|]. split; [exact Hsep|]. split; [exact Hm|].
  exact (delimited_joined _ _ _ Hx H).
Qed.

Lemma present_In (values : list maybe_string) (x : string) :
  In x (present values) <-> In (Some x) values /\ x <> EmptyString.
Proof.
  unfold present. rewrite in_flat_map. split.
  - intros ([s|] & Hv & Hx); [|destruct Hx].
    destruct s as [|c s]; [destruct Hx|]. destruct Hx as [<-|[]].
    split; [exact Hv | discriminate].
  - intros [Hv Hx]. exists (Some x). split; [exact Hv|].
    destruct x; [congruence | now left].
Qed.

Lemma whole_word_not_empty (w x : string) :
  w <> EmptyString -> whole_word w x -> x <> EmptyString.
Proof.
  intros Hw (p & m & s & -> & Hm & _).
  pose proof (str_match_not_empty _ _ Hm Hw) as Hne.
  destruct p, m; simpl; congruence.
Qed.

Lemma negated_remote_not_empty (x : string) :
  negated_remote x -> x <> EmptyString.
Proof.
  intros (p & n & sep & m & s & -> & _ & _ & Hm & _).
  assert (Hne : m <> EmptyString)
    by (apply (str_match_not_empty "remote" m Hm); discriminate).
  destruct p, n, sep, m; simpl; congruence.
Qed.

Lemma join_present_join (values : list maybe_string) :
  join_present values = join line_feed (present values).
Proof. reflexivity. Qed.

(** Whole words of the present values are the whole words of their join. *)
Lemma whole_word_present (w : string) (values : list maybe_string) :
  w <> EmptyString -> has_char is_line_feed w = false ->
  (whole_word w (join_present values)
   <-> exists src, In (Some src) values /\ whole_word w src).
Proof.
  intros Hw Hnl. rewrite join_present_join, (whole_word_joined _ _ Hw Hnl).
  split.
  - intros (x & Hx & H). apply present_In in Hx. exists x. tauto.
  - intros (x & Hx & H). exists x. split; [|exact H].
    apply present_In. split; [exact Hx|].
    exact (whole_word_not_empty _ _ Hw H).
Qed.

End JoinLemmas.

(* ================================================================== *)
(** * The job handler: what the fields of the payload are made of *)

Section HandlerLemmas.

Lemma extractText_trim (s : string) : extractText (Some s) = trim s.
Proof. destruct s; reflexivity. Qed.

Lemma pickFirst_In (values : list maybe_string) (s : string) :
  pickFirst values = Some s -> In (Some s) values /\ s <> EmptyString.
Proof.
  induction values as [|v values IH]; [discriminate|]. simpl.
  destruct v as [[|c v]|]; simpl.
  - intros H. destruct (IH H). auto.
  - intros [= <-]. split; [now left | discriminate].
  - intros H. destruct (IH H). auto.
Qed.




Lemma classify_negated (blob : string) (hints : list string) :
  negated_remote blob -> classify blob hints = not_remote hints.
Proof.
  intros H. apply hasNegativeRemote_iff in H. unfold classify.
  rewrite H, andb_false_r. reflexivity.
Qed.

Lemma classify_Remote (blob : string) (hints : list string) :
  classify blob hints = "Remote"
  <-> whole_word "remote" blob /\ ~ negated_remote blob.
Proof.
  rewrite <- hasPositiveRemote_iff, <- hasNegativeRemote_iff.
  unfold classify. pose proof (not_remote_is_not_Remote hints) as Hnot.
  unfold not_remote in Hnot.
  destruct (hasPositiveRemote blob), (hasNegativeRemote blob); simpl;
    split; try tauto; try (intros [? ?]; congruence).
  intros _. split; [reflexivity | discriminate].
Qed.

Lemma join_head (y : string) (r : list string) :
  exists post, join line_feed (y :: r) = y +++ post /\ starts_line post.
Proof.
  destruct r as [|z r].
  - exists EmptyString. split; [now rewrite sapp_nil_r | now left].
  - exists (line_feed +++ join line_feed (z :: r)).
    split; [reflexivity | right; eauto].
Qed.


End HandlerLemmas.

(** X16: the fields of the payload are well formed for every document and
    lexicon.  The title is not empty and has no whitespace at its ends: it
    is the placeholder or the trimmed text of one of its three sources.
    The location is "Remote" or the answer for a posting that is not
    remote.  The tech stacks are not empty and have no duplicate. *)
Theorem job_payload_wellformed (lexicon : list json) (doc : node) :
  title (job lexicon doc) <> EmptyString
  /\ trim (title (job lexicon doc)) = title (job lexicon doc)
  /\ (title (job lexicon doc) = "Untitled role"
      \/ exists src,
           In (Some src)
             [Some (h1Title_of doc); ogTitle_of doc; Some (pageTitle_of doc)]
           /\ src <> EmptyString
           /\ title (job lexicon doc) = trim src)
  /\ (location (job lexicon doc) = "Remote"
      \/ location (job lexicon doc) = not_remote (extractLocationHints doc))
  /\ stacks (job lexicon doc) <> []
  /\ NoDup (stacks (job lexicon doc)).
Proof.
  cbn [job title location stacks].
  assert (Ht : title_of doc = "Untitled role"
               \/ exists src,
                    In (Some src)
                      [Some (h1Title_of doc); ogTitle_of doc;
                       Some (pageTitle_of doc)]
                    /\ src <> EmptyString
                    /\ title_of doc = trim src /\ trim src <> EmptyString).
  { unfold title_of, or_else.
    destruct (pickFirst [Some (h1Title_of doc); ogTitle_of doc;
                         Some (pageTitle_of doc)]) as [s|] eqn:P.
    - rewrite extractText_trim. destruct (trim s) as [|c t] eqn:T.
      + now left.
      + right. apply pickFirst_In in P. destruct P as [Hin Hs].
        exists s. rewrite T. repeat split; auto. discriminate.
    - now left. }
  split; [|split; [|split; [|split; [|split]]]].
  - destruct Ht as [->|(src & _ & _ & -> & H)]; [discriminate | exact H].
  - destruct Ht as [->|(src & _ & _ & -> & _)];
      [reflexivity | apply trim_idempotent].
  - destruct Ht as [H|(src & H1 & H2 & H3 & _)]; [now left | right; eauto].
  - unfold location_of, classify, not_remote.
    destruct (hasPositiveRemote (textForRemoteScan doc)
              && negb (hasNegativeRemote (textForRemoteScan doc))); auto.
  - destruct (collectKeywords lexicon doc (textForStacksScan doc));
      discriminate.
  - destruct (collectKeywords_members lexicon doc (textForStacksScan doc))
      as (ND & _).
    destruct (collectKeywords lexicon doc (textForStacksScan doc)) as [|k ks];
      [|exact ND].
    simpl. constructor; [intros [] | constructor].
Qed.

(** X17: the company of the payload is absent or a text that is not empty
    and has no whitespace at its ends.  It is the trimmed [og:site_name]
    content when that is not blank; a blank one gives way to the trimmed
    text of the first element with a [data-company-name] attribute; when
    both are blank the field is absent. *)
Theorem company_spec (doc : node) :
  (forall c, company_of doc = Some c -> c <> EmptyString /\ trim c = c)
  /\ (trim (og_site_name doc) <> EmptyString ->
      company_of doc = Some (trim (og_site_name doc)))
  /\ (trim (og_site_name doc) = EmptyString ->
      trim (company_element_text doc) <> EmptyString ->
      company_of doc = Some (trim (company_element_text doc)))
  /\ (trim (og_site_name doc) = EmptyString ->
      trim (company_element_text doc) = EmptyString ->
      company_of doc = None).
Proof.
  assert (E : company_text doc
              = or_else (trim (og_site_name doc))
                  (trim (company_element_text doc))).
  { unfold company_text. now rewrite !extractText_trim. }
  unfold company_of. rewrite E. unfold or_else.
  split; [|split; [|split]].
  - intros c.
    destruct (trim (og_site_name doc)) as [|a s] eqn:A; cbn [is_empty].
    + destruct (trim (company_element_text doc)) as [|b t] eqn:B;
        cbn [is_empty]; [discriminate|].
      intros [= <-]. split; [discriminate|]. rewrite <- B.
      apply trim_idempotent.
    + intros [= <-]. split; [discriminate|]. rewrite <- A.
      apply trim_idempotent.
  - destruct (trim (og_site_name doc)); [congruence | reflexivity].
  - intros ->. cbn [is_empty].
    destruct (trim (company_element_text doc)); [congruence | reflexivity].
  - intros -> ->. reflexivity.
Qed.

Lemma company_spec_witness :
  company_of
    (page [Element "meta" [("property", "og:site_name"); ("content", "  ")] []]
          [Element "span" [("data-company-name", "acme")] [Text " Acme Corp "]])
  = Some "Acme Corp".
Proof.
  exact (proj1 (proj2 (proj2
           (company_spec
              (page [Element "meta"
                       [("property", "og:site_name"); ("content", "  ")] []]
                    [Element "span" [("data-company-name", "acme")]
                       [Text " Acme Corp "]]))))
           eq_refl ltac:(discriminate)).
Defined.

(** X18: what one source says about remote work decides the location.  A
    negated "remote" in any of the texts the handler joins makes the
    posting not remote; a whole-word "remote" in any of them makes it
    "Remote" when the joined text has no negated one. *)
Theorem location_from_a_source (doc : node) (src : string) :
  In (Some src) (remote_sources doc) ->
  (negated_remote src ->
   location_of doc = not_remote (extractLocationHints doc))
  /\ (whole_word "remote" src ->
      ~ negated_remote (textForRemoteScan doc) ->
      location_of doc = "Remote").
Proof.
  intros Hs. unfold location_of. split.
  - intros H. apply classify_negated.
    change (textForRemoteScan doc) with (join_present (remote_sources doc)).
    rewrite join_present_join. apply (negated_remote_joined _ src); [|exact H].
    apply present_In. split; [exact Hs|].
    exact (negated_remote_not_empty _ H).
  - intros H Hn. apply classify_Remote. split; [|exact Hn].
    change (textForRemoteScan doc) with (join_present (remote_sources doc)).
    apply whole_word_present; [discriminate | reflexivity|]. eauto.
Qed.

Lemma location_from_a_source_witness :
  location_of
    (page [Element "meta" [("name", "description");
                           ("content", "This is a non-remote role")] []]
          [Element "h1" [] [Text "Remote engineer"]])
  = "Not Remote".
Proof.
  apply (proj1 (location_from_a_source
                  (page [Element "meta" [("name", "description");
                                         ("content", "This is a non-remote role")] []]
                        [Element "h1" [] [Text "Remote engineer"]])
                  "This is a non-remote role"
                  (or_intror (or_introl eq_refl)))).
  exists "This is a ", "non", "-", "remote", " role".
  split; [reflexivity|]. split; [right; right; reflexivity|].
  split; [right; exists "-"%char; split; [reflexivity | now left]|].
  split; [reflexivity|]. split; reflexivity.
Defined.

(** X19: a posting is "Remote" only when one of the texts the handler
    joins, taken alone, has a whole-word "remote". *)
Theorem Remote_needs_a_source (doc : node) :
  location_of doc = "Remote" ->
  exists src, In (Some src) (remote_sources doc) /\ whole_word "remote" src.
Proof.
  intros H. apply classify_Remote in H. destruct H as [H _].
  change (textForRemoteScan doc) with (join_present (remote_sources doc)) in H.
  apply whole_word_present in H; [exact H | discriminate | reflexivity].
Qed.

Lemma Remote_needs_a_source_witness :
  exists src,
    In (Some src)
      (remote_sources (page [] [Element "p" [] [Text "Fully remote"]]))
    /\ whole_word "remote" src.
Proof.
  exact (Remote_needs_a_source (page [] [Element "p" [] [Text "Fully remote"]])
           eq_refl).
Defined.

(** X20: the join of the texts can make a negation no text has.  When the
    body text ends with a whole-word "no", "not" or "non" and the meta
    description begins with "remote" as a whole word, the line feed
    between them is the separator of the negation pattern, and the posting
    is not remote. *)
Theorem negation_across_sources (doc : node) (p n m s : string) :
  pageText_of doc = p +++ n ->
  metaDescription_of doc = Some (m +++ s) ->
  str_match true "no" n = true \/ str_match true "not" n = true
  \/ str_match true "non" n = true ->
  str_match true "remote" m = true ->
  last_is is_word p = false -> first_is is_word s = false ->
  location_of doc = not_remote (extractLocationHints doc).
Proof.
  intros Hp Hd Hn Hm Hb Ha. unfold location_of. apply classify_negated.
  assert (Hne : n <> EmptyString).
  { destruct Hn as [H|[H|H]];
      apply (str_match_not_empty _ _ H); discriminate. }
  assert (Hme : m <> EmptyString)
    by (apply (str_match_not_empty _ _ Hm); discriminate).
  unfold textForRemoteScan. rewrite Hp, Hd, join_present_join.
  assert (Hpres : forall rest,
            present (Some (p +++ n) :: Some (m +++ s) :: rest)
            = (p +++ n) :: (m +++ s) :: present rest).
  { intros rest. unfold present. cbn [flat_map].
    destruct (p +++ n) eqn:E1; [destruct p, n; simpl in E1; congruence|].
    destruct (m +++ s) eqn:E2; [destruct m; simpl in E2; congruence|].
    reflexivity. }
  rewrite Hpres, join_cons.
  destruct (join_head (m +++ s) (present
              [ogDescription_of doc; Some (h1Title_of doc); ogTitle_of doc;
               Some (pageTitle_of doc); Some (script_text doc)]))
    as (post & -> & Hpost).
  exists p, n, line_feed, m, (s +++ post).
  split; [now rewrite !sapp_assoc|]. split; [exact Hn|].
  split; [right; exists "010"%char; split; [reflexivity | now right]|].
  split; [exact Hm|]. split; [exact Hb|].
  now apply after_embedded.
Qed.

Lemma negation_across_sources_witness :
  location_of
    (page [Element "meta" [("name", "description");
                           ("content", "Remote team, flexible hours")] []]
          [Element "h1" [] [Text "Engineer"];
           Element "p" [] [Text ". Office or not"]])
  = "Not Remote".
Proof.
  exact (negation_across_sources
           (page [Element "meta" [("name", "description");
                                  ("content", "Remote team, flexible hours")] []]
                 [Element "h1" [] [Text "Engineer"];
                  Element "p" [] [Text ". Office or not"]])
           "Engineer. Office or " "not" "Remote" " team, flexible hours"
           eq_refl eq_refl (or_intror (or_introl eq_refl)) eq_refl
           eq_refl eq_refl).
Defined.



(* ================================================================== *)
(** * The client: what the modal sends, and what it reads back *)

Section ClientLemmas.

Lemma split_on_not_nil (sep : ascii -> bool) (s : string) :
  split_on sep s <> [].
Proof.
  induction s as [|c s IH]; simpl; [discriminate|].
  destruct (sep c); [discriminate|].
  destruct (split_on sep s); discriminate.
Qed.

Lemma split_on_plain (sep : ascii -> bool) (s : string) :
  has_char sep s = false -> split_on sep s = [s].
Proof.
  induction s as [|c s IH]; simpl; [reflexivity|]. intros H.
  apply orb_false_elim in H. destruct H as [Hc H].
  now rewrite Hc, (IH H).
Qed.

Lemma split_on_app (sep : ascii -> bool) (s : string) (c : ascii)
    (rest : string) :
  has_char sep s = false -> sep c = true ->
  split_on sep (s +++ String c rest) = s :: split_on sep rest.
Proof.
  intros Hs Hc. induction s as [|a s IH]; simpl.
  - now rewrite Hc.
  - simpl in Hs. apply orb_false_elim in Hs. destruct Hs as [Ha Hs].
    now rewrite Ha, (IH Hs).
Qed.

(** Splitting the join of texts without separator gives the texts back. *)
Lemma split_on_join (x : list string) :
  Forall (fun s => has_char modal_separator s = false) x -> x <> [] ->
  split_on modal_separator (join line_feed x) = x.
Proof.
  induction 1 as [|s x Hs Hx IH]; [congruence|]. intros _.
  destruct x as [|y r].
  - now apply split_on_plain.
  - rewrite join_cons. unfold line_feed at 1.
    change (String "010" EmptyString +++ join line_feed (y :: r))
      with (String "010" (join line_feed (y :: r))).
    rewrite (split_on_app modal_separator s "010" _ Hs eq_refl), IH;
      [reflexivity | discriminate].
Qed.

Lemma split_on_pieces (sep : ascii -> bool) (s : string) :
  Forall (fun piece => has_char sep piece = false) (split_on sep s).
Proof.
  induction s as [|c s IH]; simpl; [now repeat constructor|].
  destruct (sep c) eqn:Hc; [now constructor|].
  destruct (split_on sep s) as [|piece rest].
  - constructor; [simpl; now rewrite Hc | constructor].
  - inversion IH as [|? ? Hp Hr]; subst.
    constructor; [simpl; now rewrite Hc, Hp | exact Hr].
Qed.

Lemma has_char_trim (f : ascii -> bool) (s : string) :
  has_char f s = false -> has_char f (trim s) = false.
Proof.
  intros H. destruct (trim_substring s) as (a & b & E).
  rewrite E, !has_char_app in H.
  apply orb_false_elim in H. destruct H as [_ H].
  apply orb_false_elim in H. now destruct H.
Qed.

Lemma modal_entries_In (input s : string) :
  In s (modal_entries input) ->
  trim s = s /\ s <> EmptyString /\ has_char modal_separator s = false.
Proof.
  unfold modal_entries. rewrite filter_In, in_map_iff.
  intros [(piece & <- & Hp) Hne]. split; [apply trim_idempotent|]. split.
  - intros E. rewrite E in Hne. discriminate.
  - apply has_char_trim.
    exact (proj1 (Forall_forall _ _) (split_on_pieces _ input) _ Hp).
Qed.

Lemma unique_entries_safe (input : string) :
  modal_safe (unique_entries input).
Proof.
  split; [apply set_of_NoDup|]. apply Forall_forall. intros s Hs.
  unfold unique_entries in Hs. apply (proj1 (set_of_In _ _)) in Hs.
  exact (modal_entries_In _ _ Hs).
Qed.

Lemma modal_safe_cleaned (x : list string) :
  modal_safe x -> x <> [] -> cleaned_set x.
Proof.
  intros [ND H] Hne. split; [exact Hne|]. split; [exact ND|].
  eapply Forall_impl; [|exact H]. intros s (Ht & Hs & _). now split.
Qed.

Lemma map_fixed (x : list string) :
  Forall (fun s => trim s = s) x -> map trim x = x.
Proof. induction 1 as [|s x Hs _ IH]; simpl; [reflexivity|]. now rewrite Hs, IH. Qed.

Lemma filter_all {A : Type} (f : A -> bool) (x : list A) :
  Forall (fun a => f a = true) x -> filter f x = x.
Proof. induction 1 as [|a x Ha _ IH]; simpl; [reflexivity|]. now rewrite Ha, IH. Qed.

(** The entries of a text the modal shows for a safe lexicon are the
    lexicon. *)
Lemma unique_entries_join (x : list string) :
  modal_safe x -> unique_entries (join line_feed x) = x.
Proof.
  intros [ND H]. unfold unique_entries, modal_entries.
  destruct x as [|s x]; [reflexivity|].
  rewrite split_on_join; [|eapply Forall_impl; [|exact H]; now intros ? (_ & _ & ?) | discriminate].
  rewrite map_fixed; [|eapply Forall_impl; [|exact H]; now intros ? (? & _ & _)].
  rewrite filter_all; [now apply set_of_fixed|].
  eapply Forall_impl; [|exact H]. intros a (_ & Ha & _).
  destruct a; [congruence | reflexivity].
Qed.

Lemma join_stacks_labels (x : list string) :
  join_stacks (map JStr x) = join line_feed x.
Proof.
  unfold join_stacks. rewrite map_map. f_equal. apply map_id.
Qed.

Lemma split_on_keeps (sep g : ascii -> bool) (s : string) :
  has_char g s = false ->
  Forall (fun piece => has_char g piece = false) (split_on sep s).
Proof.
  induction s as [|c s IH]; simpl; [now repeat constructor|]. intros H.
  apply orb_false_elim in H. destruct H as [Hc H]. specialize (IH H).
  destruct (sep c); [now constructor|].
  destruct (split_on sep s) as [|piece rest].
  - constructor; [simpl; now rewrite Hc | constructor].
  - inversion IH as [|? ? Hp Hr]; subst.
    constructor; [simpl; now rewrite Hc, Hp | exact Hr].
Qed.

Lemma trim_blank (s : string) :
  has_char (fun c => negb (is_space c)) s = false -> trim s = EmptyString.
Proof.
  intros H. unfold trim.
  assert (E : trimStart s = EmptyString); [|now rewrite E].
  induction s as [|c s IH]; [reflexivity|]. simpl in *.
  apply orb_false_elim in H. destruct H as [Hc H].
  apply negb_false_iff in Hc. rewrite Hc. now apply IH.
Qed.

Lemma has_char_both (f g : ascii -> bool) (s : string) :
  has_char (fun c => negb (f c || g c)) s = false ->
  has_char f s = false ->
  has_char (fun c => negb (g c)) s = false.
Proof.
  induction s as [|c s IH]; [reflexivity|]. simpl. intros H1 H2.
  apply orb_false_elim in H1. destruct H1 as [Hc H1].
  apply orb_false_elim in H2. destruct H2 as [Hf H2].
  rewrite (IH H1 H2), orb_false_r. rewrite Hf in Hc. exact Hc.
Qed.

(** A blank input has no entry. *)
Lemma blank_input_entries (input : string) :
  blank_input input -> unique_entries input = [].
Proof.
  intros H. unfold unique_entries, modal_entries.
  assert (E : filter (fun entry => negb (is_empty entry))
                (map trim (split_on modal_separator input)) = []);
    [|now rewrite E].
  pose proof (split_on_keeps modal_separator _ input H) as H1.
  pose proof (split_on_pieces modal_separator input) as H2.
  induction (split_on modal_separator input) as [|piece rest IH];
    [reflexivity|].
  inversion H1 as [|? ? Hp1 Hr1]; inversion H2 as [|? ? Hp2 Hr2]; subst.
  simpl. rewrite (trim_blank piece (has_char_both _ _ _ Hp1 Hp2)). simpl.
  now apply IH.
Qed.

(** What [handleSaveTechStacks] does with an input that has entries, when
    the server can be reached. *)
Lemma handleSave_accepted (srv : server) (ui : modal) :
  unique_entries (techModalInput ui) <> [] ->
  handleSaveTechStacks true srv ui
  = (writeTechStacksToFile (map JStr (unique_entries (techModalInput ui)))
       {| techStacks := map JStr (unique_entries (techModalInput ui));
          fs := fs srv; errors := errors srv |},
     {| savedTechStacks := map JStr (unique_entries (techModalInput ui));
        techModalInput := join line_feed (unique_entries (techModalInput ui)) |}).
Proof.
  intros Hne. unfold handleSaveTechStacks.
  pose proof (unique_entries_safe (techModalInput ui)) as Hsafe.
  pose proof (clean_fixed _ (modal_safe_cleaned _ Hsafe Hne)) as Hfix.
  set (u := unique_entries (techModalInput ui)) in *.
  assert (Hlen : (0 <? List.length u) = true)
    by (destruct u; [congruence | reflexivity]).
  rewrite Hlen.
  assert (Hne' : clean (map JStr u) <> []) by now rewrite Hfix.
  rewrite (put_accepts (Some (JObj [("techStacks", JArr (map JStr u))]))
             (map JStr u) srv eq_refl Hne').
  rewrite Hfix.
  change (ok (res_json 200 (JObj [("techStacks", JArr (map JStr u))])))
    with true.
  cbv iota.
  change (stacks_of
            (body (res_json 200 (JObj [("techStacks", JArr (map JStr u))])))
            (map JStr u))
    with (Return (map JStr u)).
  cbv iota.
  now rewrite join_stacks_labels.
Qed.

Lemma writeTechStacksToFile_lexicon (stacks : list json) (srv : server) :
  techStacks (writeTechStacksToFile stacks srv) = techStacks srv.
Proof.
  unfold writeTechStacksToFile. destruct (writeFileSync (fs srv) _); reflexivity.
Qed.

End ClientLemmas.

(** X22: the entries the modal sends are already what the server would
    make of them: no duplicate, every entry trimmed, not empty, and free of
    commas and line feeds; the cleaning of the replace operation leaves
    them as they are. *)
Theorem client_entries_already_clean (input : string) :
  modal_safe (unique_entries input)
  /\ clean (map JStr (unique_entries input)) = unique_entries input.
Proof.
  pose proof (unique_entries_safe input) as Hsafe. split; [exact Hsafe|].
  destruct (unique_entries input) as [|s x] eqn:E; [reflexivity|].
  apply clean_fixed, modal_safe_cleaned; [exact Hsafe | discriminate].
Qed.

(** X23: saving from the modal, when the input has an entry at least and
    the server can be reached, makes the entries of the input the lexicon
    of the server, the saved stacks of the modal, and, one per line, the
    text of the input. *)
Theorem handleSave_stores_entries (srv : server) (ui : modal) :
  unique_entries (techModalInput ui) <> [] ->
  techStacks (fst (handleSaveTechStacks true srv ui))
  = map JStr (unique_entries (techModalInput ui))
  /\ savedTechStacks (snd (handleSaveTechStacks true srv ui))
     = map JStr (unique_entries (techModalInput ui))
  /\ techModalInput (snd (handleSaveTechStacks true srv ui))
     = join line_feed (unique_entries (techModalInput ui)).
Proof.
  intros Hne. rewrite (handleSave_accepted srv ui Hne). cbn [fst snd].
  rewrite writeTechStacksToFile_lexicon. now repeat split.
Qed.

Lemma handleSave_stores_entries_witness :
  techStacks
    (fst (handleSaveTechStacks true
            (start {| tech_stacks_json := None; writable := true |})
            {| savedTechStacks := [];
               techModalInput := "Go, Rust" +++ line_feed +++ " Go " |}))
  = [JStr "Go"; JStr "Rust"].
Proof.
  exact (proj1 (handleSave_stores_entries
                  (start {| tech_stacks_json := None; writable := true |})
                  {| savedTechStacks := [];
                     techModalInput := "Go, Rust" +++ line_feed +++ " Go " |}
                  ltac:(discriminate))).
Defined.

(** X24: an input of the modal that is made of commas, line feeds and
    whitespace only is never sent, and neither is anything when the server
    cannot be reached: the server stays as it is and the text of the input
    stays as typed; after a blank input the saved stacks of the modal are
    empty. *)
Theorem handleSave_without_request (reachable : bool) (srv : server)
    (ui : modal) :
  blank_input (techModalInput ui) \/ reachable = false ->
  fst (handleSaveTechStacks reachable srv ui) = srv
  /\ techModalInput (snd (handleSaveTechStacks reachable srv ui))
     = techModalInput ui
  /\ savedTechStacks (snd (handleSaveTechStacks reachable srv ui))
     = map JStr (unique_entries (techModalInput ui))
  /\ (blank_input (techModalInput ui) ->
      savedTechStacks (snd (handleSaveTechStacks reachable srv ui)) = []).
Proof.
  intros H.
  assert (E : handleSaveTechStacks reachable srv ui
              = (srv, {| savedTechStacks :=
                           map JStr (unique_entries (techModalInput ui));
                         techModalInput := techModalInput ui |})).
  { unfold handleSaveTechStacks. destruct H as [H| ->].
    - now rewrite (blank_input_entries _ H).
    - destruct (0 <? List.length (unique_entries (techModalInput ui)));
        reflexivity. }
  rewrite E. cbn [fst snd techModalInput savedTechStacks].
  repeat split. intros Hb. now rewrite (blank_input_entries _ Hb).
Qed.

Lemma handleSave_without_request_witness :
  fst (handleSaveTechStacks true
         (start {| tech_stacks_json := None; writable := true |})
         {| savedTechStacks := [JStr "Go"]; techModalInput := " , ," |})
  = start {| tech_stacks_json := None; writable := true |}.
Proof.
  exact (proj1 (handleSave_without_request true
                  (start {| tech_stacks_json := None; writable := true |})
                  {| savedTechStacks := [JStr "Go"]; techModalInput := " , ," |}
                  (or_introl eq_refl))).
Defined.

(** X25: loading and then saving without a change gives the lexicon back.
    When the lexicon of the server is a set of trimmed labels that are not
    empty and hold neither comma nor line feed, the modal that has loaded
    it sends it back as it is: the lexicon and the modal are as before the
    save. *)
Theorem load_then_save_unchanged (srv : server) (ui0 : modal)
    (x : list string) :
  techStacks srv = map JStr x -> modal_safe x -> x <> [] ->
  techStacks (fst (handleSaveTechStacks true srv
                     (loadTechStacks true srv ui0)))
  = techStacks srv
  /\ snd (handleSaveTechStacks true srv (loadTechStacks true srv ui0))
     = loadTechStacks true srv ui0.
Proof.
  intros Hx Hsafe Hne.
  assert (Hload : loadTechStacks true srv ui0
                  = {| savedTechStacks := map JStr x;
                       techModalInput := join line_feed x |}).
  { unfold loadTechStacks, get_tech_stacks. rewrite Hx.
    change (ok (res_json 200 (JObj [("techStacks", JArr (map JStr x))])))
      with true.
    cbv iota.
    change (stacks_of
              (body (res_json 200 (JObj [("techStacks", JArr (map JStr x))])))
              [])
      with (Return (map JStr x)).
    cbv iota.
    now rewrite join_stacks_labels. }
  rewrite Hload.
  assert (Hu : unique_entries
                 (techModalInput
                    {| savedTechStacks := map JStr x;
                       techModalInput := join line_feed x |}) = x)
    by (cbn [techModalInput]; now apply unique_entries_join).
  rewrite handleSave_accepted; rewrite Hu; [|exact Hne].
  cbn [fst snd]. rewrite writeTechStacksToFile_lexicon. cbn [techStacks].
  now split.
Qed.

Lemma load_then_save_unchanged_witness :
  snd (handleSaveTechStacks true
         (start {| tech_stacks_json := None; writable := true |})
         (loadTechStacks true
            (start {| tech_stacks_json := None; writable := true |})
            {| savedTechStacks := []; techModalInput := EmptyString |}))
  = loadTechStacks true
      (start {| tech_stacks_json := None; writable := true |})
      {| savedTechStacks := []; techModalInput := EmptyString |}.
Proof.
  refine (proj2 (load_then_save_unchanged
                   (start {| tech_stacks_json := None; writable := true |})
                   {| savedTechStacks := []; techModalInput := EmptyString |}
                   [ "React"; "Next.js"; "TypeScript"; "JavaScript"; "Node.js";
                     "Angular"; "Vue.js"; "Java"; "Spring Boot"; "Python";
                     "Django"; "Flask" ]
                   eq_refl _ ltac:(discriminate))).
  split.
  - repeat (constructor; [simpl; intuition discriminate|]). constructor.
  - repeat (constructor; [repeat split; [discriminate]|]). constructor.
Defined.

(** X26: saving twice is saving once.  After a save that went through, a
    second save from the modal as the first one left it sends the same
    entries: the lexicon of the server and the modal do not change. *)
Theorem handleSave_idempotent (srv : server) (ui : modal) :
  unique_entries (techModalInput ui) <> [] ->
  techStacks
    (fst (handleSaveTechStacks true
            (fst (handleSaveTechStacks true srv ui))
            (snd (handleSaveTechStacks true srv ui))))
  = techStacks (fst (handleSaveTechStacks true srv ui))
  /\ snd (handleSaveTechStacks true
            (fst (handleSaveTechStacks true srv ui))
            (snd (handleSaveTechStacks true srv ui)))
     = snd (handleSaveTechStacks true srv ui).
Proof.
  intros Hne. rewrite (handleSave_accepted srv ui Hne). cbn [fst snd].
  pose proof (unique_entries_safe (techModalInput ui)) as Hsafe.
  set (u := unique_entries (techModalInput ui)) in *.
  assert (Hu : unique_entries
                 (techModalInput
                    {| savedTechStacks := map JStr u;
                       techModalInput := join line_feed u |}) = u)
    by (cbn [techModalInput]; now apply unique_entries_join).
  rewrite handleSave_accepted; rewrite Hu; [|exact Hne].
  cbn [fst snd]. rewrite !writeTechStacksToFile_lexicon. cbn [techStacks].
  now split.
Qed.

Lemma handleSave_idempotent_witness :
  snd (handleSaveTechStacks true
         (fst (handleSaveTechStacks true
                 (start {| tech_stacks_json := None; writable := false |})
                 {| savedTechStacks := []; techModalInput := "Go,Go, Rust " |}))
         (snd (handleSaveTechStacks true
                 (start {| tech_stacks_json := None; writable := false |})
                 {| savedTechStacks := []; techModalInput := "Go,Go, Rust " |})))
  = snd (handleSaveTechStacks true
           (start {| tech_stacks_json := None; writable := false |})
           {| savedTechStacks := []; techModalInput := "Go,Go, Rust " |}).
Proof.
  exact (proj2 (handleSave_idempotent
                  (start {| tech_stacks_json := None; writable := false |})
                  {| savedTechStacks := []; techModalInput := "Go,Go, Rust " |}
                  ltac:(discriminate))).
Defined.

(* ================================================================== *)
(** * The client: the links of the input *)

Section LinkLemmas.

Variable url_is_http : string -> bool.

Lemma sort_links_fold (xs : list string) (acc : links) :
  fold_left (sort_link url_is_http) xs acc
  = {| validLinks := validLinks acc ++ filter (isValidHttpUrl url_is_http) xs;
       invalidLinks :=
         invalidLinks acc
         ++ filter (fun link => negb (isValidHttpUrl url_is_http link)) xs;
       totalLinks := totalLinks acc + List.length xs |}.
Proof.
  revert acc. induction xs as [|x xs IH]; intros acc; simpl.
  - destruct acc. simpl. now rewrite !List.app_nil_r, Nat.add_0_r.
  - rewrite IH. unfold sort_link.
    destruct (isValidHttpUrl url_is_http x); simpl;
      rewrite <- ?List.app_assoc; simpl; f_equal; lia.
Qed.

Lemma normalized_links_In (linkInput link : string) :
  In link (normalized_links linkInput) ->
  trim link = link /\ link <> EmptyString.
Proof.
  unfold normalized_links. rewrite filter_In, in_map_iff.
  intros [(piece & <- & _) Hne]. split; [apply trim_idempotent|].
  intros E. rewrite E in Hne. discriminate.
Qed.

Lemma filter_split_length {A : Type} (f : A -> bool) (xs : list A) :
  List.length (filter f xs) + List.length (filter (fun a => negb (f a)) xs)
  = List.length xs.
Proof.
  induction xs as [|x xs IH]; [reflexivity|]. simpl.
  destruct (f x); simpl; lia.
Qed.

End LinkLemmas.

(** X27: whatever the URL parser accepts, the client sorts every line of
    the input that is not blank, trimmed, into the valid links or into the
    invalid ones, in the order of the lines, and counts it once; a valid
    link is a trimmed text that the parser accepts as it is, and a link to
    fetch is a valid link that was not skipped. *)
Theorem links_are_sorted (url_is_http : string -> bool)
    (linkInput : string) (skipped : list string) :
  validLinks (sorted_links url_is_http linkInput)
  = filter (isValidHttpUrl url_is_http) (normalized_links linkInput)
  /\ invalidLinks (sorted_links url_is_http linkInput)
     = filter (fun link => negb (isValidHttpUrl url_is_http link))
         (normalized_links linkInput)
  /\ totalLinks (sorted_links url_is_http linkInput)
     = List.length (validLinks (sorted_links url_is_http linkInput))
       + List.length (invalidLinks (sorted_links url_is_http linkInput))
  /\ (forall link,
        In link (validLinks (sorted_links url_is_http linkInput))
        -> trim link = link /\ link <> EmptyString
           /\ url_is_http link = true)
  /\ (forall link,
        In link (fetchableLinks url_is_http linkInput skipped)
        <-> In link (validLinks (sorted_links url_is_http linkInput))
            /\ ~ In link skipped).
Proof.
  unfold fetchableLinks, sorted_links. rewrite sort_links_fold.
  cbn [validLinks invalidLinks totalLinks List.app Nat.add].
  split; [reflexivity|]. split; [reflexivity|].
  split; [now rewrite filter_split_length|]. split.
  - intros link H. apply filter_In in H. destruct H as [Hin Hv].
    destruct (normalized_links_In _ _ Hin) as [Ht Hne].
    split; [exact Ht|]. split; [exact Hne|].
    unfold isValidHttpUrl in Hv. rewrite Ht in Hv.
    destruct link; [congruence | exact Hv].
  - intros link. rewrite filter_In, negb_true_iff. split.
    + intros [H Hs]. split; [exact H|]. intros Hin.
      apply set_has_In in Hin. congruence.
    + intros [H Hs]. split; [exact H|].
      destruct (set_has link skipped) eqn:E; [|reflexivity].
      apply set_has_In in E. contradiction.
Qed.

(** X28: the JavaScript pattern of the verification script matches exactly
    the texts with a whole-word occurrence of "JavaScript", up to case,
    that does not come right after "text/" or "application/", or with an
    occurrence of "JS" with no word character, dot, slash, quote or hyphen
    right before it and no word character right after it. *)
Theorem JavaScript_pattern_debug_matches (blob : string) :
  test true JavaScript_pattern_debug blob = true
  <-> JavaScript_word_in_debug blob
      \/ exists p m s,
           blob = p +++ m +++ s /\ str_match true "JS" m = true
           /\ last_is JS_excluded p = false /\ first_is is_word s = false.
Proof.
  unfold JavaScript_pattern_debug.
  now rewrite test_Alt, JavaScript_word_debug_iff, bare_JS_iff.
Qed.
